(** * Media relay core: NAL parser, frame channel, transcoder driver,
      signaling broker and publisher signalling loop.

    Shallow embedding of
      - backend/internal/video/rtsp.go: [NewRTSPVideoSource], the stderr
        classification of [Start], [readFrames], [findStartCode4],
        [findStartCode3] and [Close].  The file holds two revisions of the
        package one after the other; the model follows the later one, with
        the parameter-set cache [spsPps] and the frame channel of 5 slots;
      - internal/signaling (the server): [Run], [HandleWebSocket] and
        [readPump];
      - backend/cmd/publisher/main.go: [readMessages].

    and, for the further properties of Part III, of
      - backend/internal/video/rtsp.go: [ReadFrame] and [processFrame], the
        encoder choice ([detectBestEncoder], [hasEncoder], [hasVAAPIDevice]
        and the parameter lists), the frame-rate parse of the stderr
        goroutine of [Start] and its exit goroutine;
      - backend/internal/video/capture.go: [NewVideoSource], the mock
        source's [ReadFrame], [NewVideoCapturer] and [CaptureFrame];
      - backend/internal/config/config.go: [LoadConfig], [getEnv],
        [getEnvAsInt] and [parseStringSlice], with the functions of Go's
        [strings] and [strconv] they call;
      - internal/ice: [GetWebRTCConfiguration];
      - internal/signaling: the upgrader's [CheckOrigin];
      - backend/cmd/publisher/main.go: [StartStreaming], and the viewer
        table under its lock: [removeViewer], [createViewerConnection] with
        the handlers it registers, and [Close].

    Go [[]byte] is [list byte]; Go [int] results that may be [-1] are [Z];
    indices that are known to be non-negative are [nat].  A Go panic is an
    explicit result.  Logging is left out: it changes no state that the
    properties below depend on. *)

From stdpp Require Import gmap strings list fin_maps.
From Stdlib Require Import ZArith List Bool Lia Ascii.
From Stdlib Require Import Strings.Byte.
From Stdlib Require Import Numbers.DecimalString.
From Stdlib Require Import Numbers.DecimalNat Numbers.DecimalPos.
Import ListNotations.

Local Open Scope Z_scope.

(* ===================================================================== *)
(** * Part I -- the programs                                              *)
(* ===================================================================== *)

Module Video.

(** ** Bytes and indexing *)

Definition is00 (b : byte) : bool := Byte.eqb b x00.
Definition is01 (b : byte) : bool := Byte.eqb b x01.

(** [buffer[i]]; every use below is guarded by the same bound as in the
    source, so the default is never read. *)
Definition at_ (buffer : list byte) (i : nat) : byte := nth i buffer x00.

(** [buffer[i]==0 && buffer[i+1]==0 && buffer[i+2]==0 && buffer[i+3]==1] *)
Definition sc4At (buffer : list byte) (i : nat) : bool :=
  is00 (at_ buffer i) && is00 (at_ buffer (i + 1)) &&
  is00 (at_ buffer (i + 2)) && is01 (at_ buffer (i + 3)).

(** [buffer[i]==0 && buffer[i+1]==0 && buffer[i+2]==1] *)
Definition sc3At (buffer : list byte) (i : nat) : bool :=
  is00 (at_ buffer i) && is00 (at_ buffer (i + 1)) && is01 (at_ buffer (i + 2)).

(** ** findStartCode4 / findStartCode3 *)

(** The loop [for i := i0; ...; i++] with [n] iterations left. *)
Fixpoint findStartCode4_loop (buffer : list byte) (i n : nat) : Z :=
  match n with
  | O => -1
  | S n' =>
      if sc4At buffer i then Z.of_nat i
      else findStartCode4_loop buffer (S i) n'
  end.

(** [for i := 0; i <= len(buffer)-4; i++]: [len-3] iterations, none when
    the buffer is shorter than 4 bytes. *)
Definition findStartCode4 (buffer : list byte) : Z :=
  findStartCode4_loop buffer 0 (length buffer - 3)%nat.

Fixpoint findStartCode3_loop (buffer : list byte) (i n : nat) : Z :=
  match n with
  | O => -1
  | S n' =>
      if (0 <? i)%nat && is00 (at_ buffer (i - 1)) then
        findStartCode3_loop buffer (S i) n'            (* continue *)
      else if sc3At buffer i then Z.of_nat i
      else findStartCode3_loop buffer (S i) n'
  end.

(** [start := 1; if start > len(buffer)-3 { return -1 }]
    [for i := start; i <= len(buffer)-3; i++]: [len-3] iterations. *)
Definition findStartCode3 (buffer : list byte) : Z :=
  let start := 1 in
  if start >? Z.of_nat (length buffer) - 3 then -1
  else findStartCode3_loop buffer 1 (length buffer - 3)%nat.

(** The head of the scan loop of [readFrames]: 4-byte first, then 3-byte;
    the result is [(startCodeIdx, startCodeLen)]. *)
Definition locateStartCode (buffer : list byte) : Z * Z :=
  let idx := findStartCode4 buffer in
  if 0 <=? idx then (idx, 4)
  else
    let idx := findStartCode3 buffer in
    if 0 <=? idx then (idx, 3) else (-1, 0).

(** ** The source object *)

(** The child process behind [cmd.Process], the stdout pipe, and Go
    channels (a FIFO queue with a fixed capacity, oldest element first). *)
Inductive ProcState := ProcRunning | ProcKilled | ProcReaped.
Record Cmd := { Process : option ProcState }.
Inductive PipeState := PipeOpen | PipeClosed.

Record Chan (A : Type) := MkChan {
  chanCap : nat;
  chanQueue : list A;
  chanClosed : bool }.
Arguments MkChan {A}.
Arguments chanCap {A}.
Arguments chanQueue {A}.
Arguments chanClosed {A}.

Definition makeChan {A} (capacity : nat) : Chan A :=
  MkChan capacity [] false.

Record RTSPVideoSource := MkSource {
  rtspURL : string;
  cmd : option Cmd;                  (* nil until Start *)
  stdout : option PipeState;         (* nil until Start *)
  frameChan : Chan (list byte);
  errChan : Chan string;
  closed : bool;
  accessUnit : list byte;            (* accumulator for SPS/PPS *)
  spsPps : list byte;                (* persistent copy for IDR frames *)
  spsPpsFound : bool;
  currentFrame : list byte;          (* NAL units of the current access unit *)
  frameRate : Z }.

(** [NewRTSPVideoSource]; [fps] stands for [config.AppConfig.Video.FPS]. *)
Definition NewRTSPVideoSource (url : string) (fps : Z) : RTSPVideoSource :=
  {| rtspURL := url; cmd := None; stdout := None;
     frameChan := makeChan 5;
     errChan := makeChan 1;
     closed := false;
     accessUnit := []; spsPps := []; spsPpsFound := false;
     currentFrame := []; frameRate := fps |}.

Definition set_closed (r : RTSPVideoSource) (v : bool) :=
  MkSource (rtspURL r) (cmd r) (stdout r) (frameChan r) (errChan r) v
    (accessUnit r) (spsPps r) (spsPpsFound r) (currentFrame r) (frameRate r).
Definition set_cmd (r : RTSPVideoSource) (v : option Cmd) :=
  MkSource (rtspURL r) v (stdout r) (frameChan r) (errChan r) (closed r)
    (accessUnit r) (spsPps r) (spsPpsFound r) (currentFrame r) (frameRate r).
Definition set_stdout (r : RTSPVideoSource) (v : option PipeState) :=
  MkSource (rtspURL r) (cmd r) v (frameChan r) (errChan r) (closed r)
    (accessUnit r) (spsPps r) (spsPpsFound r) (currentFrame r) (frameRate r).
Definition set_frameChan (r : RTSPVideoSource) (v : Chan (list byte)) :=
  MkSource (rtspURL r) (cmd r) (stdout r) v (errChan r) (closed r)
    (accessUnit r) (spsPps r) (spsPpsFound r) (currentFrame r) (frameRate r).
Definition set_accessUnit (r : RTSPVideoSource) (v : list byte) :=
  MkSource (rtspURL r) (cmd r) (stdout r) (frameChan r) (errChan r) (closed r)
    v (spsPps r) (spsPpsFound r) (currentFrame r) (frameRate r).
Definition set_spsPps (r : RTSPVideoSource) (v : list byte) :=
  MkSource (rtspURL r) (cmd r) (stdout r) (frameChan r) (errChan r) (closed r)
    (accessUnit r) v (spsPpsFound r) (currentFrame r) (frameRate r).
Definition set_currentFrame (r : RTSPVideoSource) (v : list byte) :=
  MkSource (rtspURL r) (cmd r) (stdout r) (frameChan r) (errChan r) (closed r)
    (accessUnit r) (spsPps r) (spsPpsFound r) v (frameRate r).

(** ** Close *)

Inductive Effect := KillProcess | WaitProcess | CloseStdout.

Definition kill (p : ProcState) : ProcState :=
  match p with ProcRunning => ProcKilled | _ => p end.
Definition wait (p : ProcState) : ProcState := ProcReaped.

(** [Close] runs under [r.mu]; the result is the new source, the returned
    error ([None] is [nil]) and the calls made on the process and the pipe. *)
Definition Close (r : RTSPVideoSource)
  : RTSPVideoSource * option string * list Effect :=
  if closed r then (r, None, [])
  else
    let r := set_closed r true in
    let '(r, e1) :=
      match cmd r with
      | Some c =>
          match Process c with
          | Some p =>
              (set_cmd r (Some {| Process := Some (wait (kill p)) |}),
               [KillProcess; WaitProcess])
          | None => (r, [])
          end
      | None => (r, [])
      end in
    let '(r, e2) :=
      match stdout r with
      | Some _ => (set_stdout r (Some PipeClosed), [CloseStdout])
      | None => (r, [])
      end in
    (r, None, e1 ++ e2).

(** [n] calls of [Close] in a row: the final source, every returned error
    and all effects in order. *)
Fixpoint CloseTimes (n : nat) (r : RTSPVideoSource)
  : RTSPVideoSource * list (option string) * list Effect :=
  match n with
  | O => (r, [], [])
  | S n' =>
      let '(r1, err, eff) := Close r in
      let '(r2, errs, effs) := CloseTimes n' r1 in
      (r2, err :: errs, eff ++ effs)
  end.

(** ** The frame channel *)

(** [select { case ch <- x: ... default: ... }] *)
Definition trySend {A} (ch : Chan A) (x : A) : option (Chan A) :=
  if (length (chanQueue ch) <? chanCap ch)%nat
  then Some (MkChan (chanCap ch) (chanQueue ch ++ [x]) (chanClosed ch))
  else None.

(** [select { case old := <-ch: ... default: ... }] *)
Definition tryRecv {A} (ch : Chan A) : option (A * Chan A) :=
  match chanQueue ch with
  | [] => None
  | old :: rest => Some (old, MkChan (chanCap ch) rest (chanClosed ch))
  end.

(** The reader side ([ReadFrame]) runs concurrently and only receives:
    between two channel operations of [readFrames] it may have taken the
    [k] oldest frames. *)
Definition consumed {A} (k : nat) (ch : Chan A) : Chan A :=
  MkChan (chanCap ch) (skipn k (chanQueue ch)) (chanClosed ch).

Inductive PushOutcome := Queued | ReplacedOldest | StillFull | WouldBlock.

(** The send of a finalised access unit (the [select] after
    [frameQueueCounter++]): try to send; when full, take one old frame and
    try again; when the channel was drained in between, send. [k1] and [k2]
    are the reader's receives between the three channel operations. *)
Definition pushFrame (k1 k2 : nat) (ch : Chan (list byte)) (frame : list byte)
  : Chan (list byte) * PushOutcome :=
  match trySend ch frame with
  | Some ch' => (ch', Queued)
  | None =>
      let ch1 := consumed k1 ch in
      match tryRecv ch1 with
      | Some (_, ch2) =>
          let ch3 := consumed k2 ch2 in
          match trySend ch3 frame with
          | Some ch4 => (ch4, ReplacedOldest)
          | None => (ch3, StillFull)       (* "still full after drop" *)
          end
      | None =>
          (* r.frameChan <- frameToSend, a blocking send *)
          match trySend ch1 frame with
          | Some ch2 => (ch2, Queued)
          | None => (ch1, WouldBlock)
          end
      end
  end.

(** The variant used by the AUD and first-IDR sends: after the receive the
    new frame is sent with a blocking send. *)
Definition pushFrameBlocking (k1 k2 : nat) (ch : Chan (list byte))
  (frame : list byte) : Chan (list byte) * PushOutcome :=
  match trySend ch frame with
  | Some ch' => (ch', Queued)
  | None =>
      let ch1 := consumed k1 ch in
      match tryRecv ch1 with
      | Some (_, ch2) =>
          let ch3 := consumed k2 ch2 in
          match trySend ch3 frame with
          | Some ch4 => (ch4, ReplacedOldest)
          | None => (ch3, WouldBlock)
          end
      | None =>
          match trySend ch1 frame with
          | Some ch2 => (ch2, Queued)
          | None => (ch1, WouldBlock)
          end
      end
  end.

(** [sendFrameSafely], the helper of the read-error path: one non-blocking
    send; the frame is dropped when the channel is full. *)
Definition sendFrameSafely (ch : Chan (list byte)) (frame : list byte)
  : Chan (list byte) * bool :=
  match trySend ch frame with
  | Some ch' => (ch', true)
  | None => (ch, false)
  end.


(** ** readFrames: NAL extraction *)

(** [b & 0x1F] *)
Definition nalTypeBits (b : byte) : N := N.land (Byte.to_N b) 31.

(** [buffer[lo:]]; Go panics when [lo > len(buffer)]. *)
Definition sliceFrom (buffer : list byte) (lo : nat) : option (list byte) :=
  if (lo <=? length buffer)%nat then Some (skipn lo buffer) else None.

(** [buffer[lo:hi]] for [lo <= hi <= len(buffer)]. *)
Definition slice (buffer : list byte) (lo hi : nat) : list byte :=
  firstn (hi - lo) (skipn lo buffer).

(** [for i := startCodeIdx - 1; i >= 0; i--]: the start code that ends
    last before [startCodeIdx], as [(prevStartCodeIdx, prevStartCodeLen)].
    The argument is the number of iterations left, [i + 1]. *)
Fixpoint findPrevStartCode (buffer : list byte) (n : nat) : option (nat * nat) :=
  match n with
  | O => None
  | S i =>
      if (3 <=? i)%nat && is00 (at_ buffer (i - 3)) && is00 (at_ buffer (i - 2))
         && is00 (at_ buffer (i - 1)) && is01 (at_ buffer i)
      then Some ((i - 3)%nat, 4%nat)
      else if (2 <=? i)%nat && is00 (at_ buffer (i - 2))
              && is00 (at_ buffer (i - 1)) && is01 (at_ buffer i)
      then Some ((i - 2)%nat, 3%nat)
      else findPrevStartCode buffer i
  end.

(** [for i := startCodeIdx + currentStartCodeLen; i < len(buffer)-3; i++] *)
Fixpoint findNextStartCode_loop (buffer : list byte) (i n : nat) : option nat :=
  match n with
  | O => None
  | S n' =>
      if (i + 3 <? length buffer)%nat && sc4At buffer i then Some i
      else if (i + 2 <? length buffer)%nat && sc3At buffer i then
        if (i =? 0)%nat || negb (is00 (at_ buffer (i - 1))) then Some i
        else findNextStartCode_loop buffer (S i) n'
      else findNextStartCode_loop buffer (S i) n'
  end.

Definition findNextStartCode (buffer : list byte) (start : nat) : option nat :=
  findNextStartCode_loop buffer start (length buffer - 3 - start)%nat.

(** [nalTypeByte] of an extracted unit. *)
Definition nalTypeOf (nalUnit : list byte) : N :=
  if (5 <=? length nalUnit)%nat && is00 (at_ nalUnit 0) && is00 (at_ nalUnit 1)
     && is00 (at_ nalUnit 2) && is01 (at_ nalUnit 3)
  then nalTypeBits (at_ nalUnit 4)
  else if (4 <=? length nalUnit)%nat && is00 (at_ nalUnit 0)
          && is00 (at_ nalUnit 1) && is01 (at_ nalUnit 2)
  then nalTypeBits (at_ nalUnit 3)
  else 0%N.

(** The IDR check of the finalisation path: [i] jumps over each start code
    and the header byte behind it.  [fuel] bounds the iterations; [i] grows
    in each of them, so [len(frame)] is enough. *)
Fixpoint hasIDR_loop (frame : list byte) (i fuel : nat) : bool :=
  match fuel with
  | O => false
  | S fuel' =>
      if (i <? length frame)%nat then
        if (i + 4 <=? length frame)%nat && sc4At frame i then
          let nalStart := (i + 4)%nat in
          let nalType := if (nalStart <? length frame)%nat
                         then nalTypeBits (at_ frame nalStart) else 0%N in
          if (nalType =? 5)%N then true
          else hasIDR_loop frame (nalStart + 1) fuel'
        else if (i + 3 <=? length frame)%nat && sc3At frame i then
          let nalStart := (i + 3)%nat in
          let nalType := if (nalStart <? length frame)%nat
                         then nalTypeBits (at_ frame nalStart) else 0%N in
          if (nalType =? 5)%N then true
          else hasIDR_loop frame (nalStart + 1) fuel'
        else hasIDR_loop frame (i + 1) fuel'
      else false
  end.

Definition hasIDR_scan (frame : list byte) : bool :=
  hasIDR_loop frame 0 (length frame).

(** The IDR check of the AUD and first-IDR paths:
    [for i := 0; i < len(frame)-3; i++]. *)
Fixpoint hasIDR_linear_loop (frame : list byte) (i n : nat) : bool :=
  match n with
  | O => false
  | S n' =>
      if sc4At frame i then
        if (i + 4 <? length frame)%nat
           && (nalTypeBits (at_ frame (i + 4)) =? 5)%N
        then true else hasIDR_linear_loop frame (S i) n'
      else if (i + 2 <? length frame)%nat && sc3At frame i then
        if (i + 3 <? length frame)%nat
           && (nalTypeBits (at_ frame (i + 3)) =? 5)%N
        then true else hasIDR_linear_loop frame (S i) n'
      else hasIDR_linear_loop frame (S i) n'
  end.

Definition hasIDR_linear (frame : list byte) : bool :=
  hasIDR_linear_loop frame 0 (length frame - 3)%nat.

(** The SPS/PPS check over the accumulator:
    [for i := 0; i < len(r.accessUnit)-3; i++], result [(hasSPS, hasPPS)]. *)
Fixpoint scanParamSets_loop (au : list byte) (i n : nat) (hasSPS hasPPS : bool)
  : bool * bool :=
  match n with
  | O => (hasSPS, hasPPS)
  | S n' =>
      let nalType :=
        if sc4At au i then
          if (i + 4 <? length au)%nat
          then Some (nalTypeBits (at_ au (i + 4))) else None
        else if sc3At au i then
          if (i + 3 <? length au)%nat
          then Some (nalTypeBits (at_ au (i + 3))) else None
        else None in
      match nalType with
      | None => scanParamSets_loop au (S i) n' hasSPS hasPPS    (* continue *)
      | Some t =>
          if (t =? 7)%N then scanParamSets_loop au (S i) n' true hasPPS
          else if (t =? 8)%N then scanParamSets_loop au (S i) n' hasSPS true
          else scanParamSets_loop au (S i) n' hasSPS hasPPS
      end
  end.

Definition scanParamSets (au : list byte) : bool * bool :=
  scanParamSets_loop au 0 (length au - 3)%nat false false.

(** ** readFrames: access-unit assembly *)

(** What [readFrames] does on its two channels, in order.  A send of a
    finalised access unit records the parameter-set cache and the frame
    accumulator as they were when the frame was built. *)
Record Emission := MkEmission {
  em_spsPps : list byte;
  em_currentFrame : list byte;
  em_frame : list byte }.

Inductive PushSite := FinalisePush | AudPush | FirstIdrPush.

Inductive ChanOp :=
| Push (site : PushSite) (e : Emission)   (* drop-oldest send of frameToSend *)
| Flush (frame : list byte)               (* sendFrameSafely(buffer) *)
| ErrSend (msg : string)                  (* sendErrorSafely(msg) *)
| CloseChans.                             (* deferred close of both channels *)

Definition emission (r : RTSPVideoSource) (frameToSend : list byte) : Emission :=
  MkEmission (spsPps r) (currentFrame r) frameToSend.

(** [frameQueueCounter++] on a 64-bit [int]. *)
Definition incr (n : Z) : Z :=
  if n + 1 <? 2 ^ 63 then n + 1 else - 2 ^ 63.

(** The body of [if len(nalUnit) > prevStartCodeLen+1 { ... }]. *)
Definition processNAL (r : RTSPVideoSource) (frameQueueCounter : Z)
  (nalUnit : list byte) : RTSPVideoSource * Z * list ChanOp :=
  let nalTypeByte := nalTypeOf nalUnit in
  let isPictureFrame := (nalTypeByte =? 5)%N || (nalTypeByte =? 1)%N in
  let isIDR := (nalTypeByte =? 5)%N in
  let isAUD := (nalTypeByte =? 9)%N in
  let shouldSendFrame :=
    if isAUD then (0 <? length (currentFrame r))%nat
    else if isPictureFrame then
      if isIDR then
        if (0 <? length (currentFrame r))%nat then true else false
      else if (0 <? length (currentFrame r))%nat then true
      else false
    else false in
  let '(r, frameQueueCounter, ops1) :=
    if shouldSendFrame then
      let hasIDR :=
        if (0 <? length (spsPps r))%nat
        then hasIDR_scan (currentFrame r) else false in
      let frameToSend :=
        if hasIDR && (0 <? length (spsPps r))%nat
        then spsPps r ++ currentFrame r
        else currentFrame r in
      (set_currentFrame r [], incr frameQueueCounter,
       [Push FinalisePush (emission r frameToSend)])
    else (r, frameQueueCounter, []) in
  let '(r, frameQueueCounter, ops2) :=
    if isAUD then
      if (0 <? length (currentFrame r))%nat && negb shouldSendFrame then
        let frameToSend :=
          if (0 <? length (spsPps r))%nat then
            if hasIDR_linear (currentFrame r)
            then spsPps r ++ currentFrame r
            else currentFrame r
          else currentFrame r in
        (set_currentFrame r [], incr frameQueueCounter,
         [Push AudPush (emission r frameToSend)])
      else (r, frameQueueCounter, [])
    else if isPictureFrame then
      (set_currentFrame r (currentFrame r ++ nalUnit), frameQueueCounter, [])
    else if (nalTypeByte =? 7)%N || (nalTypeByte =? 8)%N then
      let r := set_accessUnit r (accessUnit r ++ nalUnit) in
      let '(hasSPS, hasPPS) := scanParamSets (accessUnit r) in
      (if hasSPS && hasPPS then set_spsPps r (accessUnit r) else r,
       frameQueueCounter, [])
    else if (0 <? length (currentFrame r))%nat then
      (set_currentFrame r (currentFrame r ++ nalUnit), frameQueueCounter, [])
    else
      (set_accessUnit r (accessUnit r ++ nalUnit), frameQueueCounter, []) in
  (r, frameQueueCounter, ops1 ++ ops2).

(** The block under [if !found]: an accumulated first IDR frame is sent
    once the parameter sets are known and nothing was queued before. *)
Definition firstIdrFlush (r : RTSPVideoSource) (frameQueueCounter : Z)
  : RTSPVideoSource * Z * list ChanOp :=
  if (0 <? length (currentFrame r))%nat && (0 <? length (spsPps r))%nat
     && (frameQueueCounter =? 0)
  then
    if hasIDR_linear (currentFrame r) && (100 <? length (currentFrame r))%nat
    then (set_currentFrame r [], incr frameQueueCounter,
          [Push FirstIdrPush (emission r (spsPps r ++ currentFrame r))])
    else (r, frameQueueCounter, [])
  else (r, frameQueueCounter, []).

(** One iteration of the inner [for] loop. *)
Inductive ScanResult :=
| ScanPanic                               (* slice bounds out of range *)
| ScanBreak (r : RTSPVideoSource) (frameQueueCounter : Z) (ops : list ChanOp)
| ScanNext (r : RTSPVideoSource) (buffer : list byte) (frameQueueCounter : Z)
           (ops : list ChanOp).

(** The end of an iteration that found a start code: the working buffer
    is cut to its last 256 KB when it exceeds 512 KB. *)
Definition truncateBuffer (buffer : list byte) : list byte :=
  if (512 * 1024 <? length buffer)%nat
  then skipn (length buffer - 256 * 1024) buffer
  else buffer.

Definition scanIteration (r : RTSPVideoSource) (buffer : list byte)
  (frameQueueCounter : Z) : ScanResult :=
  let '(startCodeIdx, startCodeLen) := locateStartCode buffer in
  if 0 <=? startCodeIdx then
    let s := Z.to_nat startCodeIdx in
    let bounds :=
      match findPrevStartCode buffer s with
      | Some (prevStartCodeIdx, prevStartCodeLen) =>
          Some (prevStartCodeIdx, s, prevStartCodeLen, true)
      | None =>
          match findNextStartCode buffer (s + Z.to_nat startCodeLen) with
          | Some nextStartCodeIdx =>
              Some (s, nextStartCodeIdx, Z.to_nat startCodeLen, false)
          | None => None
          end
      end in
    match bounds with
    | None =>
        (* no next start code yet: break, more data is needed *)
        ScanBreak r frameQueueCounter []
    | Some (nalStart, nalEnd, prevStartCodeLen, havePrev) =>
        if (nalStart <? nalEnd)%nat && (prevStartCodeLen <? nalEnd - nalStart)%nat
        then
          let nalUnit := slice buffer nalStart nalEnd in
          let '(r, frameQueueCounter, ops) :=
            if (prevStartCodeLen + 1 <? length nalUnit)%nat
            then processNAL r frameQueueCounter nalUnit
            else (r, frameQueueCounter, []) in
          match sliceFrom buffer (if havePrev then s else nalEnd) with
          | Some buffer => ScanNext r (truncateBuffer buffer) frameQueueCounter ops
          | None => ScanPanic
          end
        else
          match sliceFrom buffer (s + 4) with
          | Some buffer => ScanNext r (truncateBuffer buffer) frameQueueCounter []
          | None => ScanPanic
          end
    end
  else
    let '(r, frameQueueCounter, ops) := firstIdrFlush r frameQueueCounter in
    ScanBreak r frameQueueCounter ops.

(** The inner loop.  Every [ScanNext] shortens the buffer, so
    [len(buffer) + 1] iterations are enough ([scanBuffer] below). *)
Inductive LoopResult :=
| LoopPanic (ops : list ChanOp)
| LoopDone (r : RTSPVideoSource) (buffer : list byte) (frameQueueCounter : Z)
           (ops : list ChanOp)
| LoopOutOfFuel.

Fixpoint scanLoop (fuel : nat) (r : RTSPVideoSource) (buffer : list byte)
  (frameQueueCounter : Z) : LoopResult :=
  match fuel with
  | O => LoopOutOfFuel
  | S fuel' =>
      match scanIteration r buffer frameQueueCounter with
      | ScanPanic => LoopPanic []
      | ScanBreak r c ops => LoopDone r buffer c ops
      | ScanNext r b c ops =>
          match scanLoop fuel' r b c with
          | LoopPanic ops' => LoopPanic (ops ++ ops')
          | LoopDone r' b' c' ops' => LoopDone r' b' c' (ops ++ ops')
          | LoopOutOfFuel => LoopOutOfFuel
          end
      end
  end.

Definition scanBuffer (r : RTSPVideoSource) (buffer : list byte)
  (frameQueueCounter : Z) : LoopResult :=
  scanLoop (S (length buffer)) r buffer frameQueueCounter.

(** ** readFrames: the read loop *)

(** What one turn of the outer loop meets: the closed flag set by [Close],
    a chunk from [reader.Read], or a read error ([None] is [io.EOF]). *)
Inductive ReadEvent :=
| ObservedClosed
| ReadChunk (chunk : list byte)
| ReadError (err : option string).

Inductive Outcome := Returned | Panicked | AwaitingRead | OutOfFuel.

Record Run := MkRun {
  run_src : RTSPVideoSource;
  run_buffer : list byte;
  run_counter : Z;
  run_ops : list ChanOp;
  run_outcome : Outcome }.

Definition readErrorMessage (err : option string) : string :=
  match err with
  | Some e =>
      String.append "failed to read from FFmpeg stdout: "
        (String.append e " (FFmpeg may have exited)")
  | None => "FFmpeg stdout closed (EOF) - process may have exited"
  end.

Fixpoint readFrames_loop (events : list ReadEvent) (r : RTSPVideoSource)
  (buffer : list byte) (frameQueueCounter : Z) (ops : list ChanOp) : Run :=
  match events with
  | [] => MkRun r buffer frameQueueCounter ops AwaitingRead
  | ObservedClosed :: _ =>
      MkRun r buffer frameQueueCounter (ops ++ [CloseChans]) Returned
  | ReadError err :: _ =>
      MkRun r buffer frameQueueCounter
        (ops ++ [ErrSend (readErrorMessage err)]
             ++ (if (0 <? length buffer)%nat then [Flush buffer] else [])
             ++ [CloseChans])
        Returned
  | ReadChunk chunk :: events' =>
      if (length chunk =? 0)%nat then
        readFrames_loop events' r buffer frameQueueCounter ops
      else
        let buffer := buffer ++ chunk in
        if (length buffer <? 20)%nat then
          readFrames_loop events' r buffer frameQueueCounter ops
        else
          match scanBuffer r buffer frameQueueCounter with
          | LoopPanic ops' =>
              MkRun r buffer frameQueueCounter
                (ops ++ ops' ++ [CloseChans]) Panicked
          | LoopDone r' buffer' c' ops' =>
              readFrames_loop events' r' buffer' c' (ops ++ ops')
          | LoopOutOfFuel =>
              MkRun r buffer frameQueueCounter ops OutOfFuel
          end
  end.

(** [readFrames] on a fresh working buffer; [frameQueueCounter] is the
    package-level counter as the goroutine finds it. *)
Definition readFrames (r : RTSPVideoSource) (frameQueueCounter : Z)
  (events : list ReadEvent) : Run :=
  readFrames_loop events r [] frameQueueCounter [].

(** ** The channel side of a run *)

(** One channel operation of [readFrames] against the frame channel; the
    reader took [k0] frames before it and [k1], [k2] frames inside it. *)
Definition deliverOp (k0 k1 k2 : nat) (ch : Chan (list byte)) (op : ChanOp)
  : Chan (list byte) :=
  let ch := consumed k0 ch in
  match op with
  | Push FinalisePush e => fst (pushFrame k1 k2 ch (em_frame e))
  | Push _ e => fst (pushFrameBlocking k1 k2 ch (em_frame e))
  | Flush frame => fst (sendFrameSafely ch frame)
  | ErrSend _ => ch
  | CloseChans => MkChan (chanCap ch) (chanQueue ch) true
  end.

(** All operations of a run, with no receive by the reader in between. *)
Definition deliver (ch : Chan (list byte)) (ops : list ChanOp)
  : Chan (list byte) :=
  fold_left (deliverOp 0 0 0) ops ch.

(** ** Annex-B vocabulary for the properties *)

(** The byte sequence begins with [00 00 00 01] or [00 00 01]. *)
Definition startsWithStartCode (bs : list byte) : bool :=
  match bs with
  | a :: b :: c :: rest =>
      is00 a && is00 b &&
      (is01 c || (is00 c && match rest with d :: _ => is01 d | [] => false end))
  | _ => false
  end.

(** A start code of [n] bytes (3 or 4) begins at offset [i] of [bs] and the
    NAL header byte behind it, inside [bs], has type [t]. *)
Definition nalHeaderAt (bs : list byte) (i n : nat) (t : N) : Prop :=
  (i + n < length bs)%nat /\
  ((n = 3%nat /\ sc3At bs i = true) \/ (n = 4%nat /\ sc4At bs i = true)) /\
  nalTypeBits (at_ bs (i + n)) = t.

(** The byte sequence contains a NAL unit of type [t]. *)
Definition containsNal (t : N) (bs : list byte) : Prop :=
  exists i n, nalHeaderAt bs i n t.

(** An extracted unit is well delimited: it begins with a start code of
    [n0] bytes, carries at least two more bytes, and every start code inside
    it that is followed by a header byte leads to the same header byte. *)
Definition wellDelimited (nalUnit : list byte) (n0 : nat) : Prop :=
  ((n0 = 3%nat /\ sc3At nalUnit 0 = true) \/
   (n0 = 4%nat /\ sc4At nalUnit 0 = true)) /\
  (n0 + 1 < length nalUnit)%nat /\
  forall j n t, nalHeaderAt nalUnit j n t -> (j + n)%nat = n0.

(** The frame accumulator is empty, or begins with a start code whose
    header byte is the only place where an IDR header can be found. *)
Definition frameInv (frame : list byte) : Prop :=
  frame = [] \/
  exists n0,
    ((n0 = 3%nat /\ sc3At frame 0 = true) \/
     (n0 = 4%nat /\ sc4At frame 0 = true)) /\
    (n0 < length frame)%nat /\
    forall j n, nalHeaderAt frame j n 5 -> (j + n)%nat = n0.

(** The parameter-set cache is empty, or begins with a start code and
    holds an SPS and a PPS. *)
Definition cacheInv (cache : list byte) : Prop :=
  cache = [] \/
  (startsWithStartCode cache = true /\
   containsNal 7 cache /\ containsNal 8 cache).

Definition stateInv (r : RTSPVideoSource) : Prop :=
  frameInv (currentFrame r) /\
  (accessUnit r = [] \/ startsWithStartCode (accessUnit r) = true) /\
  cacheInv (spsPps r).

(** What holds of every send of a finalised access unit. *)
Definition emissionOK (e : Emission) : Prop :=
  startsWithStartCode (em_currentFrame e) = true /\
  startsWithStartCode (em_frame e) = true /\
  cacheInv (em_spsPps e) /\
  (em_frame e = em_currentFrame e \/
   (em_spsPps e <> [] /\ containsNal 5 (em_currentFrame e) /\
    em_frame e = em_spsPps e ++ em_currentFrame e)) /\
  (containsNal 5 (em_currentFrame e) -> em_spsPps e <> [] ->
   em_frame e = em_spsPps e ++ em_currentFrame e).

Definition opOK (op : ChanOp) : Prop :=
  match op with
  | Push _ e => emissionOK e
  | _ => True
  end.

(** The emission rule as the specification words it: the cache is one SPS
    unit followed by one PPS unit, each with its start code, and the emitted
    bytes are that SPS, that PPS, then the frame. *)
Definition specEmission (e : Emission) : Prop :=
  exists sps pps,
    nalTypeOf sps = 7%N /\ nalTypeOf pps = 8%N /\
    em_spsPps e = sps ++ pps /\
    em_frame e = sps ++ pps ++ em_currentFrame e.

(** ** Start: classification of the transcoder's stderr lines *)

Section Lowering.

(** Go strings are byte strings.  [strings.ToLower] lowers the letters
    [A]..[Z] of a string that holds ASCII bytes only; a string with a byte
    of 128 or more goes through [strings.Map(unicode.ToLower, s)], which
    decodes UTF-8 and follows the Unicode case tables of the Go release
    (U+0130 becomes [i], U+212A becomes [k], an invalid byte becomes
    U+FFFD).  That library routine is a parameter here. *)
Variable mapToLower : string -> string.

(** [c < utf8.RuneSelf] for every byte. *)
Fixpoint isASCII (s : string) : bool :=
  match s with
  | EmptyString => true
  | String c s' => (nat_of_ascii c <? 128)%nat && isASCII s'
  end.

(** [c += 'a' - 'A'] for ['A' <= c && c <= 'Z']. *)
Definition lowerAscii (c : ascii) : ascii :=
  let n := nat_of_ascii c in
  if ((65 <=? n) && (n <=? 90))%nat then ascii_of_nat (n + 32) else c.

Fixpoint lowerASCII (s : string) : string :=
  match s with
  | EmptyString => EmptyString
  | String c s' => String (lowerAscii c) (lowerASCII s')
  end.

(** [strings.ToLower] *)
Definition ToLower (s : string) : string :=
  if isASCII s then lowerASCII s else mapToLower s.

(** [strings.HasPrefix] *)
Fixpoint HasPrefix (s prefix : string) {struct prefix} : bool :=
  match prefix, s with
  | EmptyString, _ => true
  | String _ _, EmptyString => false
  | String p prefix', String c s' => Ascii.eqb c p && HasPrefix s' prefix'
  end.

(** [strings.Contains] *)
Fixpoint Contains (s substr : string) : bool :=
  HasPrefix s substr ||
  match s with
  | EmptyString => false
  | String _ s' => Contains s' substr
  end.

(** [isHardwareEncoderError], computed on the lower-cased line. *)
Definition isHardwareEncoderError (lowerLine : string) : bool :=
  Contains lowerLine "vaapi" &&
  (Contains lowerLine "failed" ||
   Contains lowerLine "error" ||
   Contains lowerLine "device creation failed" ||
   Contains lowerLine "failed to initialise" ||
   Contains lowerLine "input/output error").

(** The condition of the [if] that records a critical error, on the
    lower-cased line. *)
Definition matchesCritical (lowerLine : string) : bool :=
  Contains lowerLine "404 not found" ||
  Contains lowerLine "connection refused" ||
  Contains lowerLine "failed" ||
  Contains lowerLine "error opening input" ||
  isHardwareEncoderError lowerLine.

(** The condition under which the stderr goroutine of [Start] records a
    line as the critical FFmpeg error (it sits inside [if len(line) > 0]). *)
Definition isCriticalLine (line : string) : bool :=
  (0 <? String.length line)%nat &&
  let lowerLine := ToLower line in
  matchesCritical lowerLine.

(** One stderr line against the shared [ffmpegError] variable ([None] is
    Go's [nil]): only the first critical line is kept. *)
Definition stderrLine (ffmpegError : option string) (line : string)
  : option string :=
  if isCriticalLine line then
    match ffmpegError with
    | None => Some (String.append "FFmpeg critical error: " line)
    | Some e => Some e
    end
  else ffmpegError.

(** The fatal patterns as the specification lists them: [404],
    [connection refused], [failed], [error opening input], or the
    hardware-encoder keywords. *)
Definition specFatal (line : string) : bool :=
  let lowerLine := ToLower line in
  Contains lowerLine "404" ||
  Contains lowerLine "connection refused" ||
  Contains lowerLine "failed" ||
  Contains lowerLine "error opening input" ||
  isHardwareEncoderError lowerLine.

End Lowering.

(** The line [FA], U+0130 (bytes [C4 B0]), [LED to open rtsp://camera]. *)
Definition dottedFailedLine : string :=
  String "F" (String "A" (String "196" (String "176"
    "LED to open rtsp://camera"))).

End Video.

(** * The signaling messages *)

Module Json.

(** A decoded JSON value ([interface{}] after [json.Unmarshal]); an object
    is a Go [map[string]interface{}].  Numbers are kept as integers, which
    is all the signalling fields use. *)
#[warnings="-register-all"]
Inductive json :=
| JNull
| JBool (b : bool)
| JNumber (n : Z)
| JString (s : string)
| JArray (l : list json)
| JObject (m : gmap string json).

(** What [json.Unmarshal(message, &msg)] yields for a
    [map[string]interface{}] target: an error (bad syntax, or a value that
    is not an object), a nil map for the literal [null], or the object. *)
Inductive Inbound :=
| Malformed
| JsonNull
| JsonObject (m : gmap string json).

(** [v, ok := m[k].(string)] *)
Definition asString (v : option json) : option string :=
  match v with Some (JString s) => Some s | _ => None end.

(** [m[k].(map[string]interface{})] succeeds only on an object. *)
Definition asObject (v : option json) : option (gmap string json) :=
  match v with Some (JObject m) => Some m | _ => None end.

(** [v, ok := m[k].(float64)] *)
Definition asNumber (v : option json) : option Z :=
  match v with Some (JNumber n) => Some n | _ => None end.

End Json.

(** * The signaling broker *)

Module Signaling.
Import Json Video.

(** A [*Client] is known by its address. *)
Definition ptr := nat.

(** [Client]: the id and the send queue ([chan []byte], 256 slots); a
    queued message is kept as the object it encodes. *)
Record Client := MkClient {
  clientID : string;
  send : Chan (gmap string json) }.

(** [fmt.Sprintf("client-%d", n)] *)
Definition clientIDOf (n : nat) : string :=
  String.append "client-" (NilZero.string_of_uint (Nat.to_uint n)).

(** [HandleWebSocket] after the upgrade: the id is computed from the size of
    the client table [s.clients] under the lock; the client is then handed
    to [Run] through the [register] channel. *)
Definition HandleWebSocket (clients : gmap ptr Client) : Client :=
  let clientCount := size clients in
  MkClient (clientIDOf (clientCount + 1)) (makeChan 256).

(** The non-blocking send to every client but [self]: a client whose queue
    is full has its channel closed and is deleted from the table. *)
Definition broadcastExcept (self : ptr) (msg : gmap string json)
  (clients : gmap ptr Client) : gmap ptr Client :=
  map_imap
    (fun (p : ptr) (cl : Client) =>
       if decide (p = self) then Some cl
       else match trySend (send cl) msg with
            | Some ch => Some (MkClient (clientID cl) ch)
            | None => None
            end)
    clients.

(** [close(client.send)] *)
Definition closeSend (cl : Client) : Client :=
  MkClient (clientID cl)
           (MkChan (chanCap (send cl)) (chanQueue (send cl)) true).

(** The other side of the same loop: the clients, other than [self], whose
    queue is full, each with its send channel after [close(client.send)].
    They have left the table, but their [writePump] still holds them and
    ends when it finds the channel closed. *)
Definition closedExcept (self : ptr) (msg : gmap string json)
  (clients : gmap ptr Client) : gmap ptr Client :=
  map_imap
    (fun (p : ptr) (cl : Client) =>
       if decide (p = self) then None
       else match trySend (send cl) msg with
            | Some _ => None
            | None => Some (closeSend cl)
            end)
    clients.

Definition viewerConnected (id : string) : gmap string json :=
  <["type" := JString "viewer_connected"]>
    (<["clientId" := JString id]> ∅).

(** [Run], [case client := <-s.register]. *)
Definition Run_register (clients : gmap ptr Client) (p : ptr) (client : Client)
  : gmap ptr Client :=
  let hasExistingClients := (0 <? size clients)%nat in
  let clients := <[p := client]> clients in
  if hasExistingClients
  then broadcastExcept p (viewerConnected (clientID client)) clients
  else clients.

(** The clients closed by the notification loop of the register case. *)
Definition Run_register_closed (clients : gmap ptr Client) (p : ptr)
  (client : Client) : gmap ptr Client :=
  let hasExistingClients := (0 <? size clients)%nat in
  let clients := <[p := client]> clients in
  if hasExistingClients
  then closedExcept p (viewerConnected (clientID client)) clients
  else ∅.

(** [Run], [case client := <-s.unregister]. *)
Definition Run_unregister (clients : gmap ptr Client) (p : ptr)
  : gmap ptr Client :=
  match clients !! p with
  | Some _ => delete p clients
  | None => clients
  end.

(** A connection from upgrade to registration with nothing in between. *)
Definition connect (clients : gmap ptr Client) (p : ptr) : gmap ptr Client :=
  Run_register clients p (HandleWebSocket clients).




(** The ids held by the clients in the table. *)
Definition connectedIDs (clients : gmap ptr Client) : list string :=
  (fun pc => clientID (snd pc)) <$> map_to_list clients.

End Signaling.

(** * The publisher's signalling loop *)

Module Publisher.
Import Json.

(** [webrtc.ICECandidateInit] as [readMessages] fills it. *)
Record ICECandidateInit := MkCandidate {
  Candidate : string;
  SDPMLineIndex : option Z;
  SDPMid : option string }.

(** What the loop uses of a viewer's [*webrtc.PeerConnection]: the remote
    description ([None] is nil) and the remote candidates it has accepted,
    in order. *)
Record PeerConnection := MkPC {
  remoteDescription : option string;
  remoteCandidates : list ICECandidateInit }.

(** The WebRTC stack and the socket, as far as their answers steer the
    loop: whether a peer connection can be created and the track added,
    whether the offer can be created and sent, whether an answer SDP is
    accepted.  The handlers that [createViewerConnection] registers run on
    goroutines of their own; what they do to the table between the
    critical sections of the loop is followed in [ViewerTable] below. *)
Record Stack := MkStack {
  createViewerConnection_ok : string -> bool;
  sendOffer_ok : string -> bool;
  answer_ok : string -> bool }.

(** [pc.SetRemoteDescription(answer)] *)
Definition SetRemoteDescription (stack : Stack) (pc : PeerConnection)
  (sdp : string) : PeerConnection * bool :=
  if answer_ok stack sdp
  then (MkPC (Some sdp) (remoteCandidates pc), true)
  else (pc, false).

(** [pc.AddICECandidate(candidate)]: the stack refuses a candidate while
    the remote description is nil. *)
Definition AddICECandidate (pc : PeerConnection) (candidate : ICECandidateInit)
  : PeerConnection * bool :=
  match remoteDescription pc with
  | Some _ =>
      (MkPC (remoteDescription pc) (remoteCandidates pc ++ [candidate]), true)
  | None => (pc, false)
  end.

(** The calls [readMessages] makes on the peer connections, in order; a
    candidate call records whether the remote description was set when the
    call was made, and whether the call succeeded. *)
Inductive Call :=
| CallClose (clientID : string)
| CallNewPeerConnection (clientID : string)
| CallSendOffer (clientID : string)
| CallSetRemoteDescription (clientID sdp : string) (ok : bool)
| CallAddICECandidate (clientID : string) (candidate : ICECandidateInit)
    (remoteDescriptionSet ok : bool).

Record Publisher := MkPublisher {
  viewers : gmap string PeerConnection;
  calls : list Call }.

Definition NewPublisher : Publisher := MkPublisher ∅ [].

Inductive Handled :=
| Continue (p : Publisher)
| TypeAssertionPanic.

(** [clientId], or [fromClientId] as fallback. *)
Definition routeID (msg : gmap string json) : option string :=
  match asString (msg !! "clientId") with
  | Some id => Some id
  | None => asString (msg !! "fromClientId")
  end.

(** [uint16(sdpMLineIndex)] *)
Definition toUint16 (n : Z) : Z := n mod 65536.

(** [removeViewer] *)
Definition removeViewer (p : Publisher) (clientID : string) : Publisher :=
  match viewers p !! clientID with
  | Some _ =>
      MkPublisher (delete clientID (viewers p)) (calls p ++ [CallClose clientID])
  | None => p
  end.

(** The body of the [for] loop of [readMessages] after a successful
    [ReadMessage]. *)
Definition readMessages_message (stack : Stack) (p : Publisher)
  (message : Inbound) : Handled :=
  match message with
  | Malformed => Continue p
  | JsonNull => Continue p             (* reading a nil map: no case matches *)
  | JsonObject msg =>
      let msgType := default EmptyString (asString (msg !! "type")) in
      if String.eqb msgType "viewer_connected" then
        match asString (msg !! "clientId") with
        | None => Continue p
        | Some clientID =>
            let p := removeViewer p clientID in
            if createViewerConnection_ok stack clientID then
              let p :=
                MkPublisher (<[clientID := MkPC None []]> (viewers p))
                            (calls p ++ [CallNewPeerConnection clientID]) in
              if sendOffer_ok stack clientID
              then Continue (MkPublisher (viewers p)
                                         (calls p ++ [CallSendOffer clientID]))
              else Continue (removeViewer p clientID)
            else Continue p
        end
      else if String.eqb msgType "answer" then
        match routeID msg with
        | None => Continue p
        | Some clientID =>
            match viewers p !! clientID with
            | None => Continue p
            | Some pc =>
                match asObject (msg !! "answer") with
                | None => TypeAssertionPanic
                | Some answerSDP =>
                    match asString (answerSDP !! "sdp") with
                    | None => Continue p
                    | Some sdpStr =>
                        let '(pc', ok) := SetRemoteDescription stack pc sdpStr in
                        Continue
                          (MkPublisher
                             (<[clientID := pc']> (viewers p))
                             (calls p ++
                                [CallSetRemoteDescription clientID sdpStr ok]))
                    end
                end
            end
        end
      else if String.eqb msgType "candidate" then
        match routeID msg with
        | None => Continue p
        | Some clientID =>
            match viewers p !! clientID with
            | None => Continue p
            | Some pc =>
                match asObject (msg !! "candidate") with
                | None => TypeAssertionPanic
                | Some candidateMap =>
                    match asString (candidateMap !! "candidate") with
                    | None => TypeAssertionPanic
                    | Some c =>
                        let candidate :=
                          MkCandidate c
                            (toUint16 <$> asNumber (candidateMap !! "sdpMLineIndex"))
                            (asString (candidateMap !! "sdpMid")) in
                        let '(pc', ok) := AddICECandidate pc candidate in
                        Continue
                          (MkPublisher
                             (<[clientID := pc']> (viewers p))
                             (calls p ++
                                [CallAddICECandidate clientID candidate
                                   (bool_decide (is_Some (remoteDescription pc)))
                                   ok]))
                    end
                end
            end
        end
      else Continue p
  end.

(** The loop over the messages read from the socket; [None] when a type
    assertion panics. *)
Fixpoint readMessages (stack : Stack) (p : Publisher)
  (messages : list Inbound) : option Publisher :=
  match messages with
  | [] => Some p
  | message :: rest =>
      match readMessages_message stack p message with
      | Continue p' => readMessages stack p' rest
      | TypeAssertionPanic => None
      end
  end.

(** The candidates of [clientID] that the loop handed to
    [AddICECandidate] while the remote description was still nil. *)
Definition earlyCandidates (clientID : string) (cs : list Call)
  : list ICECandidateInit :=
  omap (fun c =>
          match c with
          | CallAddICECandidate id candidate false _ =>
              if String.eqb id clientID then Some candidate else None
          | _ => None
          end) cs.

End Publisher.

(** * The reader side of the frame channel *)

Module Reader.
Import Video.

(** A Go [[]byte] value that may be [nil]. *)
Definition GoBytes := option (list byte).

(** [v, ok := <-ch]: the channel was closed and drained ([ok] false), or a
    value was received. *)
Inductive Recv (A : Type) :=
| RecvClosed
| RecvValue (v : A).
Arguments RecvClosed {A}.
Arguments RecvValue {A}.

(** The case taken by each of the three [select] statements of
    [ReadFrame].  Which case fires depends on the two channels and on the
    goroutines that feed them; a run of [ReadFrame] is followed for every
    choice.  An error value is its message, [None] for a nil error. *)
Inductive Select3 :=
| S3Frame (rv : Recv GoBytes)
| S3Err (rv : Recv (option string))
| S3Default.

Inductive Select2 :=
| S2Frame (rv : Recv GoBytes)
| S2Err (rv : Recv (option string))
| S2Default (isClosed : bool) (s3 : Select3).   (* [isClosed]: r.closed, read again *)

Inductive Select1 :=
| S1Frame (rv : Recv GoBytes)
| S1Err (rv : Recv (option string))
| S1Timeout (s2 : Select2).

(** One call of [ReadFrame]: [r.closed] was set, or the first [select] ran. *)
Inductive Attempt :=
| SourceClosed
| Selected (s1 : Select1).

(** The package-level variables used by the reader. *)
Record Globals := MkGlobals {
  frameReadCount : Z;        (* int64 *)
  firstFrameSent : bool }.

Inductive Result :=
| Ok (frame : list byte)     (* frame, nil *)
| Err (msg : string)         (* nil, err *)
| Blocked.                   (* the call has not returned yet *)

(** The SPS/PPS probe of [processFrame]:
    [for i := 0; i < checkLen-4; i++] with [n] iterations left. *)
Fixpoint hasSpsPps_loop (frame : list byte) (i n : nat) : bool :=
  match n with
  | O => false
  | S n' =>
      if sc4At frame i then
        if (i + 4 <? length frame)%nat
           && ((nalTypeBits (at_ frame (i + 4)) =? 7)%N
               || (nalTypeBits (at_ frame (i + 4)) =? 8)%N)
        then true else hasSpsPps_loop frame (S i) n'
      else if sc3At frame i then
        if (i + 3 <? length frame)%nat
           && ((nalTypeBits (at_ frame (i + 3)) =? 7)%N
               || (nalTypeBits (at_ frame (i + 3)) =? 8)%N)
        then true else hasSpsPps_loop frame (S i) n'
      else hasSpsPps_loop frame (S i) n'
  end.

Definition hasSpsPps (frame : list byte) : bool :=
  let checkLen := if (500 <? length frame)%nat then 500%nat else length frame in
  hasSpsPps_loop frame 0 (checkLen - 4).

(** What [processFrame] does with a received frame: it returns, or it
    calls [ReadFrame] again ([Retry]). *)
Inductive Processed :=
| Return (g : Globals) (res : Result)
| Retry (g : Globals).

Definition processFrame (g : Globals) (frame : GoBytes) : Processed :=
  let g := MkGlobals (incr (frameReadCount g)) (firstFrameSent g) in
  match frame with
  | None => Return g (Err "frame channel closed")
  | Some frame =>
      if (length frame =? 0)%nat then Retry g
      else
        let gate :=
          if negb (firstFrameSent g) && (8 <=? length frame)%nat then
            if negb (hasSpsPps frame) && (frameReadCount g <=? 5)
            then None                                  (* return r.ReadFrame() *)
            else Some (MkGlobals (frameReadCount g) true)
          else Some g in
        match gate with
        | None => Retry g
        | Some g =>
            if (length frame <? 8)%nat then Retry g
            else Return g (Ok frame)
        end
  end.

(** The body shared by the frame cases and by the error cases of the
    three [select] statements. *)
Definition frameCase (g : Globals) (rv : Recv GoBytes) : Processed :=
  match rv with
  | RecvClosed =>
      Return g (Err "frame channel closed - FFmpeg may have failed or exited")
  | RecvValue frame => processFrame g frame
  end.

Definition errCase (g : Globals) (rv : Recv (option string)) : Processed :=
  match rv with
  | RecvClosed =>
      Return g (Err "error channel closed - FFmpeg may have failed or exited")
  | RecvValue (Some err) => Return g (Err err)
  | RecvValue None => Return g (Err "unexpected nil error from error channel")
  end.

Definition select3 (g : Globals) (s3 : Select3) : Processed :=
  match s3 with
  | S3Frame rv => frameCase g rv
  | S3Err rv => errCase g rv
  | S3Default =>
      Return g (Err "no frame available - FFmpeg may still be initializing or stream may be unavailable")
  end.

Definition select2 (g : Globals) (s2 : Select2) : Processed :=
  match s2 with
  | S2Frame rv => frameCase g rv
  | S2Err rv => errCase g rv
  | S2Default isClosed s3 =>
      if isClosed then Return g (Err "RTSP source is closed")
      else select3 g s3
  end.

Definition select1 (g : Globals) (s1 : Select1) : Processed :=
  match s1 with
  | S1Frame rv => frameCase g rv
  | S1Err rv => errCase g rv
  | S1Timeout s2 => select2 g s2
  end.

(** [ReadFrame]; each call, the first one and those made by
    [processFrame], takes the next attempt. *)
Fixpoint ReadFrame (g : Globals) (attempts : list Attempt) : Globals * Result :=
  match attempts with
  | [] => (g, Blocked)
  | SourceClosed :: _ => (g, Err "RTSP source is closed")
  | Selected s1 :: rest =>
      match select1 g s1 with
      | Return g' res => (g', res)
      | Retry g' => ReadFrame g' rest
      end
  end.

(** The frame values received in the frame cases of an attempt. *)
Definition receivedFrame (a : Attempt) : option (list byte) :=
  match a with
  | Selected (S1Frame (RecvValue (Some f)))
  | Selected (S1Timeout (S2Frame (RecvValue (Some f))))
  | Selected (S1Timeout (S2Default _ (S3Frame (RecvValue (Some f))))) => Some f
  | _ => None
  end.

(** The error values received in the error cases of an attempt. *)
Definition receivedError (a : Attempt) : option string :=
  match a with
  | Selected (S1Err (RecvValue (Some e)))
  | Selected (S1Timeout (S2Err (RecvValue (Some e))))
  | Selected (S1Timeout (S2Default _ (S3Err (RecvValue (Some e))))) => Some e
  | _ => None
  end.

(** The frames a reader is fed, one per call, by the first [select]. *)
Definition framesReceived (frames : list (list byte)) : list Attempt :=
  map (fun f => Selected (S1Frame (RecvValue (Some f)))) frames.

End Reader.

(** * Go's [strings] and [strconv] functions used by the program

    Go strings are byte strings.  White space is [unicode.IsSpace]: the six
    ASCII characters and the runes U+0085, U+00A0, U+1680, U+2000..U+200A,
    U+2028, U+2029, U+202F, U+205F and U+3000 in their UTF-8 encoding.  No
    encoding of such a rune occurs inside the encoding of another rune, so
    the functions below look for these byte sequences directly. *)

Module GoStrings.
Import Video.

Definition code (c : ascii) : nat := nat_of_ascii c.

(** ['\t', '\n', '\v', '\f', '\r', ' '] *)
Definition isAsciiSpace (c : ascii) : bool :=
  ((9 <=? code c) && (code c <=? 13))%nat || (code c =? 32)%nat.

(** U+0085 and U+00A0: [C2 85], [C2 A0]. *)
Definition isSpaceRune2 (c0 c1 : ascii) : bool :=
  (code c0 =? 194)%nat && ((code c1 =? 133)%nat || (code c1 =? 160)%nat).

(** U+1680: [E1 9A 80]; U+2000..U+200A, U+2028, U+2029, U+202F:
    [E2 80 80..8A], [E2 80 A8], [E2 80 A9], [E2 80 AF]; U+205F: [E2 81 9F];
    U+3000: [E3 80 80]. *)
Definition isSpaceRune3 (c0 c1 c2 : ascii) : bool :=
  ((code c0 =? 225)%nat && (code c1 =? 154)%nat && (code c2 =? 128)%nat)
  || ((code c0 =? 226)%nat && (code c1 =? 128)%nat
      && (((128 <=? code c2) && (code c2 <=? 138))%nat
          || (code c2 =? 168)%nat || (code c2 =? 169)%nat || (code c2 =? 175)%nat))
  || ((code c0 =? 226)%nat && (code c1 =? 129)%nat && (code c2 =? 159)%nat)
  || ((code c0 =? 227)%nat && (code c1 =? 128)%nat && (code c2 =? 128)%nat).

(** The number of bytes of the white-space rune at the head of [s]; 0 when
    [s] does not begin with white space. *)
Definition spaceLen (s : string) : nat :=
  match s with
  | EmptyString => 0
  | String c0 rest =>
      if isAsciiSpace c0 then 1
      else match rest with
           | String c1 rest' =>
               if isSpaceRune2 c0 c1 then 2
               else match rest' with
                    | String c2 _ => if isSpaceRune3 c0 c1 c2 then 3 else 0
                    | EmptyString => 0
                    end
           | EmptyString => 0
           end
  end%nat.

(** The same for the last rune of a string, read on the reversed string. *)
Definition spaceLenRev (r : string) : nat :=
  match r with
  | EmptyString => 0
  | String c0 rest =>
      if isAsciiSpace c0 then 1
      else match rest with
           | String c1 rest' =>
               if isSpaceRune2 c1 c0 then 2
               else match rest' with
                    | String c2 _ => if isSpaceRune3 c2 c1 c0 then 3 else 0
                    | EmptyString => 0
                    end
           | EmptyString => 0
           end
  end%nat.

(** Strip white-space runes from the head; [skip] bytes of the rune being
    removed are still to be dropped. *)
Fixpoint trimLeft (spaceAt : string -> nat) (s : string) (skip : nat) : string :=
  match s with
  | EmptyString => EmptyString
  | String c s' =>
      match skip with
      | S k => trimLeft spaceAt s' k
      | O =>
          match spaceAt s with
          | O => s
          | S k => trimLeft spaceAt s' k
          end
      end
  end.

(** [strings.TrimSpace] *)
Definition TrimSpace (s : string) : string :=
  String.rev (trimLeft spaceLenRev (String.rev (trimLeft spaceLen s 0)) 0).

Definition flush (cur : string) : list string :=
  match cur with EmptyString => [] | _ => [cur] end.

(** [strings.Fields]: the maximal runs of bytes between white-space runes. *)
Fixpoint Fields_go (s : string) (skip : nat) (cur : string) : list string :=
  match s with
  | EmptyString => flush cur
  | String c s' =>
      match skip with
      | S k => Fields_go s' k cur
      | O =>
          match spaceLen s with
          | O => Fields_go s' 0 (String.append cur (String c EmptyString))
          | S k => flush cur ++ Fields_go s' k EmptyString
          end
      end
  end.

Definition Fields (s : string) : list string := Fields_go s 0 EmptyString.

(** [strings.Split] for a separator that is not empty: cut at each
    occurrence, from left to right, occurrences not overlapping. *)
Fixpoint genSplit (s sep : string) (skip : nat) (cur : string) : list string :=
  match s with
  | EmptyString => [cur]
  | String c s' =>
      match skip with
      | S k => genSplit s' sep k cur
      | O =>
          if HasPrefix s sep
          then cur :: genSplit s' sep (String.length sep - 1) EmptyString
          else genSplit s' sep 0 (String.append cur (String c EmptyString))
      end
  end.

(** [strings.Join] *)
Fixpoint Join (elems : list string) (sep : string) : string :=
  match elems with
  | [] => EmptyString
  | [x] => x
  | x :: rest => String.append x (String.append sep (Join rest sep))
  end.

(** [strings.TrimSuffix] *)
Fixpoint TrimSuffix (s suffix : string) : string :=
  if String.eqb s suffix then EmptyString
  else match s with
       | EmptyString => EmptyString
       | String c s' => String c (TrimSuffix s' suffix)
       end.

(** [strconv.Atoi]: an optional sign and at least one decimal digit, the
    value inside the range of a 64-bit [int]; [None] is an error. *)
Definition digitOf (c : ascii) : option Z :=
  if ((48 <=? code c) && (code c <=? 57))%nat
  then Some (Z.of_nat (code c) - 48) else None.

Fixpoint parseDigits (s : string) (acc : Z) : option Z :=
  match s with
  | EmptyString => Some acc
  | String c s' =>
      match digitOf c with
      | Some d => parseDigits s' (10 * acc + d)
      | None => None
      end
  end.

Definition Atoi (s : string) : option Z :=
  let '(neg, digits) :=
    match s with
    | String "-" s' => (true, s')
    | String "+" s' => (false, s')
    | _ => (false, s)
    end in
  match digits with
  | EmptyString => None
  | _ =>
      match parseDigits digits 0 with
      | Some n =>
          let v := if neg : bool then - n else n in
          if (- 2 ^ 63 <=? v) && (v <? 2 ^ 63) then Some v else None
      | None => None
      end
  end.

(** [strconv.Itoa]: the decimal text of an integer. *)
Definition Itoa (n : Z) : string := NilZero.string_of_int (Z.to_int n).

(** The value of a decimal numeral read after the digits [acc]. *)
Fixpoint decimalValue (d : Decimal.uint) (acc : Z) : Z :=
  match d with
  | Decimal.Nil => acc
  | Decimal.D0 d => decimalValue d (10 * acc + 0)
  | Decimal.D1 d => decimalValue d (10 * acc + 1)
  | Decimal.D2 d => decimalValue d (10 * acc + 2)
  | Decimal.D3 d => decimalValue d (10 * acc + 3)
  | Decimal.D4 d => decimalValue d (10 * acc + 4)
  | Decimal.D5 d => decimalValue d (10 * acc + 5)
  | Decimal.D6 d => decimalValue d (10 * acc + 6)
  | Decimal.D7 d => decimalValue d (10 * acc + 7)
  | Decimal.D8 d => decimalValue d (10 * acc + 8)
  | Decimal.D9 d => decimalValue d (10 * acc + 9)
  end.

(** Leading or trailing white space. *)
Definition startsWithSpace (s : string) : bool := negb (spaceLen s =? 0)%nat.
Definition endsWithSpace (s : string) : bool :=
  negb (spaceLenRev (String.rev s) =? 0)%nat.

End GoStrings.

(** * internal/config *)

Module Config.
Import GoStrings.

Section WithExplode.

(** [strings.Split] with an empty separator cuts the string after each
    UTF-8 sequence; that library routine is a parameter here. *)
Variable explode : string -> list string.

(** [strings.Split] *)
Definition Split (s sep : string) : list string :=
  match sep with
  | EmptyString => explode s
  | _ => genSplit s sep 0 EmptyString
  end.

(** [parseStringSlice] *)
Definition parseStringSlice (value separator : string) : list string :=
  if String.eqb value EmptyString then []
  else
    let parts := Split value separator in
    fold_left
      (fun result part =>
         let trimmed := TrimSpace part in
         if negb (String.eqb trimmed EmptyString)
         then result ++ [trimmed] else result)
      parts [].

End WithExplode.

(** An entry that survives a round trip through a comma-separated
    variable: not empty, already trimmed, and free of commas. *)
Definition plainEntry (x : string) : Prop :=
  x <> EmptyString /\ TrimSpace x = x /\ Video.Contains x "," = false.

(** [os.Getenv]: the empty string for a variable that is not set.  [env]
    is the process environment after [godotenv.Load] has added the
    variables of the [.env] file that were not set. *)
Definition Getenv (env : gmap string string) (key : string) : string :=
  default EmptyString (env !! key).

(** [getEnv] *)
Definition getEnv (env : gmap string string) (key defaultValue : string) : string :=
  let value := Getenv env key in
  if negb (String.eqb value EmptyString) then value else defaultValue.

(** [getEnvAsInt] *)
Definition getEnvAsInt (env : gmap string string) (key : string) (defaultValue : Z) : Z :=
  let valueStr := Getenv env key in
  if String.eqb valueStr EmptyString then defaultValue
  else match Atoi valueStr with
       | Some value => value
       | None => defaultValue
       end.

Record SignalingServerConfig := MkSignalingServerConfig {
  Host : string;
  Port : Z }.

(** [PublisherServerConfig], fields [Host] and [Port]. *)
Record PublisherServerConfig := MkPublisherServerConfig {
  PublisherHost : string;
  PublisherPort : Z }.

Record WebRTCConfig := MkWebRTCConfig {
  ICEServerURLs : list string;
  ICEServerUsername : string;
  ICEServerCredential : string }.

Record VideoConfig := MkVideoConfig {
  DeviceIndex : Z;
  Width : Z;
  Height : Z;
  FPS : Z;
  RTSPURL : string }.

Record CORSConfig := MkCORSConfig {
  AllowedOrigins : list string }.

Record StaticFilesConfig := MkStaticFilesConfig {
  Path : string }.

Record Config := MkConfig {
  SignalingServer : SignalingServerConfig;
  PublisherServer : PublisherServerConfig;
  WebRTC : WebRTCConfig;
  Video : VideoConfig;
  CORS : CORSConfig;
  StaticFiles : StaticFilesConfig }.

(** [LoadConfig]; it always returns [nil], the result is [AppConfig]. *)
Definition LoadConfig (explode : string -> list string) (env : gmap string string) : Config :=
  {| SignalingServer :=
       {| Host := getEnv env "SIGNALING_SERVER_HOST" "localhost";
          Port := getEnvAsInt env "SIGNALING_SERVER_PORT" 8080 |};
     PublisherServer :=
       {| PublisherHost := getEnv env "PUBLISHER_SERVER_HOST" "localhost";
          PublisherPort := getEnvAsInt env "PUBLISHER_SERVER_PORT" 8081 |};
     WebRTC :=
       {| ICEServerURLs :=
            parseStringSlice explode
              (getEnv env "ICE_SERVER_URLS" "stun:stun.l.google.com:19302") ",";
          ICEServerUsername := getEnv env "ICE_SERVER_USERNAME" "";
          ICEServerCredential := getEnv env "ICE_SERVER_CREDENTIAL" "" |};
     Video :=
       {| DeviceIndex := getEnvAsInt env "VIDEO_DEVICE_INDEX" 0;
          Width := getEnvAsInt env "VIDEO_WIDTH" 1280;
          Height := getEnvAsInt env "VIDEO_HEIGHT" 720;
          FPS := getEnvAsInt env "VIDEO_FPS" 30;
          RTSPURL := getEnv env "RTSP_URL" "" |};
     CORS :=
       {| AllowedOrigins :=
            parseStringSlice explode
              (getEnv env "ALLOWED_ORIGINS"
                 "http://localhost:5173,http://localhost:3000") "," |};
     StaticFiles :=
       {| Path := getEnv env "STATIC_FILES_PATH" "../frontend/dist" |} |}.

End Config.

(** * The transcoder: encoder choice and the goroutines of [Start] *)

Module Transcoder.
Import Video GoStrings.

(** What [detectBestEncoder] learns from the host. *)
Record Host := MkHost {
  lookPath : string -> bool;          (* exec.LookPath(name) succeeds *)
  GOOS : string;                      (* runtime.GOOS *)
  encoders : option string;           (* output of [ffmpeg -hide_banner -encoders] *)
  stat : string -> bool;              (* os.Stat(path) succeeds *)
  vaapiTest : bool }.                 (* the VAAPI test encode exits with 0 *)

(** [hasEncoder] *)
Definition hasEncoder (h : Host) (encoderName : string) : bool :=
  match encoders h with
  | None => false
  | Some output => Contains output encoderName
  end.

(** [hasVAAPIDevice] *)
Definition hasVAAPIDevice (h : Host) : bool :=
  let devices := ["/dev/dri/renderD128"; "/dev/dri/renderD129";
                  "/dev/dri/renderD130"]%string in
  let hasDevice := existsb (stat h) devices in
  if negb hasDevice then false
  else if negb (vaapiTest h) then false
  else true.

Definition getVideoToolboxParams : list string :=
  ["-allow_sw"; "1"; "-realtime"; "1"; "-b:v"; "2M"; "-prio_speed"; "1"]%string.

Definition getNVENCParams : list string :=
  ["-preset"; "p1"; "-rc"; "vbr"; "-tune"; "ll"; "-zerolatency"; "1";
   "-gpu"; "0"; "-delay"; "0"; "-no-scenecut"; "1"; "-rc-lookahead"; "0";
   "-surfaces"; "1"; "-cbr"; "0"]%string.

Definition getVAAPIParams : list string :=
  ["-vaapi_device"; "/dev/dri/renderD128"; "-b:v"; "2M"; "-maxrate"; "2M";
   "-bufsize"; "2M"; "-rc_mode"; "VBR"; "-low_power"; "1"]%string.

Definition getAMFParams : list string :=
  ["-quality"; "speed"; "-rc"; "vbr_peak"; "-usage"; "ultralowlatency"]%string.

Definition getQSVParams : list string :=
  ["-preset"; "veryfast"; "-async_depth"; "1"; "-ref"; "1"]%string.

Definition getSoftwareEncoderParams : list string :=
  ["-preset"; "ultrafast"; "-tune"; "zerolatency"; "-x264-params";
   "keyint=10:scenecut=0:force-cfr=1:sync-lookahead=0:sliced-threads=1:threads=auto"]%string.

(** [detectBestEncoder] *)
Definition detectBestEncoder (h : Host) : string * list string :=
  let software := ("libx264"%string, getSoftwareEncoderParams) in
  if negb (lookPath h "ffmpeg") then software
  else
    let osType := GOOS h in
    if String.eqb osType "darwin" then
      if hasEncoder h "h264_videotoolbox"
      then ("h264_videotoolbox"%string, getVideoToolboxParams)
      else software
    else if String.eqb osType "linux" then
      if hasEncoder h "h264_vaapi" && hasVAAPIDevice h
      then ("h264_vaapi"%string, getVAAPIParams)
      else if hasEncoder h "h264_nvenc"
      then ("h264_nvenc"%string, getNVENCParams)
      else software
    else if String.eqb osType "windows" then
      if hasEncoder h "h264_nvenc"
      then ("h264_nvenc"%string, getNVENCParams)
      else if hasEncoder h "h264_amf"
      then ("h264_amf"%string, getAMFParams)
      else if hasEncoder h "h264_qsv"
      then ("h264_qsv"%string, getQSVParams)
      else software
    else software.

(** The parameters that go with an encoder name. *)
Definition paramsOf (encoder : string) : list string :=
  if String.eqb encoder "h264_videotoolbox" then getVideoToolboxParams
  else if String.eqb encoder "h264_vaapi" then getVAAPIParams
  else if String.eqb encoder "h264_nvenc" then getNVENCParams
  else if String.eqb encoder "h264_amf" then getAMFParams
  else if String.eqb encoder "h264_qsv" then getQSVParams
  else getSoftwareEncoderParams.

(** ** The stderr goroutine: frame rate *)

(** [for i, part := range parts]: [prev] is [parts[i-1]], absent for
    [i = 0]; a frame rate that parses and is positive ends the loop. *)
Fixpoint scanParts (prev : option string) (parts : list string) (frameRate : Z) : Z :=
  match parts with
  | [] => frameRate
  | part :: rest =>
      let found :=
        match prev with
        | Some p =>
            if String.eqb part "fps" || String.eqb part "tbr" then
              match Atoi (TrimSuffix p ",") with
              | Some fps => if 0 <? fps then Some fps else None
              | None => None
              end
            else None
        | None => None
        end in
      match found with
      | Some fps => fps                           (* r.frameRate = fps; break *)
      | None => scanParts (Some part) rest frameRate
      end
  end.

(** The frame-rate part of the handling of one stderr line: the new value
    of [r.frameRate]. *)
Definition frameRateFromLine (frameRate : Z) (line : string) : Z :=
  if (0 <? String.length line)%nat then
    if Contains line " fps" || Contains line " tbr"
    then scanParts None (Fields line) frameRate
    else frameRate
  else frameRate.

(** ** The goroutine that waits for the process *)

Definition set_errChan (r : RTSPVideoSource) (v : Chan string) :=
  MkSource (rtspURL r) (cmd r) (stdout r) (frameChan r) v (closed r)
    (accessUnit r) (spsPps r) (spsPpsFound r) (currentFrame r) (frameRate r).

(** [storedError] after [cmd.Wait()] returned [waitErr]; [ffmpegError] is
    what the stderr goroutine had recorded. *)
Definition exitError (ffmpegError waitErr : option string) : string :=
  match waitErr with
  | Some err =>
      match ffmpegError with
      | Some e => e
      | None => String.append "FFmpeg process exited with error: " err
      end
  | None =>
      match ffmpegError with
      | Some e => e
      | None => "FFmpeg process exited unexpectedly"%string
      end
  end.

(** The rest of the goroutine: the error goes to [errChan] unless the
    source is closed (a send on a closed channel panics, and the panic is
    recovered), then stdout is closed. *)
Definition monitorExit (r : RTSPVideoSource) (ffmpegError waitErr : option string)
  : RTSPVideoSource :=
  let storedError := exitError ffmpegError waitErr in
  let r :=
    if closed r then r
    else if chanClosed (errChan r) then r
    else match trySend (errChan r) storedError with
         | Some ch => set_errChan r ch
         | None => r
         end in
  match stdout r with
  | Some _ => set_stdout r (Some PipeClosed)
  | None => r
  end.

End Transcoder.

(** * internal/ice *)

Module Ice.

Record ICEServer := MkICEServer {
  URLs : list string;
  Username : string;
  Credential : option string }.       (* [None] is the nil interface *)

Definition DefaultSTUNServers : list string :=
  ["stun:stun1.l.google.com:19302"; "stun:stun2.l.google.com:19302";
   "stun:stun3.l.google.com:19302"]%string.

(** The [iceServer] built for one configured URL: the credentials are
    added when a user name is configured. *)
Definition iceServerOf (cfg : Config.WebRTCConfig) (iceURL : string) : ICEServer :=
  if negb (String.eqb (Config.ICEServerUsername cfg) EmptyString)
  then MkICEServer [iceURL] (Config.ICEServerUsername cfg)
                   (Some (Config.ICEServerCredential cfg))
  else MkICEServer [iceURL] EmptyString None.

(** [GetWebRTCConfiguration]: the [ICEServers] of the configuration. *)
Definition GetWebRTCConfiguration (cfg : Config.WebRTCConfig) : list ICEServer :=
  let servers :=
    fold_left (fun servers iceURL => servers ++ [iceServerOf cfg iceURL])
              (Config.ICEServerURLs cfg) [] in
  if (length servers <=? 1)%nat then
    fold_left (fun servers stunURL => servers ++ [MkICEServer [stunURL] EmptyString None])
              DefaultSTUNServers servers
  else servers.

End Ice.

(** * internal/video: capture.go *)

Module Capture.
Import Video.

(** A 64-bit [int] operation wraps around. *)
Definition wrap64 (z : Z) : Z := (z + 2 ^ 63) mod 2 ^ 64 - 2 ^ 63.

(** [time.Second], in nanoseconds. *)
Definition Second : Z := 1000000000.

Record MockVideoSource := MkMock {
  width : Z;
  height : Z;
  fps : Z;
  frameCount : Z }.

Inductive VideoSource :=
| SourceRTSP (r : RTSPVideoSource)
| SourceMock (m : MockVideoSource).

(** [NewVideoSource] *)
Definition NewVideoSource (cfg : Config.VideoConfig) : VideoSource :=
  if negb (String.eqb (Config.RTSPURL cfg) EmptyString)
  then SourceRTSP (NewRTSPVideoSource (Config.RTSPURL cfg) (Config.FPS cfg))
  else SourceMock (MkMock (Config.Width cfg) (Config.Height cfg) (Config.FPS cfg) 0).

(** The colouring loop of the mock source,
    [for i := 0; i < len(frame); i += 3], with [fuel] turns left; [None] is
    the panic of an index out of range. *)
Fixpoint paint (frame : list byte) (i fuel : nat) (r g b : byte)
  : option (list byte) :=
  match fuel with
  | O => Some frame
  | S fuel' =>
      if (i <? length frame)%nat then
        if (i + 2 <? length frame)%nat then
          paint (<[(i + 2)%nat := b]> (<[(i + 1)%nat := g]> (<[i := r]> frame)))
                (i + 3) fuel' r g b
        else None
      else Some frame
  end.

(** [MockVideoSource.ReadFrame]; [None] is a panic ([make] with a negative
    length, or an index out of range). *)
Definition Mock_ReadFrame (m : MockVideoSource)
  : option (MockVideoSource * list byte) :=
  let frameSize := wrap64 (wrap64 (width m * height m) * 3) in
  if frameSize <? 0 then None
  else
    let frame := repeat x00 (Z.to_nat frameSize) in
    let m := MkMock (width m) (height m) (fps m) (wrap64 (frameCount m + 1)) in
    let painted :=
      if Z.rem (Z.quot (frameCount m) 30) 2 =? 0
      then paint frame 0 (length frame) xff x00 x00
      else paint frame 0 (length frame) x00 xff x00 in
    match painted with
    | Some frame => Some (m, frame)
    | None => None
    end.

(** [VideoCapturer]: the frame interval, a [time.Duration]. *)
Record VideoCapturer := MkCapturer {
  frameRate : Z }.

Inductive Created :=
| CreatedOk (vc : VideoCapturer)
| CreatedErr (err : string)
| CreatedPanic.                     (* integer divide by zero *)

(** [NewVideoCapturer]: [startErr] is what [source.Start()] returned and
    [sourceFPS] what [source.GetFrameRate()] returned after it. *)
Definition NewVideoCapturer (configFPS : Z) (startErr : option string)
  (sourceFPS : Z) : Created :=
  match startErr with
  | Some err => CreatedErr (String.append "failed to start video source: " err)
  | None =>
      let actualFPS := if sourceFPS <=? 0 then configFPS else sourceFPS in
      if actualFPS =? 0 then CreatedPanic
      else CreatedOk (MkCapturer (Z.quot Second actualFPS))
  end.

(** What [source.ReadFrame()] returned. *)
Inductive Read :=
| ReadOk (frameData : list byte)
| ReadErr (err : string).

Record Sample := MkSample {
  Data : list byte;
  Duration : Z }.

Inductive Captured :=
| CapturedSample (sample : Sample)
| CapturedErr (err : string).

(** The error of [CaptureFrame] for a failed read:
    [fmt.Errorf("failed to read frame from source: %w", err)]. *)
Definition captureError (err : string) : string :=
  String.append "failed to read frame from source: " err.

(** [CaptureFrame]: [sourceFPS] is what [GetFrameRate] returns after the
    read. *)
Definition CaptureFrame (vc : VideoCapturer) (read : Read) (sourceFPS : Z)
  : VideoCapturer * Captured :=
  match read with
  | ReadErr err =>
      (vc, CapturedErr (captureError err))
  | ReadOk frameData =>
      if (length frameData =? 0)%nat
      then (vc, CapturedErr "empty frame data received")
      else
        let actualFPS := sourceFPS in
        let vc := if 0 <? actualFPS
                  then MkCapturer (Z.quot Second actualFPS) else vc in
        (vc, CapturedSample (MkSample frameData (frameRate vc)))
  end.

(** The result of [ReadFrame] on the RTSP source, as [CaptureFrame] sees
    it once the call has returned. *)
Definition readOf (res : Reader.Result) : option Read :=
  match res with
  | Reader.Ok frame => Some (ReadOk frame)
  | Reader.Err msg => Some (ReadErr msg)
  | Reader.Blocked => None
  end.

End Capture.

(** * The publisher's streaming loop *)

Module Streaming.
Import Video Capture.

(** [isFatalError] of [StartStreaming], on [err.Error()]. *)
Definition isFatalError (errStr : string) : bool :=
  Contains errStr "FFmpeg process exited" ||
  Contains errStr "FFmpeg critical error" ||
  Contains errStr "FFmpeg stdout closed" ||
  Contains errStr "FFmpeg may have failed" ||
  (Contains errStr "channel closed" && negb (Contains errStr "no frame available")).

(** One tick of the ticker: the clock, what the source gave to
    [CaptureFrame], and whether [WriteSample] failed. *)
Record Tick := MkTick {
  clock : Z;                 (* time.Now(), nanoseconds *)
  resetClock : Z;            (* the later time.Now() of line 804 *)
  read : Read;
  sourceFPS : Z;
  writeFails : bool }.

Record Loop := MkLoop {
  capturer : VideoCapturer;
  loopFrameCount : Z;
  errorCount : Z;
  lastFrameTime : Z }.

Inductive Stop :=
| NoFramesAfterAttempts (err : string) (errorCount : Z)
| FatalAfterWaiting (err : string).

(** The error that a return of the loop wraps. *)
Definition stopError (why : Stop) : string :=
  match why with
  | NoFramesAfterAttempts err _ => err
  | FatalAfterWaiting err => err
  end.

Inductive Streamed :=
| Running (st : Loop)
| Returned (why : Stop)
| PanicDivideByZero
| PanicTicker.                (* non-positive interval for NewTicker *)

Definition maxFrameWait : Z := 15 * Second.

(** The body of [for range ticker.C]. *)
Definition tick (st : Loop) (t : Tick) : Loop + Stop :=
  let '(vc, captured) := CaptureFrame (capturer st) (read t) (sourceFPS t) in
  match captured with
  | CapturedErr errStr =>
      let errorCount := incr (errorCount st) in
      let isFatal := isFatalError errStr in
      if isFatal && (loopFrameCount st =? 0) && (60 <=? errorCount)
      then inr (NoFramesAfterAttempts errStr errorCount)
      else if (loopFrameCount st =? 0)
              && (maxFrameWait <? clock t - lastFrameTime st)
      then
        if isFatal then inr (FatalAfterWaiting errStr)
        else inl (MkLoop vc (loopFrameCount st) errorCount (resetClock t))
      else inl (MkLoop vc (loopFrameCount st) errorCount (lastFrameTime st))
  | CapturedSample sample =>
      let lastFrameTime :=
        if loopFrameCount st =? 0 then clock t else lastFrameTime st in
      if (length (Data sample) =? 0)%nat
      then inl (MkLoop vc (loopFrameCount st) (incr (errorCount st)) lastFrameTime)
      else if writeFails t
      then inl (MkLoop vc (loopFrameCount st) (incr (errorCount st)) lastFrameTime)
      else inl (MkLoop vc (incr (loopFrameCount st)) 0 lastFrameTime)
  end.

Fixpoint ticks (st : Loop) (ts : list Tick) : Streamed :=
  match ts with
  | [] => Running st
  | t :: rest =>
      match tick st t with
      | inl st' => ticks st' rest
      | inr why => Returned why
      end
  end.

(** [StartStreaming]: [vc] is the capturer made by [NewPublisher],
    [capturerFPS] what its [GetFrameRate] returns, [start] the clock when the
    loop is entered. *)
Definition StartStreaming (vc : VideoCapturer) (capturerFPS configFPS start : Z)
  (ts : list Tick) : Streamed :=
  let actualFPS := if capturerFPS <=? 0 then configFPS else capturerFPS in
  if actualFPS =? 0 then PanicDivideByZero
  else
    let frameRate := Z.quot Second actualFPS in
    if frameRate <=? 0 then PanicTicker
    else ticks (MkLoop vc 0 0 start) ts.

End Streaming.

(** * The origin check of the signaling server *)

Module Origin.
Import Video.

(** [upgrader.CheckOrigin]: [origin] is the request's [Origin] header, the
    empty string when there is none. *)
Definition CheckOrigin (allowedOrigins : list string) (origin : string) : bool :=
  if String.eqb origin EmptyString then true
  else if existsb (fun allowedOrigin => String.eqb origin allowedOrigin) allowedOrigins
  then true
  else if negb (String.eqb origin EmptyString) then
    if (Contains origin "localhost" || Contains origin "127.0.0.1")
       && (HasPrefix origin "http://" || HasPrefix origin "https://")
    then true else false
  else false.

End Origin.

(** * The publisher's viewer table under its lock *)

Module ViewerTable.

(** What [readMessages], the connection-state handlers and [Close] share:
    the table [p.viewers], by the peer connection each entry holds, and
    the peer connections that were created and not closed.  A peer
    connection is an object on the heap, known here by the order of its
    creation (a [nat]): closing it or setting its remote description does
    not touch the table. *)
Record Table := MkTable {
  viewers : gmap string nat;
  live : gset nat;
  made : nat }.                       (* peer connections created so far *)

Definition NewTable : Table := MkTable ∅ ∅ 0%nat.

(** [pc.Close()]; closing a closed connection changes nothing. *)
Definition closePC (t : Table) (pc : nat) : Table :=
  MkTable (viewers t) (live t ∖ {[pc]}) (made t).

(** [removeViewer], one critical section of [viewersMu]; the clean-up at
    the head of the [viewer_connected] case is the same code. *)
Definition removeViewer (t : Table) (clientID : string) : Table :=
  match viewers t !! clientID with
  | Some pc =>
      let t := closePC t pc in
      MkTable (delete clientID (viewers t)) (live t) (made t)
  | None => t
  end.

(** [Publisher.Close], the part on the table: every connection of the
    table is closed and the table replaced by an empty one. *)
Definition closeAll (t : Table) : Table :=
  MkTable ∅ (live t ∖ map_img (viewers t)) (made t).

(** What another goroutine does to the table while [readMessages] is
    between two critical sections.  [OnConnectionStateChange] is called on
    a goroutine of its own and calls [removeViewer(clientID)] for the state
    [Closed], and after a failed ICE restart; the ICE handler does so too:
    each is a [removeViewer] for the id the handler was made with, whatever
    connection the table holds for that id by then. *)
Inductive Action :=
| Removes (clientID : string)
| ClosesAll.

Definition act (t : Table) (a : Action) : Table :=
  match a with
  | Removes clientID => removeViewer t clientID
  | ClosesAll => closeAll t
  end.

Definition acts (t : Table) (l : list Action) : Table := fold_left act l t.

(** How [createViewerConnection] ends. *)
Inductive Created :=
| NewPeerConnectionFails
| AddTrackFails                       (* the new connection is closed again *)
| ConnectionMade.

Definition createViewerConnection (t : Table) (how : Created)
  : Table * option nat :=
  match how with
  | NewPeerConnectionFails => (t, None)
  | AddTrackFails =>
      let pc := made t in
      (closePC (MkTable (viewers t) ({[pc]} ∪ live t) (S (made t))) pc, None)
  | ConnectionMade =>
      let pc := made t in
      (MkTable (viewers t) ({[pc]} ∪ live t) (S (made t)), Some pc)
  end.

(** The actions of the other goroutines that fall between the critical
    sections of one [viewer_connected] message. *)
Record Gaps := MkGaps {
  afterCleanup : list Action;
  afterCreate : list Action;
  afterStore : list Action;
  afterOffer : list Action }.

Definition noGaps : Gaps := MkGaps [] [] [] [].

(** The [viewer_connected] case of [readMessages] for a message with a
    [clientId]: clean-up of an existing entry, [createViewerConnection],
    the store, [sendOffer] (which fails when the entry is gone, or when
    the stack or the socket refuses: [offerSent] false), and
    [removeViewer] after a failed offer. *)
Definition viewerConnected (t : Table) (clientID : string) (how : Created)
  (offerSent : bool) (g : Gaps) : Table :=
  let t := removeViewer t clientID in
  let t := acts t (afterCleanup g) in
  match createViewerConnection t how with
  | (t, None) => t
  | (t, Some pc) =>
      let t := acts t (afterCreate g) in
      let t := MkTable (<[clientID := pc]> (viewers t)) (live t) (made t) in
      let t := acts t (afterStore g) in
      let sent :=
        match viewers t !! clientID with
        | Some _ => offerSent
        | None => false
        end in
      if sent then t
      else removeViewer (acts t (afterOffer g)) clientID
  end.

(** A message that changes the table, or an action of another goroutine
    between two messages.  The [answer] and [candidate] cases only read the
    table. *)
Inductive Event :=
| ViewerConnected (clientID : string) (how : Created) (offerSent : bool)
                  (g : Gaps)
| Elsewhere (a : Action).

Definition step (t : Table) (ev : Event) : Table :=
  match ev with
  | ViewerConnected clientID how offerSent g =>
      viewerConnected t clientID how offerSent g
  | Elsewhere a => act t a
  end.

Definition run (t : Table) (evs : list Event) : Table := fold_left step evs t.

(** The table holds exactly the open connections, each under one id. *)
Definition accounted (t : Table) : Prop :=
  (forall pc, pc ∈ live t <-> exists clientID, viewers t !! clientID = Some pc) /\
  (forall id1 id2 pc,
     viewers t !! id1 = Some pc -> viewers t !! id2 = Some pc -> id1 = id2) /\
  (forall pc, pc ∈ live t -> (pc < made t)%nat).

(** The state between [createViewerConnection] and the store: the new
    connection is open and not yet in the table, which has no entry for
    the client. *)
Definition pending (t : Table) (clientID : string) (pc : nat) : Prop :=
  (forall q, q ∈ live t <->
             q = pc \/ exists id, viewers t !! id = Some q) /\
  (forall id, viewers t !! id <> Some pc) /\
  (forall id1 id2 q,
     viewers t !! id1 = Some q -> viewers t !! id2 = Some q -> id1 = id2) /\
  (forall q, q ∈ live t -> (q < made t)%nat) /\
  viewers t !! clientID = None.

End ViewerTable.

(** * Vocabulary of the further properties *)

Module AnnexB.
Import Video.

(** [j] is a place that [findStartCode3] accepts: a 3-byte start code at
    an index of at least 1 whose previous byte is not [00]. *)
Definition valid3 (buffer : list byte) (j : nat) : Prop :=
  (1 <= j)%nat /\ sc3At buffer j = true /\ is00 (at_ buffer (j - 1)) = false.

(** The header test of one turn of the parameter-set scan: the type of
    the unit whose start code begins at [i], when its header byte is inside
    the accumulator. *)
Definition headerTypeAt (au : list byte) (i : nat) : option N :=
  if sc4At au i then
    if (i + 4 <? length au)%nat then Some (nalTypeBits (at_ au (i + 4))) else None
  else if sc3At au i then
    if (i + 3 <? length au)%nat then Some (nalTypeBits (at_ au (i + 3))) else None
  else None.

(** The frame begins with a unit of type 5 or 1. *)
Definition pictureFirst (frame : list byte) : Prop :=
  (5 <= length frame)%nat /\ (nalTypeOf frame = 5%N \/ nalTypeOf frame = 1%N).

(** The frame that a finalisation sends ([frameToSend]). *)
Definition finalisedFrame (r : RTSPVideoSource) : list byte :=
  if (if (0 <? length (spsPps r))%nat then hasIDR_scan (currentFrame r) else false)
     && (0 <? length (spsPps r))%nat
  then spsPps r ++ currentFrame r
  else currentFrame r.

(** Every send of a finalised access unit among [ops] satisfies [P]. *)
Definition pushes (P : PushSite -> Emission -> Prop) (ops : list ChanOp) : Prop :=
  Forall (fun op => match op with Push site e => P site e | _ => True end) ops.

End AnnexB.


(* ===================================================================== *)
(** * Part II -- properties                                               *)
(* ===================================================================== *)

Section StartCodes.
Import Video.

Lemma is00_true b : is00 b = true <-> b = x00.
Proof.
  unfold is00; split; [apply Byte.byte_dec_bl | apply Byte.byte_dec_lb].
Qed.

Lemma is01_true b : is01 b = true <-> b = x01.
Proof.
  unfold is01; split; [apply Byte.byte_dec_bl | apply Byte.byte_dec_lb].
Qed.

Lemma is00_false b : is00 b = false <-> b <> x00.
Proof.
  rewrite <- is00_true. destruct (is00 b); split; congruence.
Qed.

Lemma at_cons x l i : at_ (x :: l) (S i) = at_ l i.
Proof. reflexivity. Qed.

Lemma at_nth_error buffer i :
  (i < length buffer)%nat -> nth_error buffer i = Some (at_ buffer i).
Proof.
  revert buffer; induction i as [|i IH]; intros [|x l] H; simpl in *; try lia.
  - reflexivity.
  - rewrite at_cons. apply IH. lia.
Qed.

Lemma at_skipn buffer i j : at_ (skipn i buffer) j = at_ buffer (i + j).
Proof.
  revert buffer; induction i as [|i IH]; intros [|x l]; simpl; try reflexivity.
  - unfold at_. destruct j; reflexivity.
  - rewrite at_cons. apply IH.
Qed.

(** Reading a window of the buffer through [at_] or as a slice is the
    same thing when the window is inside the buffer. *)
Lemma prefix3 (w : list byte) a b c :
  firstn 3 w = [a; b; c] <->
  (3 <= length w)%nat /\ at_ w 0 = a /\ at_ w 1 = b /\ at_ w 2 = c.
Proof.
  destruct w as [|x [|y [|z l]]]; simpl; unfold at_; simpl;
    (split; [intros E; try discriminate | intros (Hl & E); try lia]).
  - injection E as -> -> ->. repeat split; try reflexivity. lia.
  - destruct E as (-> & -> & ->). reflexivity.
Qed.

Lemma prefix4 (w : list byte) a b c d :
  firstn 4 w = [a; b; c; d] <->
  (4 <= length w)%nat /\ at_ w 0 = a /\ at_ w 1 = b /\ at_ w 2 = c /\ at_ w 3 = d.
Proof.
  destruct w as [|x [|y [|z [|u l]]]]; simpl; unfold at_; simpl;
    (split; [intros E; try discriminate | intros (Hl & E); try lia]).
  - injection E as -> -> -> ->. repeat split; try reflexivity. lia.
  - destruct E as (-> & -> & -> & ->). reflexivity.
Qed.

Lemma window3 buffer i a b c :
  firstn 3 (skipn i buffer) = [a; b; c] <->
  (i + 3 <= length buffer)%nat /\
  at_ buffer i = a /\ at_ buffer (i + 1) = b /\ at_ buffer (i + 2) = c.
Proof.
  rewrite prefix3, !at_skipn, length_skipn, Nat.add_0_r.
  intuition lia.
Qed.

Lemma window4 buffer i a b c d :
  firstn 4 (skipn i buffer) = [a; b; c; d] <->
  (i + 4 <= length buffer)%nat /\
  at_ buffer i = a /\ at_ buffer (i + 1) = b /\
  at_ buffer (i + 2) = c /\ at_ buffer (i + 3) = d.
Proof.
  rewrite prefix4, !at_skipn, length_skipn, Nat.add_0_r.
  intuition lia.
Qed.

Lemma sc3At_true buffer i :
  sc3At buffer i = true <->
  at_ buffer i = x00 /\ at_ buffer (i + 1) = x00 /\ at_ buffer (i + 2) = x01.
Proof.
  unfold sc3At. rewrite !andb_true_iff, !is00_true, is01_true. tauto.
Qed.

Lemma sc4At_true buffer i :
  sc4At buffer i = true <->
  at_ buffer i = x00 /\ at_ buffer (i + 1) = x00 /\
  at_ buffer (i + 2) = x00 /\ at_ buffer (i + 3) = x01.
Proof.
  unfold sc4At. rewrite !andb_true_iff, !is00_true, is01_true. tauto.
Qed.

(** *** The two loops *)

Lemma findStartCode4_loop_sound buffer n : forall i r,
  findStartCode4_loop buffer i n = r -> 0 <= r ->
  exists k, r = Z.of_nat k /\ (i <= k < i + n)%nat /\ sc4At buffer k = true.
Proof.
  induction n as [|n IH]; intros i r E Hr; simpl in E.
  - lia.
  - destruct (sc4At buffer i) eqn:S4.
    + exists i. repeat split; try lia; auto.
    + destruct (IH _ _ E Hr) as (k & -> & Hk & S). exists k.
      repeat split; try lia; auto.
Qed.

Lemma findStartCode4_loop_complete buffer n : forall i j,
  (i <= j < i + n)%nat -> sc4At buffer j = true ->
  exists k, findStartCode4_loop buffer i n = Z.of_nat k /\
            (i <= k <= j)%nat /\ sc4At buffer k = true.
Proof.
  induction n as [|n IH]; intros i j Hj Sj; simpl.
  - lia.
  - destruct (sc4At buffer i) eqn:S4.
    + exists i. repeat split; try lia; auto.
    + assert (i <> j) by congruence.
      destruct (IH (S i) j) as (k & E & Hk & Sk); try lia; auto.
      exists k. repeat split; try lia; auto.
Qed.

Lemma findStartCode3_loop_sound buffer n : forall i r,
  findStartCode3_loop buffer i n = r -> 0 <= r ->
  exists k, r = Z.of_nat k /\ (i <= k < i + n)%nat /\ sc3At buffer k = true /\
            ((0 <? k)%nat && is00 (at_ buffer (k - 1))) = false.
Proof.
  induction n as [|n IH]; intros i r E Hr; simpl in E.
  - lia.
  - destruct ((0 <? i)%nat && is00 (at_ buffer (i - 1))) eqn:G.
    + destruct (IH _ _ E Hr) as (k & -> & Hk & S). exists k.
      repeat split; try lia; tauto.
    + destruct (sc3At buffer i) eqn:S3.
      * exists i. repeat split; try lia; auto.
      * destruct (IH _ _ E Hr) as (k & -> & Hk & S). exists k.
        repeat split; try lia; tauto.
Qed.

Lemma findStartCode3_loop_range buffer n : forall i,
  (1 <= i)%nat ->
  findStartCode3_loop buffer i n = -1 \/ 1 <= findStartCode3_loop buffer i n.
Proof.
  induction n as [|n IH]; intros i Hi; simpl; auto.
  destruct ((0 <? i)%nat && is00 (at_ buffer (i - 1))).
  - apply IH; lia.
  - destruct (sc3At buffer i); [right; lia | apply IH; lia].
Qed.

Lemma findStartCode3_sound buffer (i : nat) :
  findStartCode3 buffer = Z.of_nat i ->
  (1 <= i)%nat /\ (i + 3 <= length buffer)%nat /\
  sc3At buffer i = true /\ is00 (at_ buffer (i - 1)) = false.
Proof.
  unfold findStartCode3. intros E.
  destruct (1 >? Z.of_nat (length buffer) - 3) eqn:G; [lia|].
  destruct (findStartCode3_loop_sound buffer _ _ _ E) as (k & Ek & Hk & S3 & P);
    [lia|].
  apply Nat2Z.inj in Ek; subst k.
  assert ((0 <? i)%nat = true) as Hpos by (apply Nat.ltb_lt; lia).
  rewrite Hpos in P. simpl in P.
  repeat split; auto; lia.
Qed.

Lemma findStartCode4_sound buffer (i : nat) :
  findStartCode4 buffer = Z.of_nat i ->
  (i + 4 <= length buffer)%nat /\ sc4At buffer i = true /\
  forall j, (j < i)%nat -> sc4At buffer j = false.
Proof.
  unfold findStartCode4. intros E.
  destruct (findStartCode4_loop_sound buffer _ _ _ E) as (k & Ek & Hk & S4);
    [lia|].
  apply Nat2Z.inj in Ek; subst k.
  repeat split; auto; try lia.
  intros j Hj. destruct (sc4At buffer j) eqn:Sj; auto.
  destruct (findStartCode4_loop_complete buffer (length buffer - 3) 0 j)
    as (k & Ek & Hk' & _); auto; lia.
Qed.

Lemma findStartCode4_complete buffer (j : nat) :
  (j + 4 <= length buffer)%nat -> sc4At buffer j = true ->
  exists k, findStartCode4 buffer = Z.of_nat k /\ (k <= j)%nat /\
            sc4At buffer k = true.
Proof.
  intros Hj Sj. unfold findStartCode4.
  destruct (findStartCode4_loop_complete buffer (length buffer - 3) 0 j)
    as (k & Ek & Hk & Sk); auto; try lia.
  exists k. repeat split; auto; lia.
Qed.

End StartCodes.

Section StderrClassification.
Import Video.

Lemma append_nil (b : string) : String.append EmptyString b = b.
Proof. reflexivity. Qed.

Lemma append_cons c (a b : string) :
  String.append (String c a) b = String c (String.append a b).
Proof. reflexivity. Qed.

Lemma append_assoc (a b c : string) :
  String.append (String.append a b) c = String.append a (String.append b c).
Proof.
  induction a as [|x a IH]; rewrite ?append_nil, ?append_cons;
    [reflexivity | rewrite IH; reflexivity].
Qed.

Lemma HasPrefix_app s p : HasPrefix s p = true <-> exists t, s = String.append p t.
Proof.
  revert s; induction p as [|c p IH]; intros s; simpl.
  - split; [intros _; exists s; reflexivity | reflexivity].
  - destruct s as [|d s]; simpl.
    + split; [discriminate | intros (t & E); discriminate].
    + rewrite andb_true_iff, IH. split.
      * intros (E & t & ->). apply Ascii.eqb_eq in E. subst. eauto.
      * intros (t & E). rewrite append_cons in E. injection E as -> ->.
        split; eauto. apply Ascii.eqb_eq. reflexivity.
Qed.

Lemma Contains_app s p :
  Contains s p = true <->
  exists a b, s = String.append a (String.append p b).
Proof.
  induction s as [|c s IH]; simpl.
  - rewrite orb_false_r, HasPrefix_app. split.
    + intros (t & E). exists EmptyString, t. exact E.
    + intros (a & b & E). destruct a; [eauto | discriminate].
  - rewrite orb_true_iff, IH, HasPrefix_app. split.
    + intros [(t & E) | (a & b & E)].
      * exists EmptyString, t. exact E.
      * exists (String c a), b. rewrite E. reflexivity.
    + intros (a & b & E). destruct a as [|d a].
      * left; eauto.
      * right. rewrite append_cons in E. injection E as -> ->. eauto.
Qed.

(** A line that contains a pattern contains every substring of it. *)
Lemma Contains_trans s p q :
  Contains p q = true -> Contains s p = true -> Contains s q = true.
Proof.
  rewrite !Contains_app. intros (a & b & ->) (a' & b' & ->).
  exists (String.append a' a), (String.append b b').
  rewrite !append_assoc. reflexivity.
Qed.

Lemma matchesCritical_patterns (l : string) :
  matchesCritical l =
  (Contains l "404 not found" ||
   Contains l "connection refused" ||
   Contains l "failed" ||
   Contains l "error opening input" ||
   (Contains l "vaapi" && Contains l "error")).
Proof.
  unfold matchesCritical, isHardwareEncoderError.
  assert (H1 : Contains l "device creation failed" = true ->
               Contains l "failed" = true)
    by (apply Contains_trans; reflexivity).
  assert (H2 : Contains l "failed to initialise" = true ->
               Contains l "failed" = true)
    by (apply Contains_trans; reflexivity).
  assert (H3 : Contains l "input/output error" = true ->
               Contains l "error" = true)
    by (apply Contains_trans; reflexivity).
  destruct (Contains l "404 not found"), (Contains l "connection refused"),
    (Contains l "failed"), (Contains l "error opening input"),
    (Contains l "vaapi"), (Contains l "error"),
    (Contains l "device creation failed"),
    (Contains l "failed to initialise"),
    (Contains l "input/output error"); simpl; auto;
    try (discriminate H1; reflexivity);
    try (discriminate H2; reflexivity);
    try (discriminate H3; reflexivity).
Qed.

(** C7 (as the code has it).  A stderr line is recorded as critical exactly
    when its lower-cased text contains [404 not found], [connection refused],
    [failed], [error opening input], or contains [vaapi] together with
    [error]; the other VAAPI keywords all contain [failed] or [error].  The
    first part is the test itself, on any lower-cased text; the second is
    the test on a line, whatever the Unicode tables of [strings.ToLower]
    are; the third says what the lower-cased text is: the ASCII lowering of
    a line of ASCII bytes, the library's mapping of any other line (so a
    line with U+0130, which the tables lower to [i], is critical when its
    mapped text reads [failed]). *)
Theorem isCriticalLine_patterns :
  (forall lowerLine : string,
      matchesCritical lowerLine =
      (Contains lowerLine "404 not found" ||
       Contains lowerLine "connection refused" ||
       Contains lowerLine "failed" ||
       Contains lowerLine "error opening input" ||
       (Contains lowerLine "vaapi" && Contains lowerLine "error"))) /\
  (forall (mapToLower : string -> string) (line : string),
      isCriticalLine mapToLower line =
      (Contains (ToLower mapToLower line) "404 not found" ||
       Contains (ToLower mapToLower line) "connection refused" ||
       Contains (ToLower mapToLower line) "failed" ||
       Contains (ToLower mapToLower line) "error opening input" ||
       (Contains (ToLower mapToLower line) "vaapi" &&
        Contains (ToLower mapToLower line) "error"))) /\
  (forall (mapToLower : string -> string) (line : string),
      ToLower mapToLower line =
      if isASCII line then lowerASCII line else mapToLower line) /\
  (forall mapToLower : string -> string,
      mapToLower dottedFailedLine = "failed to open rtsp://camera"%string ->
      isCriticalLine mapToLower dottedFailedLine = true).
Proof.
  split; [apply matchesCritical_patterns|].
  split.
  { intros mapToLower line. unfold isCriticalLine. cbv zeta.
    rewrite matchesCritical_patterns.
    destruct line as [|c line]; reflexivity. }
  split; [reflexivity|].
  intros mapToLower H. unfold isCriticalLine. cbv zeta.
  replace (ToLower mapToLower dottedFailedLine)
    with "failed to open rtsp://camera"%string
    by (unfold ToLower; rewrite <- H; reflexivity).
  reflexivity.
Qed.

(** C7 (as stated) fails: the line [404] matches the listed pattern [404]
    but is not recorded as critical, before or after other lines. *)
Lemma line_404_alone_not_fatal :
  (forall mapToLower, specFatal mapToLower "404" = true) /\
  (forall mapToLower, isCriticalLine mapToLower "404" = false) /\
  (forall mapToLower, stderrLine mapToLower None "404" = None) /\
  (forall mapToLower,
     ~ (forall line, isCriticalLine mapToLower line = true <->
                     specFatal mapToLower line = true)).
Proof.
  repeat split; try reflexivity.
  intros mapToLower H. specialize (H "404"%string).
  destruct H as [_ H]. discriminate (H eq_refl).
Qed.

End StderrClassification.

Section CloseAndChannel.
Import Video.

Lemma Close_closed r : closed r = true -> Close r = (r, None, []).
Proof. intros H. unfold Close. rewrite H. reflexivity. Qed.

Lemma Close_sets_closed r : closed (fst (fst (Close r))) = true.
Proof.
  unfold Close. destruct (closed r) eqn:C; [exact C|].
  destruct r as [u c o fc ec cl au sp sf cf fr]; simpl in *.
  destruct c as [[[p|]]|]; destruct o; reflexivity.
Qed.

Lemma CloseTimes_closed n : forall r,
  closed r = true -> CloseTimes n r = (r, repeat None n, []).
Proof.
  induction n as [|n IH]; intros r H; simpl.
  - reflexivity.
  - rewrite (Close_closed r H), (IH r H). reflexivity.
Qed.

(** C10. On a source that is not yet closed the first [Close] sets the
    closed flag, kills and reaps the child (when one was started), closes
    stdout (when the pipe exists) and returns nil; every later call returns
    nil, performs no effect and leaves the source as it is. *)
Theorem Close_idempotent (r : RTSPVideoSource) (n : nat) :
  closed r = false ->
  let r1 := fst (fst (Close r)) in
  let eff1 := snd (Close r) in
  closed r1 = true /\
  snd (fst (Close r)) = None /\
  eff1 =
    (match cmd r with
     | Some {| Process := Some _ |} => [KillProcess; WaitProcess]
     | _ => []
     end) ++
    (match stdout r with Some _ => [CloseStdout] | None => [] end) /\
  (forall p, cmd r = Some {| Process := Some p |} ->
             cmd r1 = Some {| Process := Some ProcReaped |}) /\
  (forall p, stdout r = Some p -> stdout r1 = Some PipeClosed) /\
  Close r1 = (r1, None, []) /\
  CloseTimes (S n) r = (r1, repeat None (S n), eff1).
Proof.
  intros H r1 eff1.
  assert (C1 : closed r1 = true) by apply Close_sets_closed.
  split; [exact C1|].
  assert (E : Close r = (r1, None, eff1) /\
              eff1 =
                (match cmd r with
                 | Some {| Process := Some _ |} => [KillProcess; WaitProcess]
                 | _ => []
                 end) ++
                (match stdout r with Some _ => [CloseStdout] | None => [] end) /\
              (forall p, cmd r = Some {| Process := Some p |} ->
                         cmd r1 = Some {| Process := Some ProcReaped |}) /\
              (forall p, stdout r = Some p -> stdout r1 = Some PipeClosed)).
  { subst r1 eff1. unfold Close. rewrite H.
    destruct r as [u c o fc ec cl au sp sf cf fr]; simpl in *.
    destruct c as [[[p|]]|]; destruct o; simpl;
      repeat split; intros; congruence. }
  destruct E as (E & Eeff & Ecmd & Eout).
  split; [rewrite E; reflexivity|].
  split; [exact Eeff|].
  split; [exact Ecmd|].
  split; [exact Eout|].
  split; [apply Close_closed, C1|].
  cbn [CloseTimes]. rewrite E, (CloseTimes_closed n r1 C1).
  rewrite app_nil_r. reflexivity.
Qed.

Lemma Close_idempotent_witness :
  let r := set_stdout
             (set_cmd (NewRTSPVideoSource "rtsp://camera/stream" 15)
                      (Some {| Process := Some ProcRunning |}))
             (Some PipeOpen) in
  closed r = false /\
  Close (fst (fst (Close r))) = (fst (fst (Close r)), None, []) /\
  CloseTimes 3 r =
    (fst (fst (Close r)), [None; None; None],
     [KillProcess; WaitProcess; CloseStdout]).
Proof.
  intros r.
  pose proof (Close_idempotent r 2 eq_refl) as (_ & _ & _ & _ & _ & H1 & H2).
  split; [reflexivity|]. split; [exact H1|]. exact H2.
Defined.

(** *** The frame channel *)










End CloseAndChannel.

Section ScanTermination.
Import Video.

Lemma sliceFrom_length buffer lo b' :
  sliceFrom buffer lo = Some b' ->
  b' = skipn lo buffer /\ (lo <= length buffer)%nat /\
  length b' = (length buffer - lo)%nat.
Proof.
  unfold sliceFrom. destruct (lo <=? length buffer)%nat eqn:L; intros E;
    inversion E; subst. apply Nat.leb_le in L.
  rewrite length_skipn. auto.
Qed.

Lemma truncateBuffer_length buffer :
  (length (truncateBuffer buffer) <= length buffer)%nat.
Proof.
  unfold truncateBuffer.
  destruct (512 * 1024 <? length buffer)%nat; [|lia].
  rewrite length_skipn. lia.
Qed.

(** Every iteration that goes round again has consumed at least one byte. *)
Lemma scanIteration_shrinks r buffer c r' b' c' ops :
  scanIteration r buffer c = ScanNext r' b' c' ops ->
  (length b' < length buffer)%nat.
Proof.
  unfold scanIteration.
  destruct (locateStartCode buffer) as [startCodeIdx startCodeLen].
  destruct (0 <=? startCodeIdx); [|destruct (firstIdrFlush r c) as [[? ?] ?];
                                    discriminate].
  set (s := Z.to_nat startCodeIdx).
  destruct (match findPrevStartCode buffer s with
            | Some (p, plen) => Some (p, s, plen, true)
            | None =>
                match findNextStartCode buffer (s + Z.to_nat startCodeLen) with
                | Some nx => Some (s, nx, Z.to_nat startCodeLen, false)
                | None => None
                end
            end) as [[[[nalStart nalEnd] plen] havePrev]|] eqn:B;
    [|discriminate].
  assert (HP : havePrev = true -> nalEnd = s).
  { intros ->. destruct (findPrevStartCode buffer s) as [[p q]|].
    - inversion B; reflexivity.
    - destruct (findNextStartCode buffer (s + Z.to_nat startCodeLen));
        inversion B. }
  destruct ((nalStart <? nalEnd)%nat && (plen <? nalEnd - nalStart)%nat) eqn:G.
  - apply andb_true_iff in G. destruct G as [G _]. apply Nat.ltb_lt in G.
    destruct (if (plen + 1 <? length (slice buffer nalStart nalEnd))%nat
              then processNAL r c (slice buffer nalStart nalEnd)
              else (r, c, [])) as [[r1 c1] ops1].
    destruct (sliceFrom buffer (if havePrev then s else nalEnd)) as [b1|] eqn:SL;
      [|discriminate].
    intros E; inversion E; subst.
    apply sliceFrom_length in SL. destruct SL as (_ & Hlo & L).
    pose proof (truncateBuffer_length b1).
    destruct havePrev; [rewrite <- (HP eq_refl) in *|]; lia.
  - destruct (sliceFrom buffer (s + 4)) as [b1|] eqn:SL; [|discriminate].
    intros E; inversion E; subst.
    apply sliceFrom_length in SL. destruct SL as (_ & Hlo & L).
    pose proof (truncateBuffer_length b1). lia.
Qed.

Lemma scanLoop_enough_fuel fuel : forall r buffer c,
  (length buffer < fuel)%nat -> scanLoop fuel r buffer c <> LoopOutOfFuel.
Proof.
  induction fuel as [|fuel IH]; intros r buffer c H; [lia|].
  simpl. destruct (scanIteration r buffer c) as [|r1 c1 ops|r1 b1 c1 ops] eqn:E;
    try discriminate.
  apply scanIteration_shrinks in E.
  specialize (IH r1 b1 c1 ltac:(lia)).
  destruct (scanLoop fuel r1 b1 c1); try discriminate. congruence.
Qed.

(** The inner loop always ends: by leaving the loop or by a panic. *)
Lemma scanBuffer_total r buffer c : scanBuffer r buffer c <> LoopOutOfFuel.
Proof. apply scanLoop_enough_fuel. lia. Qed.

Lemma readFrames_loop_total events : forall r buffer c ops,
  run_outcome (readFrames_loop events r buffer c ops) <> OutOfFuel.
Proof.
  induction events as [|ev events IH]; intros r buffer c ops; simpl.
  - discriminate.
  - destruct ev as [|chunk|err]; simpl; try discriminate.
    destruct (length chunk =? 0)%nat; [apply IH|].
    destruct (length (buffer ++ chunk) <? 20)%nat; [apply IH|].
    pose proof (scanBuffer_total r (buffer ++ chunk) c) as T.
    destruct (scanBuffer r (buffer ++ chunk) c); simpl;
      try discriminate; [apply IH | congruence].
Qed.

(** [readFrames] itself never stops for lack of fuel: a run ends by a
    return, by a panic, or waits for the next read. *)
Lemma readFrames_total r c events :
  run_outcome (readFrames r c events) <> OutOfFuel.
Proof. apply readFrames_loop_total. Qed.

End ScanTermination.

Section Broker.
Import Json Video Signaling.




Lemma broadcastExcept_lookup self msg (clients : gmap ptr Client) p :
  broadcastExcept self msg clients !! p =
  match clients !! p with
  | None => None
  | Some cl =>
      if decide (p = self) then Some cl
      else match trySend (send cl) msg with
           | Some ch => Some (MkClient (clientID cl) ch)
           | None => None
           end
  end.
Proof.
  unfold broadcastExcept. rewrite map_lookup_imap.
  destruct (clients !! p); reflexivity.
Qed.

Lemma closedExcept_lookup self msg (clients : gmap ptr Client) p :
  closedExcept self msg clients !! p =
  match clients !! p with
  | None => None
  | Some cl =>
      if decide (p = self) then None
      else match trySend (send cl) msg with
           | Some _ => None
           | None => Some (closeSend cl)
           end
  end.
Proof.
  unfold closedExcept. rewrite map_lookup_imap.
  destruct (clients !! p); reflexivity.
Qed.




(** C5, evaluated: the id is "client-" and the size of the table plus one,
    not a counter.  After client-1 and client-2 have joined and client-1
    has left, the next client is named client-2 as well. *)
Theorem client_ids_collide_after_disconnect :
  (forall clients : gmap ptr Client,
      clientID (HandleWebSocket clients) = clientIDOf (size clients + 1)) /\
  let s1 := connect ∅ 1%nat in
  let s2 := connect s1 2%nat in
  let s3 := Run_unregister s2 1%nat in
  let s4 := connect s3 3%nat in
  clientID <$> s2 !! 1%nat = Some "client-1"%string /\
  clientID <$> s4 !! 2%nat = Some "client-2"%string /\
  clientID <$> s4 !! 3%nat = Some "client-2"%string /\
  size s4 = 2%nat.
Proof.
  split; [reflexivity|]. vm_compute. repeat split; reflexivity.
Qed.

(** The id is also taken before the client is in the table: two upgrades
    that both read the table before either is registered get the same id. *)
Lemma client_ids_collide_on_concurrent_upgrade :
  let c1 := HandleWebSocket ∅ in
  let c2 := HandleWebSocket ∅ in
  let s := Run_register (Run_register ∅ 1%nat c1) 2%nat c2 in
  clientID <$> s !! 1%nat = Some "client-1"%string /\
  clientID <$> s !! 2%nat = Some "client-1"%string.
Proof. vm_compute. split; reflexivity. Qed.

End Broker.

Section PublisherCandidates.
Import Json Publisher.

(** C3, evaluated: a candidate that arrives before the answer is handed to
    [AddICECandidate] at once, while the remote description is nil; it is
    refused, it is kept nowhere, and the answer that follows does not bring
    it back. *)
Theorem early_candidate_is_applied_without_remote_description :
  let stack := MkStack (fun _ => true) (fun _ => true) (fun _ => true) in
  let sdp := "v=0 o=- 46117317 2 IN IP4 127.0.0.1 s=- t=0 0"%string in
  let line := "candidate:1 1 udp 2130706431 192.168.1.7 50000 typ host"%string in
  let viewerConnected : gmap string json :=
    <["type" := JString "viewer_connected"]>
      (<["clientId" := JString "client-2"]> ∅) in
  let candidate : gmap string json :=
    <["type" := JString "candidate"]>
      (<["clientId" := JString "client-2"]>
         (<["fromClientId" := JString "client-2"]>
            (<["candidate" :=
                 JObject (<["candidate" := JString line]>
                            (<["sdpMLineIndex" := JNumber 0]>
                               (<["sdpMid" := JString "0"]> ∅)))]> ∅))) in
  let answer : gmap string json :=
    <["type" := JString "answer"]>
      (<["clientId" := JString "client-2"]>
         (<["fromClientId" := JString "client-2"]>
            (<["answer" :=
                 JObject (<["type" := JString "answer"]>
                            (<["sdp" := JString sdp]> ∅))]> ∅))) in
  let c := MkCandidate line (Some 0) (Some "0"%string) in
  exists p,
    readMessages stack NewPublisher
      [JsonObject viewerConnected; JsonObject candidate; JsonObject answer]
      = Some p /\
    calls p =
      [CallNewPeerConnection "client-2"; CallSendOffer "client-2";
       CallAddICECandidate "client-2" c false false;
       CallSetRemoteDescription "client-2" sdp true] /\
    earlyCandidates "client-2" (calls p) = [c] /\
    viewers p !! "client-2"%string = Some (MkPC (Some sdp) []).
Proof.
  intros. eexists. split; [vm_compute; reflexivity|].
  vm_compute. repeat split; reflexivity.
Qed.

End PublisherCandidates.

Import Video.

(** Turn start-code facts into equations on single bytes, and bring the
    indices to the form [base + constant]. *)
Ltac bytes :=
  repeat match goal with
  | H : sc3At _ _ = true |- _ =>
      apply sc3At_true in H; destruct H as (? & ? & ?)
  | H : sc4At _ _ = true |- _ =>
      apply sc4At_true in H; destruct H as (? & ? & ? & ?)
  | H : is00 _ = true |- _ => apply is00_true in H
  | H : is01 _ = true |- _ => apply is01_true in H
  end.

Ltac norm_idx :=
  repeat rewrite <- Nat.add_assoc in *;
  cbn [Nat.add] in *;
  rewrite ?Nat.add_0_r in *.

Section Extraction.

(** *** Reading through [++] and slices *)

Lemma at_app_l (a b : list byte) i :
  (i < length a)%nat -> at_ (a ++ b) i = at_ a i.
Proof. intros H. unfold at_. apply app_nth1, H. Qed.

Lemma at_app_r (a b : list byte) i :
  (length a <= i)%nat -> at_ (a ++ b) i = at_ b (i - length a).
Proof. intros H. unfold at_. apply app_nth2. lia. Qed.

Lemma at_firstn (l : list byte) m i :
  (i < m)%nat -> at_ (firstn m l) i = at_ l i.
Proof.
  revert l i; induction m as [|m IH]; intros l i H; [lia|].
  destruct l as [|x l]; [reflexivity|].
  destruct i as [|i]; [reflexivity|].
  simpl. rewrite !at_cons. apply IH. lia.
Qed.

Lemma at_slice buffer lo hi i :
  (i < hi - lo)%nat -> at_ (slice buffer lo hi) i = at_ buffer (lo + i).
Proof.
  intros H. unfold slice. rewrite at_firstn by exact H. apply at_skipn.
Qed.

Lemma length_slice buffer lo hi :
  (hi <= length buffer)%nat -> length (slice buffer lo hi) = (hi - lo)%nat.
Proof.
  intros H. unfold slice. rewrite length_firstn, length_skipn. lia.
Qed.

Lemma sc3At_eq (a b : list byte) i j :
  at_ a i = at_ b j -> at_ a (i + 1) = at_ b (j + 1) ->
  at_ a (i + 2) = at_ b (j + 2) -> sc3At a i = sc3At b j.
Proof. unfold sc3At. intros -> -> ->. reflexivity. Qed.

Lemma sc4At_eq (a b : list byte) i j :
  at_ a i = at_ b j -> at_ a (i + 1) = at_ b (j + 1) ->
  at_ a (i + 2) = at_ b (j + 2) -> at_ a (i + 3) = at_ b (j + 3) ->
  sc4At a i = sc4At b j.
Proof. unfold sc4At. intros -> -> -> ->. reflexivity. Qed.

Lemma sc3At_slice buffer lo hi j :
  (j + 3 <= hi - lo)%nat -> sc3At (slice buffer lo hi) j = sc3At buffer (lo + j).
Proof.
  intros H. apply sc3At_eq; rewrite at_slice by lia; f_equal; lia.
Qed.

Lemma sc4At_slice buffer lo hi j :
  (j + 4 <= hi - lo)%nat -> sc4At (slice buffer lo hi) j = sc4At buffer (lo + j).
Proof.
  intros H. apply sc4At_eq; rewrite at_slice by lia; f_equal; lia.
Qed.

Lemma sc3At_app_l (a b : list byte) j :
  (j + 3 <= length a)%nat -> sc3At (a ++ b) j = sc3At a j.
Proof. intros H. apply sc3At_eq; apply at_app_l; lia. Qed.

Lemma sc4At_app_l (a b : list byte) j :
  (j + 4 <= length a)%nat -> sc4At (a ++ b) j = sc4At a j.
Proof. intros H. apply sc4At_eq; apply at_app_l; lia. Qed.

Lemma sc3At_app_r (a b : list byte) j :
  (length a <= j)%nat -> sc3At (a ++ b) j = sc3At b (j - length a).
Proof.
  intros H. apply sc3At_eq; rewrite at_app_r by lia; f_equal; lia.
Qed.

Lemma sc4At_app_r (a b : list byte) j :
  (length a <= j)%nat -> sc4At (a ++ b) j = sc4At b (j - length a).
Proof.
  intros H. apply sc4At_eq; rewrite at_app_r by lia; f_equal; lia.
Qed.

(** A 3-byte and a 4-byte code cannot begin at the same offset. *)
Lemma sc3At_sc4At_excl bs i :
  sc3At bs i = true -> sc4At bs i = true -> False.
Proof.
  rewrite sc3At_true, sc4At_true. intros (_ & _ & H3) (_ & _ & H4 & _).
  rewrite H3 in H4. discriminate.
Qed.

(** *** The backward search *)

Lemma findPrevStartCode_spec buffer n p plen :
  findPrevStartCode buffer n = Some (p, plen) ->
  ((plen = 3%nat /\ sc3At buffer p = true) \/
   (plen = 4%nat /\ sc4At buffer p = true)) /\
  (p + plen <= n)%nat /\
  forall q m,
    ((m = 3%nat /\ sc3At buffer q = true) \/
     (m = 4%nat /\ sc4At buffer q = true)) ->
    (q + m <= n)%nat -> (q + m <= p + plen)%nat.
Proof.
  induction n as [|i IH]; cbn [findPrevStartCode]; [discriminate|].
  destruct ((3 <=? i)%nat && is00 (at_ buffer (i - 3))
            && is00 (at_ buffer (i - 2)) && is00 (at_ buffer (i - 1))
            && is01 (at_ buffer i)) eqn:C4.
  { intros E; inversion E; subst; clear E.
    rewrite !andb_true_iff, Nat.leb_le in C4.
    destruct C4 as ((((Hi & A) & B) & C) & D).
    split; [|split; [lia | intros; lia]].
    right. split; [reflexivity|]. unfold sc4At.
    replace (i - 3 + 1)%nat with (i - 2)%nat by lia.
    replace (i - 3 + 2)%nat with (i - 1)%nat by lia.
    replace (i - 3 + 3)%nat with i by lia.
    rewrite A, B, C, D. reflexivity. }
  destruct ((2 <=? i)%nat && is00 (at_ buffer (i - 2))
            && is00 (at_ buffer (i - 1)) && is01 (at_ buffer i)) eqn:C3.
  { intros E; inversion E; subst; clear E.
    rewrite !andb_true_iff, Nat.leb_le in C3.
    destruct C3 as (((Hi & A) & B) & C).
    split; [|split; [lia | intros; lia]].
    left. split; [reflexivity|]. unfold sc3At.
    replace (i - 2 + 1)%nat with (i - 1)%nat by lia.
    replace (i - 2 + 2)%nat with i by lia.
    rewrite A, B, C. reflexivity. }
  intros E. destruct (IH E) as (Hcode & Hle & Hmax).
  split; [exact Hcode|]. split; [lia|].
  intros q m Hq Hqm.
  destruct (Nat.eq_dec (q + m) (S i)) as [Heq|Hne];
    [|apply Hmax; [exact Hq | lia]].
  exfalso. destruct Hq as [(-> & S3) | (-> & S4)].
  - assert (Hi : (2 <=? i)%nat = true) by (apply Nat.leb_le; lia).
    apply sc3At_true in S3. destruct S3 as (A & B & C).
    replace q with (i - 2)%nat in A, B, C by lia.
    replace (i - 2 + 1)%nat with (i - 1)%nat in B by lia.
    replace (i - 2 + 2)%nat with i in C by lia.
    rewrite Hi, A, B, C in C3. discriminate.
  - assert (Hi : (3 <=? i)%nat = true) by (apply Nat.leb_le; lia).
    apply sc4At_true in S4. destruct S4 as (A & B & C & D).
    replace q with (i - 3)%nat in A, B, C, D by lia.
    replace (i - 3 + 1)%nat with (i - 2)%nat in B by lia.
    replace (i - 3 + 2)%nat with (i - 1)%nat in C by lia.
    replace (i - 3 + 3)%nat with i in D by lia.
    rewrite Hi, A, B, C, D in C4. discriminate.
Qed.

(** *** The forward search *)

Lemma findNextStartCode_loop_spec buffer n : forall i nx,
  findNextStartCode_loop buffer i n = Some nx ->
  (i + n + 3 <= length buffer)%nat ->
  (i <= nx < i + n)%nat /\
  forall k, (i <= k < nx)%nat ->
    sc4At buffer k = false /\
    (sc3At buffer k = true ->
     k <> 0%nat /\ is00 (at_ buffer (k - 1)) = true).
Proof.
  induction n as [|n IH]; intros i nx E Hlen; simpl in E; [discriminate|].
  assert (G4 : (i + 3 <? length buffer)%nat = true) by (apply Nat.ltb_lt; lia).
  assert (G3 : (i + 2 <? length buffer)%nat = true) by (apply Nat.ltb_lt; lia).
  rewrite G4, G3 in E. simpl in E.
  destruct (sc4At buffer i) eqn:S4.
  { inversion E; subst. split; [lia|]. intros; lia. }
  assert (Step : forall nx',
    findNextStartCode_loop buffer (S i) n = Some nx' ->
    (sc3At buffer i = true ->
     i <> 0%nat /\ is00 (at_ buffer (i - 1)) = true) ->
    (i <= nx' < i + S n)%nat /\
    forall k, (i <= k < nx')%nat ->
      sc4At buffer k = false /\
      (sc3At buffer k = true ->
       k <> 0%nat /\ is00 (at_ buffer (k - 1)) = true)).
  { intros nx' E' H3.
    destruct (IH _ _ E') as (R & M); [lia|].
    split; [lia|]. intros k Hk.
    destruct (Nat.eq_dec k i) as [->|Hne]; [split; assumption|].
    apply M. lia. }
  destruct (sc3At buffer i) eqn:S3.
  - destruct ((i =? 0)%nat || negb (is00 (at_ buffer (i - 1)))) eqn:G.
    + inversion E; subst. split; [lia|]. intros; lia.
    + apply Step; [exact E|]. intros _.
      apply orb_false_iff in G. destruct G as [G1 G2].
      apply Nat.eqb_neq in G1. apply negb_false_iff in G2. auto.
  - apply Step; [exact E|]. discriminate.
Qed.

Lemma findNextStartCode_spec buffer start nx :
  findNextStartCode buffer start = Some nx ->
  (start <= nx)%nat /\ (nx + 3 < length buffer)%nat /\
  forall k, (start <= k < nx)%nat ->
    sc4At buffer k = false /\
    (sc3At buffer k = true ->
     k <> 0%nat /\ is00 (at_ buffer (k - 1)) = true).
Proof.
  unfold findNextStartCode. intros E.
  destruct (length buffer - 3 - start)%nat as [|n] eqn:N;
    [simpl in E; discriminate|].
  destruct (findNextStartCode_loop_spec buffer (S n) start nx E) as (R & M);
    [lia|].
  split; [lia|]. split; [lia|]. exact M.
Qed.

(** *** The head of the scan *)

Lemma locateStartCode_spec buffer idx len :
  locateStartCode buffer = (idx, len) -> 0 <= idx ->
  exists s : nat,
    idx = Z.of_nat s /\
    ((len = 4 /\ sc4At buffer s = true /\ (s + 4 <= length buffer)%nat) \/
     (len = 3 /\ sc3At buffer s = true /\ (s + 3 <= length buffer)%nat /\
      (1 <= s)%nat /\ is00 (at_ buffer (s - 1)) = false)).
Proof.
  unfold locateStartCode. intros E H.
  destruct (0 <=? findStartCode4 buffer) eqn:G4.
  - inversion E; subst. exists (Z.to_nat (findStartCode4 buffer)).
    split; [lia|]. left. split; [reflexivity|].
    destruct (findStartCode4_sound buffer (Z.to_nat (findStartCode4 buffer)))
      as (L & S4 & _); [lia|]. auto.
  - destruct (0 <=? findStartCode3 buffer) eqn:G3.
    + inversion E; subst. exists (Z.to_nat (findStartCode3 buffer)).
      split; [lia|]. right. split; [reflexivity|].
      destruct (findStartCode3_sound buffer (Z.to_nat (findStartCode3 buffer)))
        as (H1 & L & S3 & P); [lia|]. auto.
    + inversion E; subst. lia.
Qed.

(** *** Extracted units are well delimited *)

Lemma sc4At_intro bs k :
  at_ bs k = x00 -> at_ bs (k + 1) = x00 -> at_ bs (k + 2) = x00 ->
  at_ bs (k + 3) = x01 -> sc4At bs k = true.
Proof. intros. apply sc4At_true. auto. Qed.

(** A unit cut between the previous start code and the current one. *)
Lemma wellDelimited_prev buffer s p plen :
  findPrevStartCode buffer s = Some (p, plen) ->
  (s <= length buffer)%nat ->
  (plen + 1 < s - p)%nat ->
  wellDelimited (slice buffer p s) plen.
Proof.
  intros E Hs Hlen.
  destruct (findPrevStartCode_spec buffer s p plen E) as (Hcode & Hle & Hmax).
  assert (L : length (slice buffer p s) = (s - p)%nat)
    by (apply length_slice; exact Hs).
  unfold wellDelimited. rewrite L. split; [|split; [exact Hlen|]].
  - destruct Hcode as [(-> & S3) | (-> & S4)]; [left | right];
      (split; [reflexivity|]).
    + rewrite sc3At_slice by lia. rewrite Nat.add_0_r. exact S3.
    + rewrite sc4At_slice by lia. rewrite Nat.add_0_r. exact S4.
  - intros j n t (Hlt & Hc & _). rewrite L in Hlt.
    assert (Hc' : (n = 3%nat /\ sc3At buffer (p + j) = true) \/
                  (n = 4%nat /\ sc4At buffer (p + j) = true)).
    { destruct Hc as [(-> & S3) | (-> & S4)]; [left | right];
        (split; [reflexivity|]).
      - rewrite sc3At_slice in S3 by lia. exact S3.
      - rewrite sc4At_slice in S4 by lia. exact S4. }
    pose proof (Hmax (p + j)%nat n Hc' ltac:(lia)) as Hjn.
    destruct Hcode as [(-> & S3) | (-> & S4)];
      destruct Hc' as [(-> & T3) | (-> & T4)]; try lia.
    (* a 4-byte code at p and a 3-byte code at p + j with j + 3 <= 4 *)
    assert (j = 0%nat \/ j = 1%nat) as [-> | ->] by lia; [|reflexivity].
    exfalso. rewrite Nat.add_0_r in T3.
    exact (sc3At_sc4At_excl buffer p T3 S4).
Qed.

(** A unit cut from the first start code to the next one. *)
Lemma wellDelimited_first buffer s slen nx :
  ((slen = 3%nat /\ sc3At buffer s = true) \/
   (slen = 4%nat /\ sc4At buffer s = true)) ->
  findNextStartCode buffer (s + slen) = Some nx ->
  (slen + 1 < nx - s)%nat ->
  wellDelimited (slice buffer s nx) slen.
Proof.
  intros Hcode E Hlen.
  destruct (findNextStartCode_spec buffer (s + slen) nx E) as (Hge & Hnx & Hmin).
  assert (L : length (slice buffer s nx) = (nx - s)%nat)
    by (apply length_slice; lia).
  unfold wellDelimited. rewrite L. split; [|split; [exact Hlen|]].
  - destruct Hcode as [(-> & S3) | (-> & S4)]; [left | right];
      (split; [reflexivity|]).
    + rewrite sc3At_slice by lia. rewrite Nat.add_0_r. exact S3.
    + rewrite sc4At_slice by lia. rewrite Nat.add_0_r. exact S4.
  - intros j n t (Hlt & Hc & _). rewrite L in Hlt.
    assert (Hc' : (n = 3%nat /\ sc3At buffer (s + j) = true) \/
                  (n = 4%nat /\ sc4At buffer (s + j) = true)).
    { destruct Hc as [(-> & S3) | (-> & S4)]; [left | right];
        (split; [reflexivity|]).
      - rewrite sc3At_slice in S3 by lia. exact S3.
      - rewrite sc4At_slice in S4 by lia. exact S4. }
    clear Hc.
    destruct (le_lt_dec slen j) as [Hj|Hj].
    + (* the code begins after the leading start code *)
      exfalso.
      destruct (Hmin (s + j)%nat ltac:(lia)) as (N4 & N3).
      destruct Hc' as [(-> & T3) | (-> & T4)]; [|congruence].
      destruct (N3 T3) as (_ & P).
      destruct (Nat.eq_dec j slen) as [->|Hne].
      * (* right behind the leading code: the byte before is its 01 *)
        destruct Hcode as [(-> & S3) | (-> & S4)]; bytes.
        -- replace (s + 3 - 1)%nat with (s + 2)%nat in P by lia. congruence.
        -- replace (s + 4 - 1)%nat with (s + 3)%nat in P by lia. congruence.
      * (* otherwise a 4-byte code begins one byte earlier *)
        destruct (Hmin (s + j - 1)%nat ltac:(lia)) as (N4' & _).
        bytes.
        assert (sc4At buffer (s + j - 1) = true); [|congruence].
        apply sc4At_intro; [exact P | | |].
        -- replace (s + j - 1 + 1)%nat with (s + j)%nat by lia. assumption.
        -- replace (s + j - 1 + 2)%nat with (s + j + 1)%nat by lia. assumption.
        -- replace (s + j - 1 + 3)%nat with (s + j + 2)%nat by lia. assumption.
    + (* the code begins inside the leading start code *)
      destruct Hcode as [(-> & S3) | (-> & S4)];
        destruct Hc' as [(-> & T3) | (-> & T4)].
      * assert (j = 0 \/ j = 1 \/ j = 2)%nat as [-> | [-> | ->]] by lia;
          [reflexivity | exfalso | exfalso]; bytes; norm_idx; congruence.
      * exfalso.
        assert (j = 0 \/ j = 1 \/ j = 2)%nat as [-> | [-> | ->]] by lia;
          bytes; norm_idx; congruence.
      * assert (j = 0 \/ j = 1 \/ j = 2 \/ j = 3)%nat
          as [-> | [-> | [-> | ->]]] by lia;
          [exfalso | reflexivity | exfalso | exfalso];
          bytes; norm_idx; congruence.
      * assert (j = 0 \/ j = 1 \/ j = 2 \/ j = 3)%nat
          as [-> | [-> | [-> | ->]]] by lia;
          [reflexivity | exfalso | exfalso | exfalso];
          bytes; norm_idx; congruence.
Qed.

End Extraction.

Section StartCodeClaims.

(** *** What the three searches take for a 3-byte code *)

Lemma findPrevStartCode_3byte buffer n p :
  findPrevStartCode buffer n = Some (p, 3%nat) ->
  (p + 3 <= n)%nat /\ sc3At buffer p = true /\
  (p = 0%nat \/ is00 (at_ buffer (p - 1)) = false).
Proof.
  induction n as [|i IH]; cbn [findPrevStartCode]; [discriminate|].
  destruct ((3 <=? i)%nat && is00 (at_ buffer (i - 3))
            && is00 (at_ buffer (i - 2)) && is00 (at_ buffer (i - 1))
            && is01 (at_ buffer i)) eqn:C4; [discriminate|].
  destruct ((2 <=? i)%nat && is00 (at_ buffer (i - 2))
            && is00 (at_ buffer (i - 1)) && is01 (at_ buffer i)) eqn:C3.
  - intros E; inversion E; subst; clear E.
    rewrite !andb_true_iff, Nat.leb_le in C3.
    destruct C3 as (((Hi & A) & B) & C).
    rewrite A, B, C, !andb_true_r in C4.
    split; [lia|]. split.
    + unfold sc3At.
      replace (i - 2 + 1)%nat with (i - 1)%nat by lia.
      replace (i - 2 + 2)%nat with i by lia.
      rewrite A, B, C. reflexivity.
    + apply andb_false_iff in C4. destruct C4 as [C4 | C4].
      * left. apply Nat.leb_gt in C4. lia.
      * right. replace (i - 2 - 1)%nat with (i - 3)%nat by lia. exact C4.
  - intros E. destruct (IH E) as (H1 & H2 & H3). split; [lia | auto].
Qed.

Lemma findNextStartCode_loop_found buffer n : forall i nx,
  findNextStartCode_loop buffer i n = Some nx ->
  sc4At buffer nx = true \/
  (sc3At buffer nx = true /\
   (nx = 0%nat \/ is00 (at_ buffer (nx - 1)) = false)).
Proof.
  induction n as [|n IH]; intros i nx; cbn [findNextStartCode_loop];
    [discriminate|].
  destruct ((i + 3 <? length buffer)%nat && sc4At buffer i) eqn:C4.
  { intros E; inversion E; subst.
    apply andb_true_iff in C4. left. tauto. }
  destruct ((i + 2 <? length buffer)%nat && sc3At buffer i) eqn:C3;
    [|apply IH].
  destruct ((i =? 0)%nat || negb (is00 (at_ buffer (i - 1)))) eqn:G;
    [|apply IH].
  intros E; inversion E; subst.
  apply andb_true_iff in C3. destruct C3 as [_ S3].
  right. split; [exact S3|].
  apply orb_true_iff in G. destruct G as [G | G].
  - left. apply Nat.eqb_eq, G.
  - right. apply negb_true_iff, G.
Qed.

(** C8. [findStartCode3] reports an index [i] only when
    [buffer[i..i+2] = 00 00 01], [i >= 1] and [buffer[i-1] <> 00]; a 3-byte
    pattern that directly follows a [00] byte is never reported by it, and
    the scan of [readFrames] then reports a 4-byte code at or before that
    [00]; whenever a 4-byte code exists the scan reports the 4-byte form.
    The searches for the previous and for the next start code follow the
    same rule: what they take for a 3-byte code is not preceded by [00]. *)
Theorem findStartCode3_skips_tail_of_4byte_code (buffer : list byte) :
  (forall i : nat,
      findStartCode3 buffer = Z.of_nat i ->
      (1 <= i)%nat /\
      firstn 3 (skipn i buffer) = [x00; x00; x01] /\
      exists p, nth_error buffer (i - 1) = Some p /\ p <> x00) /\
  (forall j : nat,
      firstn 4 (skipn j buffer) = [x00; x00; x00; x01] ->
      findStartCode3 buffer <> Z.of_nat (S j) /\
      exists k : nat,
        (k <= j)%nat /\
        locateStartCode buffer = (Z.of_nat k, 4) /\
        firstn 4 (skipn k buffer) = [x00; x00; x00; x01]) /\
  (0 <= findStartCode4 buffer ->
   locateStartCode buffer = (findStartCode4 buffer, 4)) /\
  (forall n p : nat,
      (n <= length buffer)%nat ->
      findPrevStartCode buffer n = Some (p, 3%nat) ->
      firstn 3 (skipn p buffer) = [x00; x00; x01] /\
      (p = 0%nat \/
       exists q, nth_error buffer (p - 1) = Some q /\ q <> x00)) /\
  (forall start nx : nat,
      findNextStartCode buffer start = Some nx ->
      firstn 4 (skipn nx buffer) = [x00; x00; x00; x01] \/
      (firstn 3 (skipn nx buffer) = [x00; x00; x01] /\
       (nx = 0%nat \/
        exists q, nth_error buffer (nx - 1) = Some q /\ q <> x00))).
Proof.
  split; [|split; [|split; [|split]]].
  - intros i E.
    destruct (findStartCode3_sound buffer i E) as (H1 & Hlen & S3 & P).
    split; [exact H1|]. split.
    + apply window3. split; [exact Hlen|]. apply sc3At_true, S3.
    + exists (at_ buffer (i - 1)). split.
      * apply at_nth_error. lia.
      * apply is00_false, P.
  - intros j W. apply window4 in W. destruct W as (Hlen & W).
    assert (S4 : sc4At buffer j = true) by (apply sc4At_true; exact W).
    split.
    + intros E. apply findStartCode3_sound in E.
      destruct E as (_ & _ & _ & P).
      replace (S j - 1)%nat with j in P by lia.
      apply is00_false in P. apply P. tauto.
    + destruct (findStartCode4_complete buffer j Hlen S4) as (k & Ek & Hk & Sk).
      exists k. split; [exact Hk|]. split.
      * unfold locateStartCode. rewrite Ek.
        destruct (0 <=? Z.of_nat k) eqn:G; [reflexivity | lia].
      * apply window4. split; [lia|]. apply sc4At_true, Sk.
  - intros H. unfold locateStartCode.
    destruct (0 <=? findStartCode4 buffer) eqn:G; [reflexivity | lia].
  - intros n p Hn E.
    destruct (findPrevStartCode_3byte buffer n p E) as (Hp & S3 & P).
    split.
    + apply window3. split; [lia|]. apply sc3At_true, S3.
    + destruct P as [-> | P]; [left; reflexivity|].
      destruct (Nat.eq_dec p 0) as [-> | Hp0]; [left; reflexivity|].
      right. exists (at_ buffer (p - 1)). split.
      * apply at_nth_error. lia.
      * apply is00_false, P.
  - intros start nx E.
    destruct (findNextStartCode_spec buffer start nx E) as (_ & Hnx & _).
    unfold findNextStartCode in E.
    destruct (findNextStartCode_loop_found buffer _ _ _ E) as [S4 | (S3 & P)].
    + left. apply window4. split; [lia|]. apply sc4At_true, S4.
    + right. split.
      * apply window3. split; [lia|]. apply sc3At_true, S3.
      * destruct P as [-> | P]; [left; reflexivity|].
        destruct (Nat.eq_dec nx 0) as [-> | Hp0]; [left; reflexivity|].
        right. exists (at_ buffer (nx - 1)). split.
        -- apply at_nth_error. lia.
        -- apply is00_false, P.
Qed.

Lemma findStartCode3_skips_tail_of_4byte_code_witness :
  let buffer :=
    [x00; x00; x00; x01; x65; x00; x00; x01; x41; xff; x00; x00; x01; x09;
     xf0; x00] in
  findStartCode3 buffer = Z.of_nat 5 /\
  firstn 4 (skipn 0 buffer) = [x00; x00; x00; x01] /\
  0 <= findStartCode4 buffer /\
  (8 <= length buffer)%nat /\
  findPrevStartCode buffer 10 = Some (5%nat, 3%nat) /\
  findNextStartCode buffer 4 = Some 5%nat /\
  ((1 <= 5)%nat /\
   firstn 3 (skipn 5 buffer) = [x00; x00; x01] /\
   exists p, nth_error buffer (5 - 1) = Some p /\ p <> x00) /\
  findStartCode3 buffer <> Z.of_nat 1 /\
  locateStartCode buffer = (findStartCode4 buffer, 4) /\
  (firstn 3 (skipn 5 buffer) = [x00; x00; x01] /\
   (5 = 0 \/ exists q, nth_error buffer (5 - 1) = Some q /\ q <> x00)%nat) /\
  (5 = 0 \/ exists q, nth_error buffer (5 - 1) = Some q /\ q <> x00)%nat.
Proof.
  intros buffer.
  pose proof (findStartCode3_skips_tail_of_4byte_code buffer)
    as (H3 & Hskip & H4 & Hprev & Hnext).
  assert (E3 : findStartCode3 buffer = Z.of_nat 5) by reflexivity.
  assert (W4 : firstn 4 (skipn 0 buffer) = [x00; x00; x00; x01])
    by reflexivity.
  assert (P4 : 0 <= findStartCode4 buffer) by (vm_compute; discriminate).
  assert (L : (10 <= length buffer)%nat) by (simpl; lia).
  assert (EP : findPrevStartCode buffer 10 = Some (5%nat, 3%nat))
    by reflexivity.
  assert (EN : findNextStartCode buffer 4 = Some 5%nat) by reflexivity.
  split; [exact E3|]. split; [exact W4|]. split; [exact P4|].
  split; [simpl; lia|]. split; [exact EP|]. split; [exact EN|].
  split; [exact (H3 5%nat E3)|].
  split; [exact (proj1 (Hskip 0%nat W4))|].
  split; [exact (H4 P4)|].
  split; [exact (Hprev 10%nat 5%nat L EP)|].
  destruct (Hnext 4%nat 5%nat EN) as [W | (_ & P)].
  - discriminate W.
  - exact P.
Defined.

(** C9. [findStartCode3] never returns index 0: the result is [-1] or at
    least 1.  A buffer that starts with [00 00 01] therefore has its leading
    start code unreported: the result is [-1] when there is no other code and
    the index of a later code otherwise. *)
Theorem findStartCode3_never_index_0 :
  (forall buffer : list byte,
      findStartCode3 buffer = -1 \/ 1 <= findStartCode3 buffer) /\
  (forall rest : list byte,
      findStartCode3 (x00 :: x00 :: x01 :: rest) = -1 \/
      3 <= findStartCode3 (x00 :: x00 :: x01 :: rest)) /\
  findStartCode3 [x00; x00; x01; x65; x88; x84] = -1 /\
  findStartCode3 [x00; x00; x01; x65; x88; x00; x00; x01; x41; x9a] = 5.
Proof.
  split; [|split; [|split; reflexivity]].
  - intros buffer. unfold findStartCode3.
    destruct (1 >? Z.of_nat (length buffer) - 3); [left; reflexivity|].
    apply findStartCode3_loop_range. lia.
  - intros rest.
    destruct (findStartCode3 (x00 :: x00 :: x01 :: rest)) as [|q|q] eqn:E.
    + change 0 with (Z.of_nat 0) in E.
      apply findStartCode3_sound in E. lia.
    + right.
      assert (E' : findStartCode3 (x00 :: x00 :: x01 :: rest)
                   = Z.of_nat (Pos.to_nat q))
        by (rewrite E; lia).
      apply findStartCode3_sound in E'.
      destruct E' as (H1 & _ & _ & P).
      apply is00_false in P.
      destruct (Pos.to_nat q) as [|[|[|n]]] eqn:Q; try lia.
      * exfalso; apply P; reflexivity.
      * exfalso; apply P; reflexivity.
    + left. unfold findStartCode3 in *.
      destruct (1 >? Z.of_nat (length (x00 :: x00 :: x01 :: rest)) - 3);
        [congruence|].
      destruct (findStartCode3_loop_range (x00 :: x00 :: x01 :: rest)
                  (length (x00 :: x00 :: x01 :: rest) - 3) 1) as [R|R];
        try lia.
Qed.

End StartCodeClaims.

Section FrameAssembly.

(** *** Start-code prefixes *)

Lemma startsWithStartCode_sc3 bs :
  sc3At bs 0 = true -> (3 <= length bs)%nat -> startsWithStartCode bs = true.
Proof.
  destruct bs as [|a [|b [|c rest]]]; simpl; try lia.
  unfold sc3At, at_. simpl. intros H _.
  apply andb_true_iff in H. destruct H as [H ->].
  rewrite H. reflexivity.
Qed.

Lemma startsWithStartCode_sc4 bs :
  sc4At bs 0 = true -> (4 <= length bs)%nat -> startsWithStartCode bs = true.
Proof.
  destruct bs as [|a [|b [|c [|d rest]]]]; simpl; try lia.
  unfold sc4At, at_. simpl. intros H _.
  apply andb_true_iff in H. destruct H as [H ->].
  apply andb_true_iff in H. destruct H as [H ->].
  rewrite H. simpl. apply orb_true_r.
Qed.

Lemma startsWithStartCode_app a b :
  startsWithStartCode a = true -> startsWithStartCode (a ++ b) = true.
Proof.
  destruct a as [|x [|y [|z [|w rest]]]]; simpl; try discriminate.
  - intros H. apply andb_true_iff in H. destruct H as [H1 H2].
    rewrite H1. rewrite andb_false_r, orb_false_r in H2.
    rewrite H2. reflexivity.
  - auto.
Qed.

Lemma wellDelimited_starts nal n0 :
  wellDelimited nal n0 -> startsWithStartCode nal = true.
Proof.
  intros ([(-> & S3) | (-> & S4)] & L & _).
  - apply startsWithStartCode_sc3; [exact S3 | lia].
  - apply startsWithStartCode_sc4; [exact S4 | lia].
Qed.

Lemma frameInv_starts frame :
  frameInv frame -> frame <> [] -> startsWithStartCode frame = true.
Proof.
  intros [-> | (n0 & [(-> & S3) | (-> & S4)] & L & _)] H; [congruence| |].
  - apply startsWithStartCode_sc3; [exact S3 | lia].
  - apply startsWithStartCode_sc4; [exact S4 | lia].
Qed.

Lemma length_pos_nonempty {A} (l : list A) :
  (0 <? length l)%nat = true <-> l <> [].
Proof.
  rewrite Nat.ltb_lt. destruct l; simpl; split; intros; try lia; congruence.
Qed.

Lemma length_zero_empty {A} (l : list A) :
  (0 <? length l)%nat = false <-> l = [].
Proof.
  rewrite Nat.ltb_ge. destruct l; simpl; split; intros; try lia; congruence.
Qed.

(** *** The type of a well-delimited unit *)

Lemma nalTypeOf_wellDelimited nal n0 :
  wellDelimited nal n0 -> nalTypeOf nal = nalTypeBits (at_ nal n0).
Proof.
  intros ([(-> & S3) | (-> & S4)] & L & _); unfold nalTypeOf.
  - assert (is00 (at_ nal 2) = false) as F.
    { bytes. norm_idx. apply is00_false. congruence. }
    rewrite F, andb_false_r. cbn [andb].
    assert ((4 <=? length nal)%nat = true) as -> by (apply Nat.leb_le; lia).
    unfold sc3At in S3. cbn [Nat.add] in S3. cbn [andb]. rewrite S3.
    reflexivity.
  - assert ((5 <=? length nal)%nat = true) as -> by (apply Nat.leb_le; lia).
    unfold sc4At in S4. cbn [Nat.add] in S4. cbn [andb]. rewrite S4.
    reflexivity.
Qed.

(** *** The IDR checks *)

(** [hasIDR_scan] gives the loop all the iterations it can use: more fuel
    does not change the result. *)
Lemma hasIDR_loop_fuel frame fuel : forall i extra,
  (length frame <= i + fuel)%nat ->
  hasIDR_loop frame i (fuel + extra) = hasIDR_loop frame i fuel.
Proof.
  induction fuel as [|fuel IH]; intros i extra H.
  - cbn [Nat.add hasIDR_loop]. destruct extra as [|extra]; [reflexivity|].
    cbn [hasIDR_loop].
    assert ((i <? length frame)%nat = false) as -> by (apply Nat.ltb_ge; lia).
    reflexivity.
  - cbn [Nat.add hasIDR_loop].
    destruct (i <? length frame)%nat; [|reflexivity].
    destruct ((i + 4 <=? length frame)%nat && sc4At frame i).
    + destruct ((if (i + 4 <? length frame)%nat
                 then nalTypeBits (at_ frame (i + 4)) else 0%N) =? 5)%N;
        [reflexivity | apply IH; lia].
    + destruct ((i + 3 <=? length frame)%nat && sc3At frame i).
      * destruct ((if (i + 3 <? length frame)%nat
                   then nalTypeBits (at_ frame (i + 3)) else 0%N) =? 5)%N;
          [reflexivity | apply IH; lia].
      * apply IH; lia.
Qed.

Lemma hasIDR_scan_complete frame :
  frameInv frame -> containsNal 5 frame -> hasIDR_scan frame = true.
Proof.
  intros [-> | (n0 & Hcode & L & Hhdr)] (j & n & Hj).
  { destruct Hj as (Hlt & _). simpl in Hlt. lia. }
  pose proof (Hhdr j n Hj) as E.
  destruct Hj as (_ & _ & T). rewrite E in T.
  unfold hasIDR_scan.
  destruct (length frame) as [|m] eqn:Len; [lia|].
  cbn [hasIDR_loop]. rewrite Len.
  assert ((0 <? S m)%nat = true) as -> by reflexivity.
  destruct Hcode as [(-> & S3) | (-> & S4)].
  - assert (sc4At frame 0 = false) as ->.
    { destruct (sc4At frame 0) eqn:S4; [|reflexivity].
      exfalso. exact (sc3At_sc4At_excl frame 0 S3 S4). }
    rewrite andb_false_r, S3.
    assert ((0 + 3 <=? S m)%nat = true) as -> by (apply Nat.leb_le; lia).
    assert ((0 + 3 <? S m)%nat = true) as -> by (apply Nat.ltb_lt; lia).
    cbn [andb Nat.add]. cbn [Nat.add] in T. rewrite T. reflexivity.
  - rewrite S4.
    assert ((0 + 4 <=? S m)%nat = true) as -> by (apply Nat.leb_le; lia).
    assert ((0 + 4 <? S m)%nat = true) as -> by (apply Nat.ltb_lt; lia).
    cbn [andb Nat.add]. cbn [Nat.add] in T. rewrite T. reflexivity.
Qed.

Lemma hasIDR_loop_sound frame fuel : forall i,
  hasIDR_loop frame i fuel = true -> containsNal 5 frame.
Proof.
  induction fuel as [|fuel IH]; intros i; cbn [hasIDR_loop]; [discriminate|].
  destruct (i <? length frame)%nat; [|discriminate].
  destruct ((i + 4 <=? length frame)%nat && sc4At frame i) eqn:C4.
  - apply andb_true_iff in C4. destruct C4 as [_ S4].
    destruct (i + 4 <? length frame)%nat eqn:L; [|apply IH].
    destruct (nalTypeBits (at_ frame (i + 4)) =? 5)%N eqn:T; [|apply IH].
    intros _. exists i, 4%nat. apply Nat.ltb_lt in L. apply N.eqb_eq in T.
    repeat split; auto.
  - destruct ((i + 3 <=? length frame)%nat && sc3At frame i) eqn:C3;
      [|apply IH].
    apply andb_true_iff in C3. destruct C3 as [_ S3].
    destruct (i + 3 <? length frame)%nat eqn:L; [|apply IH].
    destruct (nalTypeBits (at_ frame (i + 3)) =? 5)%N eqn:T; [|apply IH].
    intros _. exists i, 3%nat. apply Nat.ltb_lt in L. apply N.eqb_eq in T.
    repeat split; auto.
Qed.

Lemma hasIDR_scan_sound frame :
  hasIDR_scan frame = true -> containsNal 5 frame.
Proof. apply hasIDR_loop_sound. Qed.

Lemma hasIDR_linear_loop_sound frame n : forall i,
  hasIDR_linear_loop frame i n = true -> containsNal 5 frame.
Proof.
  induction n as [|n IH]; intros i; cbn [hasIDR_linear_loop]; [discriminate|].
  destruct (sc4At frame i) eqn:S4.
  - destruct ((i + 4 <? length frame)%nat
              && (nalTypeBits (at_ frame (i + 4)) =? 5)%N) eqn:C; [|apply IH].
    apply andb_true_iff in C. destruct C as [L T].
    intros _. exists i, 4%nat. apply Nat.ltb_lt in L. apply N.eqb_eq in T.
    repeat split; auto.
  - destruct ((i + 2 <? length frame)%nat && sc3At frame i) eqn:C3;
      [|apply IH].
    apply andb_true_iff in C3. destruct C3 as [_ S3].
    destruct ((i + 3 <? length frame)%nat
              && (nalTypeBits (at_ frame (i + 3)) =? 5)%N) eqn:C; [|apply IH].
    apply andb_true_iff in C. destruct C as [L T].
    intros _. exists i, 3%nat. apply Nat.ltb_lt in L. apply N.eqb_eq in T.
    repeat split; auto.
Qed.

Lemma hasIDR_linear_sound frame :
  hasIDR_linear frame = true -> containsNal 5 frame.
Proof. apply hasIDR_linear_loop_sound. Qed.

(** *** The SPS/PPS check *)

Lemma scanParamSets_loop_sound au n : forall i hasSPS hasPPS,
  (hasSPS = true -> containsNal 7 au) ->
  (hasPPS = true -> containsNal 8 au) ->
  (fst (scanParamSets_loop au i n hasSPS hasPPS) = true -> containsNal 7 au) /\
  (snd (scanParamSets_loop au i n hasSPS hasPPS) = true -> containsNal 8 au).
Proof.
  induction n as [|n IH]; intros i hasSPS hasPPS H7 H8;
    cbn [scanParamSets_loop]; [auto|].
  destruct (sc4At au i) eqn:S4.
  - destruct (i + 4 <? length au)%nat eqn:L; [|apply IH; assumption].
    apply Nat.ltb_lt in L.
    destruct (nalTypeBits (at_ au (i + 4)) =? 7)%N eqn:T7.
    { apply IH; [|assumption]. intros _. exists i, 4%nat.
      apply N.eqb_eq in T7. repeat split; auto. }
    destruct (nalTypeBits (at_ au (i + 4)) =? 8)%N eqn:T8.
    { apply IH; [assumption|]. intros _. exists i, 4%nat.
      apply N.eqb_eq in T8. repeat split; auto. }
    apply IH; assumption.
  - destruct (sc3At au i) eqn:S3; [|apply IH; assumption].
    destruct (i + 3 <? length au)%nat eqn:L; [|apply IH; assumption].
    apply Nat.ltb_lt in L.
    destruct (nalTypeBits (at_ au (i + 3)) =? 7)%N eqn:T7.
    { apply IH; [|assumption]. intros _. exists i, 3%nat.
      apply N.eqb_eq in T7. repeat split; auto. }
    destruct (nalTypeBits (at_ au (i + 3)) =? 8)%N eqn:T8.
    { apply IH; [assumption|]. intros _. exists i, 3%nat.
      apply N.eqb_eq in T8. repeat split; auto. }
    apply IH; assumption.
Qed.

Lemma scanParamSets_sound au :
  scanParamSets au = (true, true) -> containsNal 7 au /\ containsNal 8 au.
Proof.
  unfold scanParamSets. intros E.
  destruct (scanParamSets_loop_sound au (length au - 3) 0 false false)
    as (H7 & H8); try discriminate.
  rewrite E in H7, H8. simpl in *. auto.
Qed.

(** *** The frame accumulator *)

Lemma frameInv_nal nal n0 : wellDelimited nal n0 -> frameInv nal.
Proof.
  intros (Hcode & L & Hhdr). right. exists n0.
  split; [exact Hcode|]. split; [lia|]. intros j n. apply Hhdr.
Qed.

Lemma nalTypeBits_00 : nalTypeBits x00 <> 5%N.
Proof. discriminate. Qed.

(** Appending a well-delimited unit that is not an IDR slice brings no IDR
    header into the frame, also not across the seam. *)
Lemma frameInv_app frame nal n0 :
  frameInv frame -> frame <> [] ->
  wellDelimited nal n0 -> nalTypeBits (at_ nal n0) <> 5%N ->
  frameInv (frame ++ nal).
Proof.
  intros [-> | (c0 & Hcode & L & Hhdr)] Hne (Ncode & NL & Nhdr) Nt;
    [congruence|].
  right. exists c0. rewrite length_app. split; [|split; [lia|]].
  - destruct Hcode as [(-> & S3) | (-> & S4)]; [left | right];
      (split; [reflexivity|]).
    + rewrite sc3At_app_l by lia. exact S3.
    + rewrite sc4At_app_l by lia. exact S4.
  - intros j n (Hlt & Hc & T). rewrite length_app in Hlt.
    assert (Hn : n = 3%nat \/ n = 4%nat) by (destruct Hc as [(-> & _)|(-> & _)]; auto).
    destruct (lt_dec (j + n) (length frame)) as [Hin|Hout].
    + (* the header byte lies in the old frame *)
      apply Hhdr. split; [exact Hin|]. split.
      * destruct Hc as [(-> & S3) | (-> & S4)]; [left | right];
          (split; [reflexivity|]).
        -- rewrite sc3At_app_l in S3 by lia. exact S3.
        -- rewrite sc4At_app_l in S4 by lia. exact S4.
      * rewrite at_app_l in T by lia. exact T.
    + (* the header byte lies in the appended unit, at offset q *)
      exfalso.
      remember (j + n - length frame)%nat as q eqn:Hq.
      rewrite at_app_r in T by lia. rewrite <- Hq in T.
      assert (N0 : at_ nal 0 = x00 /\ at_ nal 1 = x00 /\
                   ((n0 = 3%nat /\ at_ nal 2 = x01) \/
                    (n0 = 4%nat /\ at_ nal 2 = x00 /\ at_ nal 3 = x01))).
      { destruct Ncode as [(-> & S3) | (-> & S4)]; bytes; norm_idx; auto 10. }
      destruct N0 as (B0 & B1 & B2).
      destruct (le_lt_dec n q) as [Hfull|Hstraddle].
      * (* the whole start code lies in the unit *)
        assert (Hc' : (n = 3%nat /\ sc3At nal (j - length frame) = true) \/
                      (n = 4%nat /\ sc4At nal (j - length frame) = true)).
        { destruct Hc as [(-> & S3) | (-> & S4)]; [left | right];
            (split; [reflexivity|]).
          - rewrite sc3At_app_r in S3 by lia. exact S3.
          - rewrite sc4At_app_r in S4 by lia. exact S4. }
        assert (E : (j - length frame + n)%nat = n0).
        { apply (Nhdr _ _ (nalTypeBits (at_ nal (j - length frame + n)))).
          split; [lia|]. split; [exact Hc' | reflexivity]. }
        apply Nt. rewrite <- E.
        replace (j - length frame + n)%nat with q by lia. exact T.
      * (* the start code straddles the seam: its last byte, 01, is the
           byte of the unit at offset q - 1 *)
        assert (Last : q <> 0%nat -> at_ nal (q - 1) = x01).
        { intros Hq0.
          assert (at_ (frame ++ nal) (j + n - 1) = x01) as X.
          { destruct Hc as [(-> & S3) | (-> & S4)]; bytes.
            - replace (j + 3 - 1)%nat with (j + 2)%nat by lia. assumption.
            - replace (j + 4 - 1)%nat with (j + 3)%nat by lia. assumption. }
          rewrite at_app_r in X by lia.
          replace (j + n - 1 - length frame)%nat with (q - 1)%nat in X by lia.
          exact X. }
        assert (q = 0 \/ q = 1 \/ q = 2 \/ q = 3)%nat
          as [-> | [-> | [-> | ->]]] by lia.
        -- rewrite B0 in T. exact (nalTypeBits_00 T).
        -- specialize (Last ltac:(lia)). simpl in Last. congruence.
        -- specialize (Last ltac:(lia)). simpl in Last. congruence.
        -- specialize (Last ltac:(lia)). simpl in Last.
           destruct B2 as [(-> & _) | (_ & B2 & _)]; [|congruence].
           apply Nt. exact T.
Qed.

End FrameAssembly.

Section AccessUnits.

Lemma stateInv_accessUnit_app r nal n0 :
  (accessUnit r = [] \/ startsWithStartCode (accessUnit r) = true) ->
  wellDelimited nal n0 ->
  startsWithStartCode (accessUnit r ++ nal) = true.
Proof.
  intros [-> | H] W.
  - simpl. eapply wellDelimited_starts; eauto.
  - apply startsWithStartCode_app, H.
Qed.

(** The frame built when an access unit is finalised. *)
Lemma finalise_emissionOK r :
  stateInv r -> currentFrame r <> [] ->
  emissionOK
    (emission r
       (if (if (0 <? length (spsPps r))%nat
            then hasIDR_scan (currentFrame r) else false)
           && (0 <? length (spsPps r))%nat
        then spsPps r ++ currentFrame r
        else currentFrame r)).
Proof.
  intros (Hf & Ha & Hc) Hne.
  pose proof (frameInv_starts _ Hf Hne) as Hs.
  unfold emissionOK, emission. cbn [em_spsPps em_currentFrame em_frame].
  split; [exact Hs|].
  destruct (0 <? length (spsPps r))%nat eqn:Lp.
  - apply length_pos_nonempty in Lp.
    assert (Hcs : startsWithStartCode (spsPps r) = true).
    { destruct Hc as [E | (Hcs & _)]; [congruence | exact Hcs]. }
    destruct (hasIDR_scan (currentFrame r)) eqn:Hidr; cbn [andb].
    + split; [apply startsWithStartCode_app, Hcs|].
      split; [exact Hc|]. split; [|auto].
      right. split; [exact Lp|]. split; [|reflexivity].
      apply hasIDR_scan_sound, Hidr.
    + split; [exact Hs|]. split; [exact Hc|]. split; [auto|].
      intros Hidr'. rewrite (hasIDR_scan_complete _ Hf Hidr') in Hidr.
      discriminate.
  - apply length_zero_empty in Lp. cbn [andb].
    split; [exact Hs|]. split; [exact Hc|]. split; [auto|].
    intros _ H. congruence.
Qed.

Lemma stateInv_set_currentFrame r v :
  stateInv r -> frameInv v -> stateInv (set_currentFrame r v).
Proof. intros (_ & Ha & Hc) Hv. repeat split; assumption. Qed.

Lemma frameInv_nil : frameInv [].
Proof. left; reflexivity. Qed.

(** The SPS/PPS branch: the unit joins the accumulator, which becomes the
    cache once it holds both kinds. *)
Lemma paramSet_inv r nal n0 :
  stateInv r -> wellDelimited nal n0 ->
  stateInv
    (let r0 := set_accessUnit r (accessUnit r ++ nal) in
     let '(hasSPS, hasPPS) := scanParamSets (accessUnit r0) in
     if hasSPS && hasPPS then set_spsPps r0 (accessUnit r0) else r0).
Proof.
  intros (Hf & Ha & Hc) W.
  pose proof (stateInv_accessUnit_app r nal n0 Ha W) as Hs.
  cbn [accessUnit set_accessUnit].
  destruct (scanParamSets (accessUnit r ++ nal)) as [hasSPS hasPPS] eqn:E.
  destruct hasSPS, hasPPS; cbn [andb];
    try (repeat split; [exact Hf | right; exact Hs | exact Hc]).
  repeat split; [exact Hf | right; exact Hs |].
  right. split; [exact Hs|]. apply scanParamSets_sound, E.
Qed.

Lemma processNAL_inv r c nal n0 r' c' ops :
  stateInv r -> wellDelimited nal n0 ->
  processNAL r c nal = (r', c', ops) ->
  stateInv r' /\ Forall opOK ops.
Proof.
  intros Inv W. pose proof Inv as (Hf & Ha & Hc).
  pose proof (paramSet_inv r nal n0 Inv W) as HP.
  unfold processNAL. rewrite (nalTypeOf_wellDelimited nal n0 W).
  set (t := nalTypeBits (at_ nal n0)).
  assert (Ht : t = nalTypeBits (at_ nal n0)) by reflexivity. clearbody t.
  destruct (0 <? length (currentFrame r))%nat eqn:Lc.
  - (* a frame is being assembled *)
    pose proof Lc as Hne. apply length_pos_nonempty in Hne.
    pose proof (finalise_emissionOK r Inv Hne) as Hem.
    destruct (t =? 9)%N eqn:T9.
    { cbn [negb]. rewrite andb_false_r.
      intros E; inversion E; subst; clear E.
      split; [apply stateInv_set_currentFrame; [exact Inv | apply frameInv_nil]|].
      constructor; [exact Hem | constructor]. }
    destruct (t =? 5)%N eqn:T5; [|destruct (t =? 1)%N eqn:T1];
      cbn [orb currentFrame set_currentFrame app].
    + intros E; inversion E; subst; clear E.
      split; [|constructor; [exact Hem | constructor]].
      apply stateInv_set_currentFrame;
        [apply stateInv_set_currentFrame; [exact Inv | apply frameInv_nil]|].
      eapply frameInv_nal; eauto.
    + intros E; inversion E; subst; clear E.
      split; [|constructor; [exact Hem | constructor]].
      apply stateInv_set_currentFrame;
        [apply stateInv_set_currentFrame; [exact Inv | apply frameInv_nil]|].
      eapply frameInv_nal; eauto.
    + (* neither a picture nor an AUD: nothing is sent *)
      destruct ((t =? 7)%N || (t =? 8)%N) eqn:T78.
      * cbv zeta in HP.
        destruct (scanParamSets (accessUnit (set_accessUnit r (accessUnit r ++ nal))))
          as [hasSPS hasPPS].
        intros E; inversion E; subst; clear E.
        split; [exact HP | constructor].
      * rewrite Lc.
        intros E; inversion E; subst; clear E.
        split; [|constructor].
        apply stateInv_set_currentFrame; [exact Inv|].
        apply (frameInv_app _ _ n0); auto.
        apply N.eqb_neq in T5. congruence.
  - (* no frame is being assembled *)
    pose proof Lc as He. apply length_zero_empty in He.
    destruct (t =? 9)%N eqn:T9.
    { rewrite Lc. cbn [andb].
      intros E; inversion E; subst; clear E.
      split; [exact Inv | constructor]. }
    assert (Hnal : stateInv (set_currentFrame r (currentFrame r ++ nal))).
    { apply stateInv_set_currentFrame; [exact Inv|].
      rewrite He. simpl. eapply frameInv_nal; eauto. }
    destruct (t =? 5)%N eqn:T5; [|destruct (t =? 1)%N eqn:T1]; cbn [orb].
    + intros E; inversion E; subst; clear E. split; [exact Hnal | constructor].
    + intros E; inversion E; subst; clear E. split; [exact Hnal | constructor].
    + destruct ((t =? 7)%N || (t =? 8)%N) eqn:T78.
      * cbv zeta in HP.
        destruct (scanParamSets (accessUnit (set_accessUnit r (accessUnit r ++ nal))))
          as [hasSPS hasPPS].
        intros E; inversion E; subst; clear E.
        split; [exact HP | constructor].
      * rewrite Lc.
        intros E; inversion E; subst; clear E.
        split; [|constructor].
        destruct Inv as (Hf' & Ha' & Hc').
        repeat split; [exact Hf' | right | exact Hc'].
        eapply stateInv_accessUnit_app; eauto.
Qed.

Lemma firstIdrFlush_inv r c r' c' ops :
  stateInv r -> firstIdrFlush r c = (r', c', ops) ->
  stateInv r' /\ Forall opOK ops.
Proof.
  intros Inv. pose proof Inv as (Hf & Ha & Hc). unfold firstIdrFlush.
  destruct ((0 <? length (currentFrame r))%nat
            && (0 <? length (spsPps r))%nat && (c =? 0)) eqn:G;
    [|intros E; inversion E; subst; split; [exact Inv | constructor]].
  destruct (hasIDR_linear (currentFrame r)
            && (100 <? length (currentFrame r))%nat) eqn:G2;
    [|intros E; inversion E; subst; split; [exact Inv | constructor]].
  intros E; inversion E; subst; clear E.
  rewrite !andb_true_iff in G. destruct G as ((Lc & Lp) & _).
  apply andb_true_iff in G2. destruct G2 as (Hidr & _).
  apply length_pos_nonempty in Lc, Lp.
  split; [apply stateInv_set_currentFrame; [exact Inv | apply frameInv_nil]|].
  constructor; [|constructor].
  assert (Hcs : startsWithStartCode (spsPps r) = true).
  { destruct Hc as [E | (Hcs & _)]; [congruence | exact Hcs]. }
  unfold opOK, emissionOK, emission. cbn [em_spsPps em_currentFrame em_frame].
  split; [apply frameInv_starts; assumption|].
  split; [apply startsWithStartCode_app, Hcs|].
  split; [exact Hc|]. split; [|auto].
  right. split; [exact Lp|]. split; [|reflexivity].
  apply hasIDR_linear_sound, Hidr.
Qed.

(** One iteration of the inner loop keeps the invariant and sends only
    well-formed access units. *)
Lemma scanIteration_inv r buffer c :
  stateInv r ->
  match scanIteration r buffer c with
  | ScanPanic => True
  | ScanBreak r' _ ops => stateInv r' /\ Forall opOK ops
  | ScanNext r' _ _ ops => stateInv r' /\ Forall opOK ops
  end.
Proof.
  intros Inv. unfold scanIteration.
  destruct (locateStartCode buffer) as [startCodeIdx startCodeLen] eqn:Loc.
  destruct (0 <=? startCodeIdx) eqn:G.
  2:{ destruct (firstIdrFlush r c) as [[r1 c1] ops1] eqn:F.
      eapply firstIdrFlush_inv; eauto. }
  apply Z.leb_le in G.
  destruct (locateStartCode_spec buffer _ _ Loc G) as (s & -> & Hs).
  rewrite Nat2Z.id.
  assert (Code : exists slen,
             Z.to_nat startCodeLen = slen /\
             ((slen = 3%nat /\ sc3At buffer s = true) \/
              (slen = 4%nat /\ sc4At buffer s = true)) /\
             (s + slen <= length buffer)%nat).
  { destruct Hs as [(-> & S4 & L) | (-> & S3 & L & _)].
    - exists 4%nat. auto.
    - exists 3%nat. auto. }
  destruct Code as (slen & -> & Hcode & Hlen).
  destruct (findPrevStartCode buffer s) as [[p plen]|] eqn:Prev.
  - (* the unit between the previous start code and this one *)
    destruct ((p <? s)%nat && (plen <? s - p)%nat) eqn:C.
    + pose proof (length_slice buffer p s ltac:(lia)) as L.
      destruct (plen + 1 <? length (slice buffer p s))%nat eqn:C2.
      * rewrite L in C2. apply Nat.ltb_lt in C2.
        pose proof (wellDelimited_prev buffer s p plen Prev ltac:(lia) C2) as W.
        destruct (processNAL r c (slice buffer p s)) as [[r1 c1] ops1] eqn:P.
        destruct (sliceFrom buffer s); [|exact I].
        eapply processNAL_inv; eauto.
      * destruct (sliceFrom buffer s); [|exact I].
        split; [exact Inv | constructor].
    + destruct (sliceFrom buffer (s + 4)); [|exact I].
      split; [exact Inv | constructor].
  - destruct (findNextStartCode buffer (s + slen)) as [nx|] eqn:Next.
    + (* the unit from the first start code to the next one *)
      destruct ((s <? nx)%nat && (slen <? nx - s)%nat) eqn:C.
      * destruct (findNextStartCode_spec buffer _ _ Next) as (_ & Hnx & _).
        pose proof (length_slice buffer s nx ltac:(lia)) as L.
        destruct (slen + 1 <? length (slice buffer s nx))%nat eqn:C2.
        -- rewrite L in C2. apply Nat.ltb_lt in C2.
           pose proof (wellDelimited_first buffer s slen nx Hcode Next C2) as W.
           destruct (processNAL r c (slice buffer s nx)) as [[r1 c1] ops1] eqn:P.
           destruct (sliceFrom buffer nx); [|exact I].
           eapply processNAL_inv; eauto.
        -- destruct (sliceFrom buffer nx); [|exact I].
           split; [exact Inv | constructor].
      * destruct (sliceFrom buffer (s + 4)); [|exact I].
        split; [exact Inv | constructor].
    + split; [exact Inv | constructor].
Qed.

Lemma scanLoop_inv fuel : forall r buffer c,
  stateInv r ->
  match scanLoop fuel r buffer c with
  | LoopPanic ops => Forall opOK ops
  | LoopDone r' _ _ ops => stateInv r' /\ Forall opOK ops
  | LoopOutOfFuel => True
  end.
Proof.
  induction fuel as [|fuel IH]; intros r buffer c Inv; cbn [scanLoop];
    [exact I|].
  pose proof (scanIteration_inv r buffer c Inv) as H.
  destruct (scanIteration r buffer c) as [|r1 c1 ops1|r1 b1 c1 ops1].
  - constructor.
  - exact H.
  - destruct H as (Inv1 & Ops1).
    specialize (IH r1 b1 c1 Inv1).
    destruct (scanLoop fuel r1 b1 c1) as [ops2|r2 b2 c2 ops2|].
    + apply Forall_app. split; assumption.
    + destruct IH as (Inv2 & Ops2). split; [exact Inv2|].
      apply Forall_app. split; assumption.
    + exact I.
Qed.

Lemma readFrames_loop_inv events : forall r buffer c ops,
  stateInv r -> Forall opOK ops ->
  Forall opOK (run_ops (readFrames_loop events r buffer c ops)).
Proof.
  induction events as [|ev events IH]; intros r buffer c ops Inv Ops;
    cbn [readFrames_loop].
  - exact Ops.
  - destruct ev as [|chunk|err]; cbn [run_ops].
    + apply Forall_app. split; [exact Ops | repeat constructor].
    + destruct (length chunk =? 0)%nat; [apply IH; assumption|].
      destruct (length (buffer ++ chunk) <? 20)%nat; [apply IH; assumption|].
      pose proof (scanLoop_inv (S (length (buffer ++ chunk))) r
                    (buffer ++ chunk) c Inv) as H.
      unfold scanBuffer.
      destruct (scanLoop (S (length (buffer ++ chunk))) r (buffer ++ chunk) c)
        as [ops2|r2 b2 c2 ops2|]; cbn [run_ops].
      * apply Forall_app. split; [exact Ops|].
        apply Forall_app. split; [exact H | repeat constructor].
      * destruct H as (Inv2 & Ops2). apply IH; [exact Inv2|].
        apply Forall_app. split; assumption.
      * exact Ops.
    + apply Forall_app. split; [exact Ops|].
      apply Forall_app. split; [repeat constructor|].
      apply Forall_app. split; [|repeat constructor].
      destruct (0 <? length buffer)%nat; repeat constructor.
Qed.

Lemma stateInv_new url fps : stateInv (NewRTSPVideoSource url fps).
Proof. repeat split; left; reflexivity. Qed.

End AccessUnits.

Section EmittedAccessUnits.

(** Every access unit that [readFrames] finalises and sends is well
    formed, whatever the transcoder writes and however it is chunked. *)
Lemma readFrames_emissions url fps c events site e :
  In (Push site e) (run_ops (readFrames (NewRTSPVideoSource url fps) c events)) ->
  emissionOK e.
Proof.
  intros H.
  pose proof (readFrames_loop_inv events (NewRTSPVideoSource url fps) [] c []
                (stateInv_new url fps) (Forall_nil _)) as F.
  rewrite Forall_forall in F. exact (F _ H).
Qed.

(** The finalisation paths do what the read-error flush misses: what they
    send begins with a start code. *)
Lemma finalised_units_begin_with_start_code url fps c events site e :
  In (Push site e) (run_ops (readFrames (NewRTSPVideoSource url fps) c events)) ->
  startsWithStartCode (em_frame e) = true.
Proof.
  intros H. apply readFrames_emissions in H.
  destruct H as (_ & H & _). exact H.
Qed.

(** What the finalisation does with the cache, for all inputs: if the
    access unit contains an IDR unit (in the frame accumulator, or anywhere
    in the bytes sent) and the cache was not empty when the frame was
    built, the bytes sent are the cache followed by the frame; the cache
    begins with a start code and holds an SPS and a PPS header.  What the
    cache is made of is the subject of the two evaluations below. *)
Lemma finalised_idr_is_prefixed_by_cache
  (url : string) (fps c : Z) (events : list ReadEvent)
  (site : PushSite) (e : Emission) :
  In (Push site e) (run_ops (readFrames (NewRTSPVideoSource url fps) c events)) ->
  containsNal 5 (em_currentFrame e) \/ containsNal 5 (em_frame e) ->
  em_spsPps e <> [] ->
  em_frame e = em_spsPps e ++ em_currentFrame e /\
  startsWithStartCode (em_spsPps e) = true /\
  containsNal 7 (em_spsPps e) /\
  containsNal 8 (em_spsPps e).
Proof.
  intros H Hidr Hne. apply readFrames_emissions in H.
  destruct H as (_ & _ & Hc & Hshape & Hsend).
  split.
  - destruct Hshape as [E | (_ & _ & E)]; [|exact E].
    apply Hsend; [|exact Hne].
    destruct Hidr as [Hidr | Hidr]; [exact Hidr|].
    rewrite <- E. exact Hidr.
  - destruct Hc as [E | Hc]; [congruence | exact Hc].
Qed.

Lemma finalised_idr_is_prefixed_by_cache_witness :
  let SPS := [x00; x00; x00; x01; x67; x42; x00; x1f] in
  let PPS := [x00; x00; x00; x01; x68; xce; x3c; x80] in
  let IDR := [x00; x00; x00; x01; x65; x88; x84; x00; x10] in
  let P1 := [x00; x00; x00; x01; x41; x9a; x22; x33] in
  let P2 := [x00; x00; x00; x01; x41; x9b; x44; x55] in
  let e := MkEmission (SPS ++ PPS) IDR (SPS ++ PPS ++ IDR) in
  In (Push FinalisePush e)
     (run_ops (readFrames (NewRTSPVideoSource "rtsp://camera/stream" 15) 0
                 [ReadChunk (SPS ++ PPS ++ IDR ++ P1 ++ P2)])) /\
  containsNal 5 (em_currentFrame e) /\
  em_spsPps e <> [] /\
  em_frame e = em_spsPps e ++ em_currentFrame e /\
  containsNal 7 (em_spsPps e).
Proof.
  intros SPS PPS IDR P1 P2 e.
  assert (Hin : In (Push FinalisePush e)
     (run_ops (readFrames (NewRTSPVideoSource "rtsp://camera/stream" 15) 0
                 [ReadChunk (SPS ++ PPS ++ IDR ++ P1 ++ P2)])))
    by (vm_compute; left; reflexivity).
  assert (Hidr : containsNal 5 (em_currentFrame e)).
  { exists 0%nat, 4%nat. split; [simpl; lia|].
    split; [right; split; reflexivity | reflexivity]. }
  assert (Hne : em_spsPps e <> []) by discriminate.
  destruct (finalised_idr_is_prefixed_by_cache _ _ _ _ _ _ Hin
              (or_introl Hidr) Hne)
    as (Hsend & _ & H7 & _).
  exact (conj Hin (conj Hidr (conj Hne (conj Hsend H7)))).
Defined.

(** The cache is the accumulator in arrival order: when the PPS comes
    before the SPS the IDR access unit is sent with the PPS first. *)
Lemma idr_unit_begins_with_pps_when_pps_came_first :
  let SPS := [x00; x00; x00; x01; x67; x42; x00; x1f] in
  let PPS := [x00; x00; x00; x01; x68; xce; x3c; x80] in
  let IDR := [x00; x00; x00; x01; x65; x88; x84; x00; x10] in
  let P1 := [x00; x00; x00; x01; x41; x9a; x22; x33] in
  let P2 := [x00; x00; x00; x01; x41; x9b; x44; x55] in
  let e := MkEmission (PPS ++ SPS) IDR (PPS ++ SPS ++ IDR) in
  run_ops (readFrames (NewRTSPVideoSource "rtsp://camera/stream" 15) 0
             [ReadChunk (PPS ++ SPS ++ IDR ++ P1 ++ P2)])
    = [Push FinalisePush e] /\
  containsNal 5 (em_currentFrame e) /\
  em_spsPps e <> [] /\
  nalTypeOf (em_frame e) = 8%N /\
  ~ specEmission e.
Proof.
  intros SPS PPS IDR P1 P2 e.
  split; [vm_compute; reflexivity|].
  split.
  { exists 0%nat, 4%nat. split; [simpl; lia|].
    split; [right; split; reflexivity | reflexivity]. }
  split; [discriminate|]. split; [reflexivity|].
  intros (sps & pps & H7 & _ & _ & E).
  subst e SPS PPS IDR. cbn [em_frame em_currentFrame app] in E.
  do 5 (destruct sps as [|b sps]; [vm_compute in H7; discriminate|];
        cbn [app] in E; injection E as <- E).
  vm_compute in H7. discriminate.
Qed.

(** C1, evaluated: the cache is the copy of the parameter-set accumulator,
    and the accumulator is never emptied.  On a stream that repeats its
    SPS and PPS before every keyframe the first keyframe is sent as
    SPS PPS IDR, but the second one as SPS PPS SPS PPS IDR: after the
    cache's SPS and PPS come the older pair again, not the frame.  The
    cache then holds 32 bytes, twice the latest pair. *)
Theorem second_keyframe_is_sent_with_both_pairs_of_parameter_sets :
  let SPS := [x00; x00; x00; x01; x67; x42; x00; x1f] in
  let PPS := [x00; x00; x00; x01; x68; xce; x3c; x80] in
  let IDR := [x00; x00; x00; x01; x65; x88; x84; x00; x10] in
  let P1 := [x00; x00; x00; x01; x41; x9a; x22; x33] in
  let P2 := [x00; x00; x00; x01; x41; x9b; x44; x55] in
  let r := NewRTSPVideoSource "rtsp://camera/stream" 15 in
  let run :=
    readFrames r 0
      [ReadChunk (SPS ++ PPS ++ IDR ++ P1 ++ SPS ++ PPS ++ IDR ++ P1 ++ P2)] in
  run_ops run =
    [Push FinalisePush (MkEmission (SPS ++ PPS) IDR (SPS ++ PPS ++ IDR));
     Push FinalisePush (MkEmission (SPS ++ PPS ++ SPS ++ PPS) P1 P1);
     Push FinalisePush
       (MkEmission (SPS ++ PPS ++ SPS ++ PPS) IDR
                   (SPS ++ PPS ++ SPS ++ PPS ++ IDR))] /\
  chanQueue (deliver (frameChan r) (run_ops run)) =
    [SPS ++ PPS ++ IDR; P1; SPS ++ PPS ++ SPS ++ PPS ++ IDR] /\
  spsPps (run_src run) = SPS ++ PPS ++ SPS ++ PPS /\
  accessUnit (run_src run) = SPS ++ PPS ++ SPS ++ PPS /\
  SPS ++ PPS ++ SPS ++ PPS ++ IDR <> SPS ++ PPS ++ IDR.
Proof.
  cbv zeta. split; [vm_compute; reflexivity|].
  split; [vm_compute; reflexivity|].
  split; [vm_compute; reflexivity|].
  split; [vm_compute; reflexivity|].
  discriminate.
Qed.

(** C2, evaluated: when the read fails the working buffer is put on the
    frame channel as it is.  Bytes read before any start code was seen are
    sent as a frame, and the frame does not begin with a start code. *)
Theorem eof_flush_sends_buffer_without_start_code :
  let r := NewRTSPVideoSource "rtsp://camera/stream" 15 in
  let run := readFrames r 0 [ReadChunk [x41; x9a; x22; x33]; ReadError None] in
  run_ops run =
    [ErrSend "FFmpeg stdout closed (EOF) - process may have exited";
     Flush [x41; x9a; x22; x33]; CloseChans] /\
  run_outcome run = Returned /\
  chanQueue (deliver (frameChan r) (run_ops run)) = [[x41; x9a; x22; x33]] /\
  startsWithStartCode [x41; x9a; x22; x33] = false.
Proof. vm_compute. repeat split; reflexivity. Qed.

(** The same flush after the scan has skipped over two adjacent start
    codes: the buffer left behind starts in the middle of a unit. *)
Lemma eof_flush_sends_tail_of_skipped_unit :
  let r := NewRTSPVideoSource "rtsp://camera/stream" 15 in
  let stream := [x00; x00; x01; x00; x00; x01; x65; x88; x84; x21; xa0; x11;
                 x22; x33; x44; x55; x66; x77; x88; x99; xaa; xbb] in
  let run := readFrames r 0 [ReadChunk stream; ReadError None] in
  chanQueue (deliver (frameChan r) (run_ops run)) =
    [[x88; x84; x21; xa0; x11; x22; x33; x44; x55; x66; x77; x88; x99; xaa; xbb]].
Proof. vm_compute. reflexivity. Qed.


End EmittedAccessUnits.

(* ===================================================================== *)
(** * Part III -- further properties of the code                          *)
(* ===================================================================== *)

(** ** Start-code search *)

Section StartCodeSearch.
Import AnnexB.

Lemma findStartCode4_loop_cases buffer n : forall i,
  findStartCode4_loop buffer i n = -1 \/
  exists k : nat, findStartCode4_loop buffer i n = Z.of_nat k.
Proof.
  induction n as [|n IH]; intros i; cbn [findStartCode4_loop]; [left; reflexivity|].
  destruct (sc4At buffer i); [right; eexists; reflexivity | apply IH].
Qed.

Lemma sc4At_in_range buffer j : sc4At buffer j = true -> (j + 4 <= length buffer)%nat.
Proof.
  intros H. apply sc4At_true in H. destruct H as (_ & _ & _ & H).
  unfold at_ in H.
  destruct (Nat.lt_ge_cases (j + 3) (length buffer)) as [L|L]; [lia|].
  rewrite nth_overflow in H by lia. discriminate.
Qed.

Lemma sc3At_in_range buffer j : sc3At buffer j = true -> (j + 3 <= length buffer)%nat.
Proof.
  intros H. apply sc3At_true in H. destruct H as (_ & _ & H).
  unfold at_ in H.
  destruct (Nat.lt_ge_cases (j + 2) (length buffer)) as [L|L]; [lia|].
  rewrite nth_overflow in H by lia. discriminate.
Qed.

Lemma findStartCode4_cases (buffer : list byte) :
  (findStartCode4 buffer = -1 /\
   forall j, sc4At buffer j = false) \/
  (exists i : nat,
     findStartCode4 buffer = Z.of_nat i /\
     (i + 4 <= length buffer)%nat /\ sc4At buffer i = true /\
     forall j, (j < i)%nat -> sc4At buffer j = false).
Proof.
  destruct (findStartCode4_loop_cases buffer (length buffer - 3) 0) as [E | (k & E)];
    fold (findStartCode4 buffer) in E.
  - left. split; [exact E|]. intros j.
    destruct (sc4At buffer j) eqn:S; [|reflexivity].
    pose proof (sc4At_in_range _ _ S) as L.
    destruct (findStartCode4_complete buffer j L S) as (k & E' & _). lia.
  - right. exists k. split; [exact E|]. apply findStartCode4_sound, E.
Qed.

Lemma findStartCode3_loop_cases buffer n : forall i,
  findStartCode3_loop buffer i n = -1 \/
  exists k : nat, findStartCode3_loop buffer i n = Z.of_nat k.
Proof.
  induction n as [|n IH]; intros i; cbn [findStartCode3_loop]; [left; reflexivity|].
  destruct ((0 <? i)%nat && is00 (at_ buffer (i - 1))); [apply IH|].
  destruct (sc3At buffer i); [right; eexists; reflexivity | apply IH].
Qed.

Lemma findStartCode3_loop_least buffer n : forall i (k : nat),
  (1 <= i)%nat ->
  findStartCode3_loop buffer i n = Z.of_nat k ->
  forall j, (i <= j < k)%nat -> ~ valid3 buffer j.
Proof.
  induction n as [|n IH]; intros i k Hi E j Hj; cbn [findStartCode3_loop] in E; [lia|].
  assert (Hpos : (0 <? i)%nat = true) by (apply Nat.ltb_lt; lia).
  rewrite Hpos in E. cbn [andb] in E.
  destruct (is00 (at_ buffer (i - 1))) eqn:Z0.
  - destruct (Nat.eq_dec j i) as [->|Hne].
    + intros (_ & _ & V). congruence.
    + apply (IH (S i) k); [lia | exact E | lia].
  - destruct (sc3At buffer i) eqn:S3.
    + apply Nat2Z.inj in E. lia.
    + destruct (Nat.eq_dec j i) as [->|Hne].
      * intros (_ & V & _). congruence.
      * apply (IH (S i) k); [lia | exact E | lia].
Qed.

Lemma findStartCode3_loop_none buffer n : forall i,
  (1 <= i)%nat ->
  findStartCode3_loop buffer i n = -1 ->
  forall j, (i <= j < i + n)%nat -> ~ valid3 buffer j.
Proof.
  induction n as [|n IH]; intros i Hi E j Hj; cbn [findStartCode3_loop] in E; [lia|].
  assert (Hpos : (0 <? i)%nat = true) by (apply Nat.ltb_lt; lia).
  rewrite Hpos in E. cbn [andb] in E.
  destruct (is00 (at_ buffer (i - 1))) eqn:Z0.
  - destruct (Nat.eq_dec j i) as [->|Hne].
    + intros (_ & _ & V). congruence.
    + apply (IH (S i)); [lia | exact E | lia].
  - destruct (sc3At buffer i) eqn:S3; [lia|].
    destruct (Nat.eq_dec j i) as [->|Hne].
    + intros (_ & V & _). congruence.
    + apply (IH (S i)); [lia | exact E | lia].
Qed.

Lemma findStartCode3_cases (buffer : list byte) :
  (findStartCode3 buffer = -1 /\ forall j, ~ valid3 buffer j) \/
  (exists i : nat,
     findStartCode3 buffer = Z.of_nat i /\
     (i + 3 <= length buffer)%nat /\ valid3 buffer i /\
     forall j, (j < i)%nat -> ~ valid3 buffer j).
Proof.
  unfold findStartCode3. cbv zeta.
  destruct (1 >? Z.of_nat (length buffer) - 3) eqn:G.
  - left. split; [reflexivity|]. intros j (Hj & S3 & _).
    apply sc3At_in_range in S3.
    pose proof (Zgt_cases 1 (Z.of_nat (length buffer) - 3)) as C.
    rewrite G in C. lia.
  - pose proof (Zgt_cases 1 (Z.of_nat (length buffer) - 3)) as C.
    rewrite G in C.
    destruct (findStartCode3_loop_cases buffer (length buffer - 3) 1) as [E | (k & E)].
    + left. split; [exact E|]. intros j V.
      pose proof V as (Hj & S3 & _). apply sc3At_in_range in S3.
      apply (findStartCode3_loop_none buffer _ 1 ltac:(lia) E j); [lia | exact V].
    + right. exists k. split; [exact E|].
      assert (E' : findStartCode3 buffer = Z.of_nat k).
      { unfold findStartCode3. cbv zeta. rewrite G. exact E. }
      destruct (findStartCode3_sound buffer k E') as (H1 & H2 & H3 & H4).
      split; [exact H2|]. split; [repeat split; assumption|].
      intros j Hj V. pose proof V as (Hj1 & _).
      apply (findStartCode3_loop_least buffer _ 1 k ltac:(lia) E j); [lia | exact V].
Qed.

(** X1.  [findStartCode4] returns the least index at which the four bytes
    00 00 00 01 stand: it returns [i] exactly when the code stands at [i]
    and at no smaller index, it returns -1 exactly when the code stands
    nowhere, and a result other than -1 lies between 0 and [len(buffer) -
    4]. *)
Theorem findStartCode4_least_index (buffer : list byte) :
  (forall i : nat,
     findStartCode4 buffer = Z.of_nat i <->
     sc4At buffer i = true /\ forall j, (j < i)%nat -> sc4At buffer j = false) /\
  (findStartCode4 buffer = -1 <-> forall j, sc4At buffer j = false) /\
  (findStartCode4 buffer = -1 \/
   0 <= findStartCode4 buffer <= Z.of_nat (length buffer) - 4).
Proof.
  destruct (findStartCode4_cases buffer) as [(E & N) | (k & E & L & S & M)].
  - split; [|split].
    + intros i. split; [lia|]. intros (Si & _). rewrite N in Si. discriminate.
    + split; [intros _; exact N | intros _; exact E].
    + left. exact E.
  - split; [|split].
    + intros i. split.
      * intros Ei. assert (i = k) as -> by lia. split; assumption.
      * intros (Si & Mi). rewrite E. f_equal.
        destruct (Nat.lt_trichotomy i k) as [Lt | [Eq | Gt]]; [|auto|].
        -- rewrite (M i Lt) in Si. discriminate.
        -- rewrite (Mi k Gt) in S. discriminate.
    + split; [lia|]. intros N. rewrite N in S. discriminate.
    + right. lia.
Qed.

(** X2.  [findStartCode3] returns the least index from 1 on at which 00 00
    01 stands with a byte other than 00 before it: a code at index 0, and
    a code that is the tail of a 4-byte code, are never reported.  It
    returns -1 exactly when there is no such index, and a result other
    than -1 lies between 1 and [len(buffer) - 3]. *)
Theorem findStartCode3_least_index (buffer : list byte) :
  (forall i : nat,
     findStartCode3 buffer = Z.of_nat i <->
     valid3 buffer i /\ forall j, (j < i)%nat -> ~ valid3 buffer j) /\
  (findStartCode3 buffer = -1 <-> forall j, ~ valid3 buffer j) /\
  (findStartCode3 buffer = -1 \/
   1 <= findStartCode3 buffer <= Z.of_nat (length buffer) - 3).
Proof.
  destruct (findStartCode3_cases buffer) as [(E & N) | (k & E & L & V & M)].
  - split; [|split].
    + intros i. split; [lia|]. intros (Vi & _). destruct (N i Vi).
    + split; [intros _; exact N | intros _; exact E].
    + left. exact E.
  - split; [|split].
    + intros i. split.
      * intros Ei. assert (i = k) as -> by lia. split; assumption.
      * intros (Vi & Mi). rewrite E. f_equal.
        destruct (Nat.lt_trichotomy i k) as [Lt | [Eq | Gt]]; [|auto|].
        -- destruct (M i Lt Vi).
        -- destruct (Mi k Gt V).
    + split; [lia|]. intros N. destruct (N k V).
    + right. destruct V as (V1 & _). lia.
Qed.

End StartCodeSearch.

(** ** The scan loop *)

Section ScanPanics.
Import AnnexB.

Lemma list_of_length_6 (l : list byte) :
  length l = 6%nat ->
  l = [at_ l 0; at_ l 1; at_ l 2; at_ l 3; at_ l 4; at_ l 5].
Proof.
  intros H. do 6 (destruct l as [|? l]; [discriminate|]).
  destruct l; [reflexivity | discriminate].
Qed.

(** X3.  One turn of the scan loop of [readFrames] panics (slice bounds
    out of range) for exactly one buffer, whatever the state of the
    source: the six bytes 00 00 01 00 00 01. *)
Theorem scanIteration_panics_iff (r : RTSPVideoSource) (buffer : list byte) (c : Z) :
  scanIteration r buffer c = ScanPanic <->
  buffer = [x00; x00; x01; x00; x00; x01].
Proof.
  split.
  2:{ intros ->. vm_compute. reflexivity. }
  unfold scanIteration.
  destruct (locateStartCode buffer) as [startCodeIdx startCodeLen] eqn:Loc.
  destruct (0 <=? startCodeIdx) eqn:G.
  2:{ destruct (firstIdrFlush r c) as [[? ?] ?]. discriminate. }
  apply Z.leb_le in G.
  destruct (locateStartCode_spec buffer _ _ Loc G) as (s & -> & Hs).
  rewrite Nat2Z.id.
  destruct (findPrevStartCode buffer s) as [[p plen]|] eqn:Prev.
  - destruct ((p <? s)%nat && (plen <? s - p)%nat) eqn:C.
    + destruct (if (plen + 1 <? length (slice buffer p s))%nat
                then processNAL r c (slice buffer p s) else (r, c, []))
        as [[r1 c1] ops1].
      unfold sliceFrom.
      destruct (s <=? length buffer)%nat eqn:L; [discriminate|].
      apply Nat.leb_gt in L.
      destruct Hs as [(_ & _ & L') | (_ & _ & L' & _)]; lia.
    + unfold sliceFrom.
      destruct (s + 4 <=? length buffer)%nat eqn:L; [discriminate|].
      apply Nat.leb_gt in L. intros _.
      destruct Hs as [(_ & _ & L') | (-> & S3 & L' & Hs1 & Hz)]; [lia|].
      (* a 3-byte code at the very end, no 4-byte code anywhere *)
      assert (No4 : forall j, sc4At buffer j = false).
      { unfold locateStartCode in Loc.
        destruct (findStartCode4_cases buffer) as [(E & N) | (i & E & _)];
          [exact N|].
        rewrite E in Loc. cbv zeta in Loc.
        destruct (0 <=? Z.of_nat i) eqn:Gi; [inversion Loc | lia]. }
      assert (E3 : findStartCode3 buffer = Z.of_nat s).
      { unfold locateStartCode in Loc. cbv zeta in Loc.
        destruct (0 <=? findStartCode4 buffer); [inversion Loc|].
        destruct (0 <=? findStartCode3 buffer); inversion Loc; reflexivity. }
      destruct (findPrevStartCode_spec buffer s p plen Prev) as (Hcode & Hle & _).
      assert (Hadj : (p + plen = s)%nat).
      { apply andb_false_iff in C.
        destruct Hcode as [(-> & _) | (-> & _)];
          destruct C as [C | C]; first [apply Nat.ltb_ge in C; lia]. }
      destruct Hcode as [(-> & P3) | (-> & P4)]; [|rewrite No4 in P4; discriminate].
      assert (p = 0%nat) as ->.
      { destruct (Nat.eq_dec p 0) as [|Hp]; [assumption|exfalso].
        destruct (findStartCode3_cases buffer) as [(E & _) | (i & E & _ & _ & Least)];
          [lia|].
        rewrite E in E3. apply Nat2Z.inj in E3. subst i.
        destruct (is00 (at_ buffer (p - 1))) eqn:Z0.
        - (* 00 before the earlier code: a 4-byte code *)
          assert (sc4At buffer (p - 1) = true) as S4.
          { apply sc4At_true. apply sc3At_true in P3. destruct P3 as (A & B & D).
            apply is00_true in Z0.
            replace (p - 1 + 1)%nat with p by lia.
            replace (p - 1 + 2)%nat with (p + 1)%nat by lia.
            replace (p - 1 + 3)%nat with (p + 2)%nat by lia. auto. }
          rewrite No4 in S4. discriminate.
        - apply (Least p ltac:(lia)). repeat split; [lia | exact P3 | exact Z0]. }
      cbn [Nat.add] in Hadj. subst s.
      assert (length buffer = 6%nat) as Len by lia.
      rewrite (list_of_length_6 buffer Len).
      apply sc3At_true in P3, S3. cbn [Nat.add] in P3, S3.
      destruct P3 as (-> & -> & ->). destruct S3 as (-> & -> & ->). reflexivity.
  - assert (Code : exists slen,
               Z.to_nat startCodeLen = slen /\ (3 <= slen)%nat /\
               (s + slen <= length buffer)%nat).
    { destruct Hs as [(-> & S4 & L) | (-> & S3 & L & _)].
      - exists 4%nat. repeat split; [lia | exact L].
      - exists 3%nat. repeat split; [lia | exact L]. }
    destruct Code as (slen & -> & Hslen & Hlen).
    destruct (findNextStartCode buffer (s + slen)) as [nx|] eqn:Next; [|discriminate].
    destruct (findNextStartCode_spec buffer _ _ Next) as (Hge & Hnx & _).
    destruct ((s <? nx)%nat && (slen <? nx - s)%nat) eqn:C.
    + destruct (if (slen + 1 <? length (slice buffer s nx))%nat
                then processNAL r c (slice buffer s nx) else (r, c, []))
        as [[r1 c1] ops1].
      unfold sliceFrom.
      destruct (nx <=? length buffer)%nat eqn:L; [discriminate|].
      apply Nat.leb_gt in L. lia.
    + unfold sliceFrom.
      destruct (s + 4 <=? length buffer)%nat eqn:L; [discriminate|].
      apply Nat.leb_gt in L. lia.
Qed.

End ScanPanics.

Section RunInvariant.
Import AnnexB.

Variable Inv : RTSPVideoSource -> Prop.
Variable Q : ChanOp -> Prop.

Hypothesis Hnal : forall r c nal n0 r' c' ops,
  Inv r -> wellDelimited nal n0 ->
  processNAL r c nal = (r', c', ops) -> Inv r' /\ Forall Q ops.
Hypothesis Hflush : forall r c r' c' ops,
  Inv r -> firstIdrFlush r c = (r', c', ops) -> Inv r' /\ Forall Q ops.
Hypothesis Hother : forall op,
  match op with Push _ _ => True | _ => Q op end.

Lemma scanIteration_lift r buffer c :
  Inv r ->
  match scanIteration r buffer c with
  | ScanPanic => True
  | ScanBreak r' _ ops => Inv r' /\ Forall Q ops
  | ScanNext r' _ _ ops => Inv r' /\ Forall Q ops
  end.
Proof.
  intros HI. unfold scanIteration.
  destruct (locateStartCode buffer) as [startCodeIdx startCodeLen] eqn:Loc.
  destruct (0 <=? startCodeIdx) eqn:G.
  2:{ destruct (firstIdrFlush r c) as [[r1 c1] ops1] eqn:F.
      eapply Hflush; eauto. }
  apply Z.leb_le in G.
  destruct (locateStartCode_spec buffer _ _ Loc G) as (s & -> & Hs).
  rewrite Nat2Z.id.
  assert (Code : exists slen,
             Z.to_nat startCodeLen = slen /\
             ((slen = 3%nat /\ sc3At buffer s = true) \/
              (slen = 4%nat /\ sc4At buffer s = true)) /\
             (s + slen <= length buffer)%nat).
  { destruct Hs as [(-> & S4 & L) | (-> & S3 & L & _)].
    - exists 4%nat. auto.
    - exists 3%nat. auto. }
  destruct Code as (slen & -> & Hcode & Hlen).
  destruct (findPrevStartCode buffer s) as [[p plen]|] eqn:Prev.
  - destruct ((p <? s)%nat && (plen <? s - p)%nat) eqn:C.
    + pose proof (length_slice buffer p s ltac:(lia)) as L.
      destruct (plen + 1 <? length (slice buffer p s))%nat eqn:C2.
      * rewrite L in C2. apply Nat.ltb_lt in C2.
        pose proof (wellDelimited_prev buffer s p plen Prev ltac:(lia) C2) as W.
        destruct (processNAL r c (slice buffer p s)) as [[r1 c1] ops1] eqn:P.
        destruct (sliceFrom buffer s); [|exact I].
        eapply Hnal; eauto.
      * destruct (sliceFrom buffer s); [|exact I].
        split; [exact HI | constructor].
    + destruct (sliceFrom buffer (s + 4)); [|exact I].
      split; [exact HI | constructor].
  - destruct (findNextStartCode buffer (s + slen)) as [nx|] eqn:Next.
    + destruct ((s <? nx)%nat && (slen <? nx - s)%nat) eqn:C.
      * destruct (findNextStartCode_spec buffer _ _ Next) as (_ & Hnx & _).
        pose proof (length_slice buffer s nx ltac:(lia)) as L.
        destruct (slen + 1 <? length (slice buffer s nx))%nat eqn:C2.
        -- rewrite L in C2. apply Nat.ltb_lt in C2.
           pose proof (wellDelimited_first buffer s slen nx Hcode Next C2) as W.
           destruct (processNAL r c (slice buffer s nx)) as [[r1 c1] ops1] eqn:P.
           destruct (sliceFrom buffer nx); [|exact I].
           eapply Hnal; eauto.
        -- destruct (sliceFrom buffer nx); [|exact I].
           split; [exact HI | constructor].
      * destruct (sliceFrom buffer (s + 4)); [|exact I].
        split; [exact HI | constructor].
    + split; [exact HI | constructor].
Qed.

Lemma scanLoop_lift fuel : forall r buffer c,
  Inv r ->
  match scanLoop fuel r buffer c with
  | LoopPanic ops => Forall Q ops
  | LoopDone r' _ _ ops => Inv r' /\ Forall Q ops
  | LoopOutOfFuel => True
  end.
Proof.
  induction fuel as [|fuel IH]; intros r buffer c HI; cbn [scanLoop];
    [exact I|].
  pose proof (scanIteration_lift r buffer c HI) as H.
  destruct (scanIteration r buffer c) as [|r1 c1 ops1|r1 b1 c1 ops1].
  - constructor.
  - exact H.
  - destruct H as (Inv1 & Ops1).
    specialize (IH r1 b1 c1 Inv1).
    destruct (scanLoop fuel r1 b1 c1) as [ops2|r2 b2 c2 ops2|].
    + apply Forall_app. split; assumption.
    + destruct IH as (Inv2 & Ops2). split; [exact Inv2|].
      apply Forall_app. split; assumption.
    + exact I.
Qed.

Lemma readFrames_loop_lift events : forall r buffer c ops,
  Inv r -> Forall Q ops ->
  Inv (run_src (readFrames_loop events r buffer c ops)) /\
  Forall Q (run_ops (readFrames_loop events r buffer c ops)).
Proof.
  induction events as [|ev events IH]; intros r buffer c ops HI Ops;
    cbn [readFrames_loop].
  - split; assumption.
  - destruct ev as [|chunk|err]; cbn [run_ops run_src].
    + split; [exact HI|]. apply Forall_app. split; [exact Ops|].
      constructor; [exact (Hother CloseChans) | constructor].
    + destruct (length chunk =? 0)%nat; [apply IH; assumption|].
      destruct (length (buffer ++ chunk) <? 20)%nat; [apply IH; assumption|].
      pose proof (scanLoop_lift (S (length (buffer ++ chunk))) r
                    (buffer ++ chunk) c HI) as H.
      unfold scanBuffer.
      destruct (scanLoop (S (length (buffer ++ chunk))) r (buffer ++ chunk) c)
        as [ops2|r2 b2 c2 ops2|]; cbn [run_ops run_src].
      * split; [exact HI|].
        apply Forall_app. split; [exact Ops|].
        apply Forall_app. split; [exact H|].
        constructor; [exact (Hother CloseChans) | constructor].
      * destruct H as (Inv2 & Ops2). apply IH; [exact Inv2|].
        apply Forall_app. split; assumption.
      * split; assumption.
    + split; [exact HI|].
      apply Forall_app. split; [exact Ops|].
      apply Forall_app. split; [constructor; [exact (Hother (ErrSend _)) | constructor]|].
      apply Forall_app. split;
        [|constructor; [exact (Hother CloseChans) | constructor]].
      destruct (0 <? length buffer)%nat;
        [constructor; [exact (Hother (Flush _)) | constructor] | constructor].
Qed.

End RunInvariant.

Section ScanProgress.
Import AnnexB.

Lemma truncateBuffer_suffix b : exists pre, b = pre ++ truncateBuffer b.
Proof.
  unfold truncateBuffer. destruct (512 * 1024 <? length b)%nat.
  - exists (firstn (length b - 256 * 1024) b). symmetry. apply firstn_skipn.
  - exists []. reflexivity.
Qed.

Lemma scanIteration_suffix r buffer c r' b' c' ops :
  scanIteration r buffer c = ScanNext r' b' c' ops ->
  exists pre, buffer = pre ++ b'.
Proof.
  unfold scanIteration.
  destruct (locateStartCode buffer) as [startCodeIdx startCodeLen].
  destruct (0 <=? startCodeIdx); [|destruct (firstIdrFlush r c) as [[? ?] ?];
                                    discriminate].
  set (s := Z.to_nat startCodeIdx).
  destruct (match findPrevStartCode buffer s with
            | Some (p, plen) => Some (p, s, plen, true)
            | None =>
                match findNextStartCode buffer (s + Z.to_nat startCodeLen) with
                | Some nx => Some (s, nx, Z.to_nat startCodeLen, false)
                | None => None
                end
            end) as [[[[nalStart nalEnd] plen] havePrev]|];
    [|discriminate].
  assert (Sfx : forall lo b1, sliceFrom buffer lo = Some b1 ->
                exists pre, buffer = pre ++ truncateBuffer b1).
  { intros lo b1 SL. apply sliceFrom_length in SL. destruct SL as (-> & _ & _).
    destruct (truncateBuffer_suffix (skipn lo buffer)) as (pre & E).
    exists (firstn lo buffer ++ pre). rewrite <- app_assoc, <- E.
    symmetry. apply firstn_skipn. }
  destruct ((nalStart <? nalEnd)%nat && (plen <? nalEnd - nalStart)%nat).
  - destruct (if (plen + 1 <? length (slice buffer nalStart nalEnd))%nat
              then processNAL r c (slice buffer nalStart nalEnd)
              else (r, c, [])) as [[r1 c1] ops1].
    destruct (sliceFrom buffer (if havePrev then s else nalEnd)) as [b1|] eqn:SL;
      [|discriminate].
    intros E; inversion E; subst. eapply Sfx; eauto.
  - destruct (sliceFrom buffer (s + 4)) as [b1|] eqn:SL; [|discriminate].
    intros E; inversion E; subst. eapply Sfx; eauto.
Qed.

Lemma scanLoop_suffix fuel : forall r buffer c r' b' c' ops,
  scanLoop fuel r buffer c = LoopDone r' b' c' ops ->
  exists pre, buffer = pre ++ b'.
Proof.
  induction fuel as [|fuel IH]; intros r buffer c r' b' c' ops; cbn [scanLoop];
    [discriminate|].
  destruct (scanIteration r buffer c) as [|r1 c1 ops1|r1 b1 c1 ops1] eqn:E;
    [discriminate| |].
  - intros E'; inversion E'; subst. exists []. reflexivity.
  - destruct (scanLoop fuel r1 b1 c1) as [|r2 b2 c2 ops2|] eqn:E2; try discriminate.
    intros E'; inversion E'; subst.
    apply scanIteration_suffix in E. destruct E as (pre1 & ->).
    apply IH in E2. destruct E2 as (pre2 & ->).
    exists (pre1 ++ pre2). apply app_assoc.
Qed.

(** X4.  The scan loop of [readFrames] always ends: it never runs on for
    lack of progress, and the buffer it leaves behind is a suffix of the
    buffer it was given, so bytes are only dropped from the front.  Hence
    a run of [readFrames] over any list of read events ends too. *)
Theorem scan_loop_terminates (r : RTSPVideoSource) (buffer : list byte) (c : Z) :
  match scanBuffer r buffer c with
  | LoopOutOfFuel => False
  | LoopDone _ buffer' _ _ => exists dropped, buffer = dropped ++ buffer'
  | LoopPanic _ => True
  end /\
  forall events, run_outcome (readFrames r c events) <> OutOfFuel.
Proof.
  split; [|intros events; apply readFrames_total].
  pose proof (scanBuffer_total r buffer c) as T.
  destruct (scanBuffer r buffer c) as [|r' b' c' ops|] eqn:E;
    [exact I | | congruence].
  eapply scanLoop_suffix. exact E.
Qed.

End ScanProgress.

(** ** The units of a run *)

Section ProcessNALCases.
Import AnnexB.

Lemma processNAL_aud r c nal :
  nalTypeOf nal = 9%N ->
  processNAL r c nal =
  if (0 <? length (currentFrame r))%nat
  then (set_currentFrame r [], incr c,
        [Push FinalisePush (emission r (finalisedFrame r))])
  else (r, c, []).
Proof.
  intros T. unfold processNAL, finalisedFrame. rewrite T. cbn [N.eqb Pos.eqb orb].
  destruct (0 <? length (currentFrame r))%nat eqn:L.
  - cbn [currentFrame set_currentFrame length Nat.ltb Nat.leb andb app negb].
    reflexivity.
  - rewrite L. reflexivity.
Qed.

Lemma processNAL_picture r c nal :
  nalTypeOf nal = 5%N \/ nalTypeOf nal = 1%N ->
  processNAL r c nal =
  if (0 <? length (currentFrame r))%nat
  then (set_currentFrame (set_currentFrame r []) nal, incr c,
        [Push FinalisePush (emission r (finalisedFrame r))])
  else (set_currentFrame r (currentFrame r ++ nal), c, []).
Proof.
  intros [T | T]; unfold processNAL, finalisedFrame; rewrite T;
    cbn [N.eqb Pos.eqb orb];
    destruct (0 <? length (currentFrame r))%nat eqn:L; reflexivity.
Qed.

Lemma processNAL_paramset r c nal :
  nalTypeOf nal = 7%N \/ nalTypeOf nal = 8%N ->
  processNAL r c nal =
  (let r0 := set_accessUnit r (accessUnit r ++ nal) in
   if fst (scanParamSets (accessUnit r0)) && snd (scanParamSets (accessUnit r0))
   then set_spsPps r0 (accessUnit r0) else r0, c, []).
Proof.
  intros [T | T]; unfold processNAL; rewrite T; cbn [N.eqb Pos.eqb orb];
    cbv zeta;
    destruct (scanParamSets (accessUnit (set_accessUnit r (accessUnit r ++ nal))));
    reflexivity.
Qed.

Lemma processNAL_other r c nal :
  nalTypeOf nal <> 9%N -> nalTypeOf nal <> 5%N -> nalTypeOf nal <> 1%N ->
  nalTypeOf nal <> 7%N -> nalTypeOf nal <> 8%N ->
  processNAL r c nal =
  if (0 <? length (currentFrame r))%nat
  then (set_currentFrame r (currentFrame r ++ nal), c, [])
  else (set_accessUnit r (accessUnit r ++ nal), c, []).
Proof.
  intros T9 T5 T1 T7 T8. unfold processNAL.
  apply N.eqb_neq in T9, T5, T1, T7, T8. rewrite T9, T5, T1, T7, T8.
  cbn [orb]. destruct (0 <? length (currentFrame r))%nat; reflexivity.
Qed.

(** Case analysis on the type of the unit. *)
Lemma nalType_cases (t : N) :
  t = 9%N \/ (t = 5%N \/ t = 1%N) \/ (t = 7%N \/ t = 8%N) \/
  (t <> 9%N /\ t <> 5%N /\ t <> 1%N /\ t <> 7%N /\ t <> 8%N).
Proof.
  destruct (N.eq_dec t 9); [auto|].
  destruct (N.eq_dec t 5); [auto|].
  destruct (N.eq_dec t 1); [auto|].
  destruct (N.eq_dec t 7); [auto|].
  destruct (N.eq_dec t 8); [auto|].
  right; right; right. auto.
Qed.

End ProcessNALCases.

Section ParserRuns.
Import AnnexB.

Lemma wellDelimited_length nal n0 : wellDelimited nal n0 -> (5 <= length nal)%nat.
Proof. intros ([(-> & _) | (-> & _)] & L & _); lia. Qed.

(** The scan loop sends finalised access units and nothing else. *)
Lemma scanLoop_only_pushes fuel r buffer c :
  match scanLoop fuel r buffer c with
  | LoopPanic ops | LoopDone _ _ _ ops =>
      Forall (fun op => exists site e, op = Push site e) ops
  | LoopOutOfFuel => True
  end.
Proof.
  pose proof (scanLoop_lift (fun _ => True)
                (fun op => exists site e, op = Push site e)) as H.
  specialize (H ltac:(
    intros r0 c0 nal n0 r' c' ops _ _;
    destruct (nalType_cases (nalTypeOf nal))
      as [T | [T | [T | (T9 & T5 & T1 & T7 & T8)]]];
    [ rewrite (processNAL_aud _ _ _ T);
      destruct (0 <? length (currentFrame r0))%nat; intros E; inversion E; subst;
        split; auto; repeat constructor; eauto
    | rewrite (processNAL_picture _ _ _ T);
      destruct (0 <? length (currentFrame r0))%nat; intros E; inversion E; subst;
        split; auto; repeat constructor; eauto
    | rewrite (processNAL_paramset _ _ _ T);
      intros E; inversion E; subst; split; auto
    | rewrite (processNAL_other _ _ _ T9 T5 T1 T7 T8);
      destruct (0 <? length (currentFrame r0))%nat; intros E; inversion E; subst;
        split; auto ])).
  specialize (H ltac:(
    intros r0 c0 r' c' ops _; unfold firstIdrFlush;
    destruct ((0 <? length (currentFrame r0))%nat && (0 <? length (spsPps r0))%nat
              && (c0 =? 0));
      [destruct (hasIDR_linear (currentFrame r0)
                 && (100 <? length (currentFrame r0))%nat)|];
      intros E; inversion E; subst; split; auto; repeat constructor; eauto)).
  specialize (H fuel r buffer c I).
  destruct (scanLoop fuel r buffer c); [exact H | exact (proj2 H) | exact I].
Qed.

Lemma pushes_are_not_flushes ops :
  Forall (fun op => exists site e, op = Push site e) ops ->
  Forall (fun op => forall f, op <> Flush f) ops.
Proof.
  apply Forall_impl. intros op (site & e & ->) f. discriminate.
Qed.

Lemma no_flush_inside (l before after : list ChanOp) frame :
  Forall (fun op => forall f, op <> Flush f) l ->
  l <> before ++ Flush frame :: after.
Proof.
  intros F E. subst l. apply Forall_app in F. destruct F as (_ & F).
  inversion F as [|x xs Hx _]; subst. exact (Hx frame eq_refl).
Qed.

Lemma split_at_flush (l1 : list ChanOp) : forall l2 f1 f2 t1 t2,
  Forall (fun op => forall f, op <> Flush f) l1 ->
  Forall (fun op => forall f, op <> Flush f) t1 ->
  l1 ++ Flush f1 :: t1 = l2 ++ Flush f2 :: t2 ->
  l1 = l2 /\ f1 = f2 /\ t1 = t2.
Proof.
  induction l1 as [|a l1 IH]; intros l2 f1 f2 t1 t2 F1 Ft E.
  - destruct l2 as [|b l2]; cbn [app] in E.
    + injection E as -> ->. auto.
    + injection E as <- E. exfalso. exact (no_flush_inside _ _ _ _ Ft E).
  - inversion F1 as [|x xs Ha F1']; subst.
    destruct l2 as [|b l2]; cbn [app] in E.
    + injection E as -> _. exfalso. exact (Ha f2 eq_refl).
    + injection E as <- E.
      destruct (IH _ _ _ _ _ F1' Ft E) as (-> & -> & ->). auto.
Qed.

(** A flush is the last frame of a run: it is the buffer as the read error
    found it, and only the closing of the channels follows. *)
Lemma flush_is_last events : forall r buffer c ops before frame after,
  Forall (fun op => forall f, op <> Flush f) ops ->
  run_ops (readFrames_loop events r buffer c ops) = before ++ Flush frame :: after ->
  frame = run_buffer (readFrames_loop events r buffer c ops) /\
  frame <> [] /\
  after = [CloseChans] /\
  run_outcome (readFrames_loop events r buffer c ops) = Returned /\
  Forall (fun op => forall f, op <> Flush f) before.
Proof.
  induction events as [|ev events IH]; intros r buffer c ops before frame after F;
    cbn [readFrames_loop].
  - cbn [run_ops]. intros E. exfalso. exact (no_flush_inside _ _ _ _ F E).
  - destruct ev as [|chunk|err]; cbn [run_ops run_buffer run_outcome].
    + intros E. exfalso. refine (no_flush_inside _ _ _ _ _ E).
      apply Forall_app. split; [exact F|].
      constructor; [discriminate | constructor].
    + destruct (length chunk =? 0)%nat; [apply IH; exact F|].
      destruct (length (buffer ++ chunk) <? 20)%nat; [apply IH; exact F|].
      pose proof (scanLoop_only_pushes (S (length (buffer ++ chunk))) r
                    (buffer ++ chunk) c) as H.
      unfold scanBuffer.
      destruct (scanLoop (S (length (buffer ++ chunk))) r (buffer ++ chunk) c)
        as [ops2|r2 b2 c2 ops2|]; cbn [run_ops run_buffer run_outcome].
      * intros E. exfalso. refine (no_flush_inside _ _ _ _ _ E).
        apply Forall_app. split; [exact F|].
        apply Forall_app. split; [apply pushes_are_not_flushes, H|].
        constructor; [discriminate | constructor].
      * apply IH. apply Forall_app. split; [exact F|].
        apply pushes_are_not_flushes, H.
      * intros E. exfalso. exact (no_flush_inside _ _ _ _ F E).
    + destruct (0 <? length buffer)%nat eqn:L; cbn [app].
      * intros E.
        assert (E' : (ops ++ [ErrSend (readErrorMessage err)])
                       ++ Flush buffer :: [CloseChans]
                     = before ++ Flush frame :: after)
          by (rewrite <- app_assoc; exact E).
        apply split_at_flush in E'.
        -- destruct E' as (<- & <- & <-).
           split; [reflexivity|]. split.
           { intros ->. discriminate L. }
           split; [reflexivity|]. split; [reflexivity|].
           apply Forall_app. split; [exact F|].
           constructor; [discriminate | constructor].
        -- apply Forall_app. split; [exact F|].
           constructor; [discriminate | constructor].
        -- constructor; [discriminate | constructor].
      * intros E. exfalso. refine (no_flush_inside _ _ _ _ _ E).
        apply Forall_app. split; [exact F|].
        constructor; [discriminate|]. constructor; [discriminate | constructor].
Qed.

(** X5.  Whatever the transcoder writes, the frames that [readFrames] puts
    on the frame channel, when started on a new source, are of two kinds.
    A finalised access unit begins with a start code (00 00 00 01 or
    00 00 01), as does the accumulated frame it was built from, and is
    that frame alone or with the cached parameter sets in front.  The
    flush made at a read error is the working buffer as the error found
    it, whatever its bytes are; it is not empty, no other flush comes
    before it, only the closing of the channels follows it, and the run
    has returned. *)
Theorem sent_frames_are_finalised_units_or_the_last_flush
  (url : string) (fps c : Z) (events : list ReadEvent) :
  let run := readFrames (NewRTSPVideoSource url fps) c events in
  pushes (fun _ e =>
            startsWithStartCode (em_frame e) = true /\
            startsWithStartCode (em_currentFrame e) = true /\
            (em_frame e = em_currentFrame e \/
             em_frame e = em_spsPps e ++ em_currentFrame e))
         (run_ops run) /\
  (forall before frame after,
     run_ops run = before ++ Flush frame :: after ->
     frame = run_buffer run /\
     frame <> [] /\
     after = [CloseChans] /\
     run_outcome run = Returned /\
     Forall (fun op => forall f, op <> Flush f) before).
Proof.
  cbv zeta. split.
  - pose proof (readFrames_loop_inv events (NewRTSPVideoSource url fps) [] c []
                  (stateInv_new url fps) (Forall_nil _)) as F.
    unfold pushes, readFrames. eapply Forall_impl; [|exact F].
    intros [site e| | |]; cbn [opOK]; auto.
    intros (H1 & H2 & _ & H3 & _). split; [exact H2|]. split; [exact H1|].
    destruct H3 as [H3 | (_ & _ & H3)]; auto.
  - intros before frame after E. unfold readFrames in *.
    exact (flush_is_last events _ _ _ _ _ _ _ (Forall_nil _) E).
Qed.

(** X6.  The send of the fallback branch of the access-unit-delimiter case
    of [readFrames] (the branch taken when the delimiter finds no current
    frame but an accumulated one) never happens, from any state of the
    source and for any input. *)
Theorem aud_fallback_send_is_unreachable
  (r : RTSPVideoSource) (c : Z) (events : list ReadEvent) :
  pushes (fun site _ => site <> AudPush) (run_ops (readFrames r c events)).
Proof.
  unfold pushes, readFrames.
  refine (proj2 (readFrames_loop_lift (fun _ => True) _ _ _ _ events r [] c []
                   I (Forall_nil _))).
  - intros r0 c0 nal n0 r' c' ops _ _.
    destruct (nalType_cases (nalTypeOf nal)) as [T | [T | [T | (T9 & T5 & T1 & T7 & T8)]]].
    + rewrite (processNAL_aud _ _ _ T).
      destruct (0 <? length (currentFrame r0))%nat; intros E; inversion E; subst;
        split; auto; repeat constructor; discriminate.
    + rewrite (processNAL_picture _ _ _ T).
      destruct (0 <? length (currentFrame r0))%nat; intros E; inversion E; subst;
        split; auto; repeat constructor; discriminate.
    + rewrite (processNAL_paramset _ _ _ T).
      intros E; inversion E; subst. split; auto.
    + rewrite (processNAL_other _ _ _ T9 T5 T1 T7 T8).
      destruct (0 <? length (currentFrame r0))%nat; intros E; inversion E; subst;
        split; auto.
  - intros r0 c0 r' c' ops _. unfold firstIdrFlush.
    destruct ((0 <? length (currentFrame r0))%nat && (0 <? length (spsPps r0))%nat
              && (c0 =? 0));
      [destruct (hasIDR_linear (currentFrame r0)
                 && (100 <? length (currentFrame r0))%nat)|];
      intros E; inversion E; subst; split; auto; repeat constructor; discriminate.
  - intros [site e| | |]; exact I.
Qed.

Lemma nalTypeOf_app a b : (5 <= length a)%nat -> nalTypeOf (a ++ b) = nalTypeOf a.
Proof.
  intros L. unfold nalTypeOf.
  rewrite length_app.
  assert (E5 : (5 <=? length a + length b)%nat = true) by (apply Nat.leb_le; lia).
  assert (E4 : (4 <=? length a + length b)%nat = true) by (apply Nat.leb_le; lia).
  assert (F5 : (5 <=? length a)%nat = true) by (apply Nat.leb_le; lia).
  assert (F4 : (4 <=? length a)%nat = true) by (apply Nat.leb_le; lia).
  rewrite E5, E4, F5, F4.
  rewrite !at_app_l by lia. reflexivity.
Qed.

(** X7.  Every access unit that [readFrames] finalises, when started on a
    new source, begins with a unit of type 5 (IDR slice) or 1 (non-IDR
    slice): parameter sets and other units never open a frame. *)
Theorem access_units_begin_with_a_picture_unit
  (url : string) (fps c : Z) (events : list ReadEvent) :
  pushes (fun _ e => pictureFirst (em_currentFrame e))
         (run_ops (readFrames (NewRTSPVideoSource url fps) c events)).
Proof.
  unfold pushes, readFrames.
  refine (proj2 (readFrames_loop_lift
                   (fun r => currentFrame r = [] \/ pictureFirst (currentFrame r))
                   _ _ _ _ events (NewRTSPVideoSource url fps) [] c []
                   (or_introl eq_refl) (Forall_nil _))).
  - intros r0 c0 nal n0 r' c' ops HI W.
    pose proof (wellDelimited_length _ _ W) as Ln.
    assert (Hb : (0 <? length (currentFrame r0))%nat = true ->
                 pictureFirst (currentFrame r0)).
    { intros L. destruct HI as [E | HI]; [|exact HI].
      rewrite E in L. discriminate. }
    assert (He : (0 <? length (currentFrame r0))%nat = false -> currentFrame r0 = []).
    { intros L. apply Nat.ltb_ge in L. destruct (currentFrame r0); [reflexivity|].
      simpl in L. lia. }
    destruct (nalType_cases (nalTypeOf nal)) as [T | [T | [T | (T9 & T5 & T1 & T7 & T8)]]].
    + rewrite (processNAL_aud _ _ _ T).
      destruct (0 <? length (currentFrame r0))%nat eqn:L; intros E; inversion E; subst.
      * split; [left; reflexivity|]. constructor; [apply (Hb eq_refl) | constructor].
      * split; [exact HI | constructor].
    + rewrite (processNAL_picture _ _ _ T).
      destruct (0 <? length (currentFrame r0))%nat eqn:L; intros E; inversion E; subst.
      * split; [right; split; [exact Ln | exact T]|].
        constructor; [apply (Hb eq_refl) | constructor].
      * split; [|constructor]. right. cbn [currentFrame set_currentFrame].
        rewrite (He eq_refl). split; [exact Ln | exact T].
    + rewrite (processNAL_paramset _ _ _ T). cbv zeta.
      destruct (fst (scanParamSets (accessUnit (set_accessUnit r0 (accessUnit r0 ++ nal))))
                && snd (scanParamSets (accessUnit (set_accessUnit r0 (accessUnit r0 ++ nal)))));
        intros E; inversion E; subst; split; [exact HI | constructor | exact HI | constructor].
    + rewrite (processNAL_other _ _ _ T9 T5 T1 T7 T8).
      destruct (0 <? length (currentFrame r0))%nat eqn:L; intros E; inversion E; subst.
      * split; [|constructor]. right. cbn [currentFrame set_currentFrame].
        destruct (Hb eq_refl) as (L5 & Ht).
        split; [rewrite length_app; lia|]. rewrite nalTypeOf_app by exact L5. exact Ht.
      * split; [exact HI | constructor].
  - intros r0 c0 r' c' ops HI. unfold firstIdrFlush.
    destruct ((0 <? length (currentFrame r0))%nat && (0 <? length (spsPps r0))%nat
              && (c0 =? 0)) eqn:G;
      [destruct (hasIDR_linear (currentFrame r0)
                 && (100 <? length (currentFrame r0))%nat)|];
      intros E; inversion E; subst; try (split; [exact HI | constructor]).
    split; [left; reflexivity|]. constructor; [|constructor].
    cbn [em_currentFrame emission].
    destruct HI as [E0 | HI]; [|exact HI].
    rewrite E0 in G. discriminate.
  - intros [site e| | |]; exact I.
Qed.

End ParserRuns.

Section Accumulator.
Import AnnexB.

(** X8.  The accumulator [accessUnit] of [readFrames] is never reset: when
    the cache [spsPps] is a prefix of it at the start, the accumulator at
    the end of any run extends the one at the start, and the cache is
    still a prefix of it. *)
Theorem parameter_set_accumulator_only_grows
  (r : RTSPVideoSource) (c : Z) (events : list ReadEvent) :
  spsPps r `prefix_of` accessUnit r ->
  accessUnit r `prefix_of` accessUnit (run_src (readFrames r c events)) /\
  spsPps (run_src (readFrames r c events))
    `prefix_of` accessUnit (run_src (readFrames r c events)).
Proof.
  intros H0. unfold readFrames.
  refine (proj1 (readFrames_loop_lift
                   (fun r' => accessUnit r `prefix_of` accessUnit r' /\
                              spsPps r' `prefix_of` accessUnit r')
                   (fun _ => True) _ _ _ events r [] c [] (conj _ H0) (Forall_nil _))).
  - intros r0 c0 nal n0 r' c' ops (Ha & Hs) _.
    assert (Ha' : accessUnit r `prefix_of` accessUnit r0 ++ nal).
    { etrans; [exact Ha | apply prefix_app_r; reflexivity]. }
    assert (Hs' : spsPps r0 `prefix_of` accessUnit r0 ++ nal).
    { etrans; [exact Hs | apply prefix_app_r; reflexivity]. }
    assert (All : Forall (fun _ : ChanOp => True) ops).
    { apply Forall_forall. auto. }
    destruct (nalType_cases (nalTypeOf nal)) as [T | [T | [T | (T9 & T5 & T1 & T7 & T8)]]].
    + rewrite (processNAL_aud _ _ _ T).
      destruct (0 <? length (currentFrame r0))%nat; intros E; inversion E; subst;
        (split; [split; assumption | exact All]).
    + rewrite (processNAL_picture _ _ _ T).
      destruct (0 <? length (currentFrame r0))%nat; intros E; inversion E; subst;
        (split; [split; assumption | exact All]).
    + rewrite (processNAL_paramset _ _ _ T). cbv zeta.
      destruct (fst (scanParamSets (accessUnit (set_accessUnit r0 (accessUnit r0 ++ nal))))
                && snd (scanParamSets (accessUnit (set_accessUnit r0 (accessUnit r0 ++ nal)))));
        intros E; inversion E; subst; (split; [|exact All]);
        cbn [accessUnit spsPps set_accessUnit set_spsPps]; split;
        first [assumption | reflexivity].
    + rewrite (processNAL_other _ _ _ T9 T5 T1 T7 T8).
      destruct (0 <? length (currentFrame r0))%nat; intros E; inversion E; subst;
        (split; [|exact All]); cbn [accessUnit spsPps set_accessUnit set_currentFrame];
        split; assumption.
  - intros r0 c0 r' c' ops HI. unfold firstIdrFlush.
    destruct ((0 <? length (currentFrame r0))%nat && (0 <? length (spsPps r0))%nat
              && (c0 =? 0));
      [destruct (hasIDR_linear (currentFrame r0)
                 && (100 <? length (currentFrame r0))%nat)|];
      intros E; inversion E; subst; (split; [exact HI|]); repeat constructor.
  - intros [site e| | |]; exact I.
  - reflexivity.
Qed.

Lemma parameter_set_accumulator_only_grows_witness :
  let SPS := [x00; x00; x00; x01; x67; x42; x00; x1f] in
  let PPS := [x00; x00; x00; x01; x68; xce; x3c; x80] in
  let IDR := [x00; x00; x00; x01; x65; x88; x84; x00; x10] in
  let P1 := [x00; x00; x00; x01; x41; x9a; x22; x33] in
  let r := NewRTSPVideoSource "rtsp://camera/stream" 15 in
  let events := [ReadChunk (SPS ++ PPS ++ IDR ++ P1 ++ SPS ++ PPS ++ IDR ++ P1)] in
  spsPps r `prefix_of` accessUnit r /\
  accessUnit (run_src (readFrames r 0 events)) = SPS ++ PPS ++ SPS ++ PPS /\
  spsPps (run_src (readFrames r 0 events))
    `prefix_of` accessUnit (run_src (readFrames r 0 events)).
Proof.
  intros SPS PPS IDR P1 r events.
  assert (H0 : spsPps r `prefix_of` accessUnit r) by (exists []; reflexivity).
  exact (conj H0
           (conj (eq_refl : accessUnit (run_src (readFrames r 0 events))
                            = SPS ++ PPS ++ SPS ++ PPS)
                 (proj2 (parameter_set_accumulator_only_grows r 0 events H0)))).
Defined.

End Accumulator.

Section NoStartCode.
Import AnnexB.

Lemma no_sc3_locate b :
  (forall i, sc3At b i = false) -> locateStartCode b = (-1, 0).
Proof.
  intros N. unfold locateStartCode. cbv zeta.
  destruct (findStartCode4_cases b) as [(E & _) | (i & _ & _ & S4 & _)].
  - rewrite E. cbn.
    destruct (findStartCode3_cases b) as [(E3 & _) | (i & _ & _ & (_ & S3 & _) & _)].
    + rewrite E3. reflexivity.
    + rewrite N in S3. discriminate.
  - apply sc4At_true in S4. destruct S4 as (_ & A & B & C).
    assert (S3 : sc3At b (i + 1) = true).
    { apply sc3At_true. rewrite <- !Nat.add_assoc. cbn [Nat.add]. auto. }
    rewrite N in S3. discriminate.
Qed.

Lemma no_sc3_prefix (a b : list byte) :
  (forall i, sc3At (a ++ b) i = false) -> forall i, sc3At a i = false.
Proof.
  intros N i. destruct (sc3At a i) eqn:S; [|reflexivity].
  pose proof (sc3At_in_range _ _ S) as L.
  rewrite <- (sc3At_app_l a b i L), N in S. discriminate.
Qed.

Lemma no_sc3_scanBuffer r b c :
  currentFrame r = [] -> (forall i, sc3At b i = false) ->
  scanBuffer r b c = LoopDone r b c [].
Proof.
  intros Hc N. unfold scanBuffer. cbn [scanLoop].
  unfold scanIteration. rewrite (no_sc3_locate b N). cbn.
  unfold firstIdrFlush. rewrite Hc. reflexivity.
Qed.

Lemma no_sc3_run chunks : forall r buffer c ops,
  currentFrame r = [] ->
  (forall i, sc3At (buffer ++ concat chunks) i = false) ->
  readFrames_loop (map ReadChunk chunks) r buffer c ops =
  MkRun r (buffer ++ concat chunks) c ops AwaitingRead.
Proof.
  induction chunks as [|chunk chunks IH]; intros r buffer c ops Hc N;
    cbn [map readFrames_loop concat].
  - rewrite app_nil_r. reflexivity.
  - cbn [concat] in N. destruct (length chunk =? 0)%nat eqn:L0.
    + apply Nat.eqb_eq in L0. destruct chunk; [|discriminate].
      cbn [app]. apply IH; [exact Hc|]. exact N.
    + rewrite app_assoc in N |- *.
      destruct (length (buffer ++ chunk) <? 20)%nat.
      * apply IH; assumption.
      * rewrite (no_sc3_scanBuffer r (buffer ++ chunk) c Hc
                   (no_sc3_prefix _ _ N)).
        rewrite app_nil_r. apply IH; assumption.
Qed.

(** X9.  When the bytes read so far hold no 00 00 01 anywhere,
    [readFrames] sends nothing and drops nothing: the source is unchanged,
    the counter is unchanged, and the buffer is the concatenation of all
    chunks read. *)
Theorem stream_without_start_code_is_only_buffered
  (url : string) (fps c : Z) (chunks : list (list byte)) :
  (forall i, sc3At (concat chunks) i = false) ->
  readFrames (NewRTSPVideoSource url fps) c (map ReadChunk chunks) =
  MkRun (NewRTSPVideoSource url fps) (concat chunks) c [] AwaitingRead.
Proof.
  intros N. unfold readFrames.
  exact (no_sc3_run chunks (NewRTSPVideoSource url fps) [] c [] eq_refl N).
Qed.

Lemma stream_without_start_code_is_only_buffered_witness :
  let chunks := [[x41; x9a]; []; [x22; x33; x00; x00]] in
  (forall i, sc3At (concat chunks) i = false) /\
  run_buffer (readFrames (NewRTSPVideoSource "rtsp://camera/stream" 15) 0
                (map ReadChunk chunks))
    = [x41; x9a; x22; x33; x00; x00] /\
  run_ops (readFrames (NewRTSPVideoSource "rtsp://camera/stream" 15) 0
             (map ReadChunk chunks)) = [].
Proof.
  intros chunks.
  assert (N : forall i, sc3At (concat chunks) i = false).
  { intros i. destruct (sc3At (concat chunks) i) eqn:S; [|reflexivity].
    pose proof (sc3At_in_range _ _ S) as L.
    do 4 (destruct i as [|i]; [vm_compute in S; discriminate S|]).
    cbn in L. lia. }
  pose proof (stream_without_start_code_is_only_buffered
                "rtsp://camera/stream" 15 0 chunks N) as E.
  exact (conj N (conj (f_equal run_buffer E) (f_equal run_ops E))).
Defined.

End NoStartCode.

Section Detection.
Import AnnexB.

Lemma hasIDR_linear_loop_complete frame j n0 :
  nalHeaderAt frame j n0 5 ->
  forall n i, (i <= j < i + n)%nat -> hasIDR_linear_loop frame i n = true.
Proof.
  intros (L & Hcode & Ht) n.
  induction n as [|n IH]; intros i Hi; [lia|]. cbn [hasIDR_linear_loop].
  destruct (Nat.eq_dec i j) as [->|Hne].
  - destruct Hcode as [(-> & S3) | (-> & S4)].
    + destruct (sc4At frame j) eqn:S4;
        [exfalso; eapply sc3At_sc4At_excl; eauto|].
      rewrite S3.
      assert ((j + 2 <? length frame)%nat = true) as -> by (apply Nat.ltb_lt; lia).
      assert ((j + 3 <? length frame)%nat = true) as -> by (apply Nat.ltb_lt; lia).
      rewrite Ht. reflexivity.
    + rewrite S4.
      assert ((j + 4 <? length frame)%nat = true) as -> by (apply Nat.ltb_lt; lia).
      rewrite Ht. reflexivity.
  - assert (R : hasIDR_linear_loop frame (S i) n = true) by (apply IH; lia).
    rewrite R.
    destruct (sc4At frame i);
      [destruct ((i + 4 <? length frame)%nat
                 && (nalTypeBits (at_ frame (i + 4)) =? 5)%N); reflexivity|].
    destruct ((i + 2 <? length frame)%nat && sc3At frame i); [|reflexivity].
    destruct ((i + 3 <? length frame)%nat
              && (nalTypeBits (at_ frame (i + 3)) =? 5)%N); reflexivity.
Qed.

(** X10.  The two IDR tests of [readFrames] against the bytes: the linear
    test (lines 1534-1553) holds exactly when some start code in the frame
    is followed by a header byte of type 5; the skipping test (lines
    1305-1337) never reports an IDR unit that the linear one does not, and
    on the frames that [readFrames] builds the two agree. *)
Theorem idr_detection_matches_the_bytes :
  (forall frame, hasIDR_linear frame = true <-> containsNal 5 frame) /\
  (forall frame, hasIDR_scan frame = true -> hasIDR_linear frame = true) /\
  (forall frame, frameInv frame -> hasIDR_scan frame = hasIDR_linear frame).
Proof.
  assert (Lin : forall frame, hasIDR_linear frame = true <-> containsNal 5 frame).
  { intros frame. split; [apply hasIDR_linear_sound|].
    intros (j & n0 & H). unfold hasIDR_linear.
    apply (hasIDR_linear_loop_complete frame j n0 H).
    destruct H as (L & [(-> & _) | (-> & _)] & _); lia. }
  split; [exact Lin|]. split.
  - intros frame H. apply Lin, hasIDR_scan_sound, H.
  - intros frame Hf.
    destruct (hasIDR_linear frame) eqn:E.
    + apply hasIDR_scan_complete; [exact Hf | apply Lin, E].
    + destruct (hasIDR_scan frame) eqn:E'; [|reflexivity].
      apply hasIDR_scan_sound, Lin in E'. congruence.
Qed.

Lemma headerTypeAt_spec au i t :
  headerTypeAt au i = Some t <-> exists n, nalHeaderAt au i n t.
Proof.
  unfold headerTypeAt, nalHeaderAt. split.
  - destruct (sc4At au i) eqn:S4.
    + destruct (i + 4 <? length au)%nat eqn:L; [|discriminate].
      intros E; inversion E; subst. apply Nat.ltb_lt in L.
      exists 4%nat. auto.
    + destruct (sc3At au i) eqn:S3; [|discriminate].
      destruct (i + 3 <? length au)%nat eqn:L; [|discriminate].
      intros E; inversion E; subst. apply Nat.ltb_lt in L.
      exists 3%nat. auto.
  - intros (n & L & [(-> & S3) | (-> & S4)] & Ht).
    + destruct (sc4At au i) eqn:S4;
        [exfalso; eapply sc3At_sc4At_excl; eauto|].
      rewrite S3. apply Nat.ltb_lt in L. rewrite L, Ht. reflexivity.
    + rewrite S4. apply Nat.ltb_lt in L. rewrite L, Ht. reflexivity.
Qed.

Lemma scanParamSets_loop_spec au n : forall i s p,
  (fst (scanParamSets_loop au i n s p) = true <->
   s = true \/ exists j, (i <= j < i + n)%nat /\ headerTypeAt au j = Some 7%N) /\
  (snd (scanParamSets_loop au i n s p) = true <->
   p = true \/ exists j, (i <= j < i + n)%nat /\ headerTypeAt au j = Some 8%N).
Proof.
  induction n as [|n IH]; intros i s p; cbn [scanParamSets_loop fst snd].
  - split; (split; [auto | intros [H | (j & Hj & _)]; [exact H | lia]]).
  - fold (headerTypeAt au i).
    assert (Shift : forall (t : N) (b : bool),
              (b = true \/ exists j, (S i <= j < S i + n)%nat /\ headerTypeAt au j = Some t) ->
              (b = true \/ exists j, (i <= j < i + S n)%nat /\ headerTypeAt au j = Some t)).
    { intros t b [H | (j & Hj & H)]; [left; exact H|].
      right. exists j. split; [lia | exact H]. }
    assert (Unshift : forall (t : N) (b : bool),
              headerTypeAt au i <> Some t ->
              (b = true \/ exists j, (i <= j < i + S n)%nat /\ headerTypeAt au j = Some t) ->
              (b = true \/ exists j, (S i <= j < S i + n)%nat /\ headerTypeAt au j = Some t)).
    { intros t b Hne [H | (j & Hj & H)]; [left; exact H|].
      destruct (Nat.eq_dec j i) as [->|]; [congruence|].
      right. exists j. split; [lia | exact H]. }
    destruct (headerTypeAt au i) as [t|] eqn:Hd.
    + destruct (t =? 7)%N eqn:T7; [|destruct (t =? 8)%N eqn:T8].
      * apply N.eqb_eq in T7. subst t.
        destruct (IH (S i) true p) as (I1 & I2). split.
        -- split; [intros _; right; exists i; split; [lia | exact Hd]|].
           intros _. apply I1. left. reflexivity.
        -- split; [intros H; apply Shift, I2, H|].
           intros H. apply I2, Unshift; [discriminate | exact H].
      * apply N.eqb_eq in T8. subst t.
        destruct (IH (S i) s true) as (I1 & I2). split.
        -- split; [intros H; apply Shift, I1, H|].
           intros H. apply I1, Unshift; [discriminate | exact H].
        -- split; [intros _; right; exists i; split; [lia | exact Hd]|].
           intros _. apply I2. left. reflexivity.
      * apply N.eqb_neq in T7, T8.
        destruct (IH (S i) s p) as (I1 & I2). split.
        -- split; [intros H; apply Shift, I1, H|].
           intros H. apply I1, Unshift; [congruence | exact H].
        -- split; [intros H; apply Shift, I2, H|].
           intros H. apply I2, Unshift; [congruence | exact H].
    + destruct (IH (S i) s p) as (I1 & I2). split.
      * split; [intros H; apply Shift, I1, H|].
        intros H. apply I1, Unshift; [discriminate | exact H].
      * split; [intros H; apply Shift, I2, H|].
        intros H. apply I2, Unshift; [discriminate | exact H].
Qed.

(** X11.  The scan that decides whether the accumulator holds both
    parameter sets reports an SPS exactly when some start code in the
    accumulator is followed by a header byte of type 7, and a PPS exactly
    when one is followed by a header byte of type 8. *)
Theorem parameter_set_scan_matches_the_bytes (au : list byte) :
  (fst (scanParamSets au) = true <-> containsNal 7 au) /\
  (snd (scanParamSets au) = true <-> containsNal 8 au).
Proof.
  unfold scanParamSets.
  destruct (scanParamSets_loop_spec au (length au - 3) 0 false false) as (H7 & H8).
  assert (R : forall t,
            (false = true \/
             exists j, (0 <= j < 0 + (length au - 3))%nat /\ headerTypeAt au j = Some t)
            <-> containsNal t au).
  { intros t. split.
    - intros [H | (j & _ & H)]; [discriminate|].
      apply headerTypeAt_spec in H. destruct H as (n & H). exists j, n. exact H.
    - intros (j & n & H). right. exists j. split.
      + destruct H as (L & [(-> & _) | (-> & _)] & _); lia.
      + apply headerTypeAt_spec. exists n. exact H. }
  split; [rewrite H7 | rewrite H8]; apply R.
Qed.

End Detection.

(** ** The reader *)

Section ReaderProperties.
Import Reader.

Lemma processFrame_ok g fr g' frame :
  processFrame g fr = Return g' (Ok frame) ->
  fr = Some frame /\ (8 <= length frame)%nat /\ firstFrameSent g' = true /\
  (firstFrameSent g = false -> hasSpsPps frame = true \/ 5 < frameReadCount g').
Proof.
  unfold processFrame. destruct fr as [f|]; [|discriminate].
  destruct (length f =? 0)%nat; [discriminate|].
  cbn [firstFrameSent frameReadCount].
  destruct (firstFrameSent g) eqn:Sent; cbn [negb andb].
  - destruct (length f <? 8)%nat eqn:L; [discriminate|].
    intros E; inversion E; subst. apply Nat.ltb_ge in L.
    cbn [firstFrameSent].
    split; [reflexivity|]. split; [exact L|]. split; [reflexivity|]. discriminate.
  - destruct (8 <=? length f)%nat eqn:L8.
    + destruct (hasSpsPps f) eqn:HS; cbn [negb andb].
      * destruct (length f <? 8)%nat eqn:L; [discriminate|].
        intros E; inversion E; subst. apply Nat.ltb_ge in L.
        cbn [firstFrameSent].
        split; [reflexivity|]. split; [exact L|]. split; [reflexivity|].
        intros _. left. exact HS.
      * destruct (incr (frameReadCount g) <=? 5) eqn:C; [discriminate|].
        destruct (length f <? 8)%nat eqn:L; [discriminate|].
        intros E; inversion E; subst. apply Nat.ltb_ge in L.
        cbn [firstFrameSent frameReadCount]. apply Z.leb_gt in C.
        split; [reflexivity|]. split; [exact L|]. split; [reflexivity|].
        intros _. right. exact C.
    + apply Nat.leb_gt in L8.
      assert ((length f <? 8)%nat = true) as -> by (apply Nat.ltb_lt; exact L8).
      discriminate.
Qed.

Lemma processFrame_retry g fr g' :
  processFrame g fr = Retry g' -> firstFrameSent g' = firstFrameSent g.
Proof.
  unfold processFrame. destruct fr as [f|]; [|discriminate].
  destruct (length f =? 0)%nat; [intros E; inversion E; reflexivity|].
  cbn [firstFrameSent frameReadCount].
  destruct (firstFrameSent g) eqn:Sent; cbn [negb andb].
  - destruct (length f <? 8)%nat; [|discriminate].
    intros E; inversion E; subst. reflexivity.
  - destruct (8 <=? length f)%nat eqn:L8.
    + destruct (negb (hasSpsPps f) && (incr (frameReadCount g) <=? 5)).
      * intros E; inversion E; subst. reflexivity.
      * apply Nat.leb_le in L8.
        assert ((length f <? 8)%nat = false) as -> by (apply Nat.ltb_ge; exact L8).
        discriminate.
    + destruct (length f <? 8)%nat; [|discriminate].
      intros E; inversion E; subst. reflexivity.
Qed.

Lemma errCase_no_frame g rv g' res :
  errCase g rv = g' -> g' <> Retry res /\ forall g2 f, g' <> Return g2 (Ok f).
Proof.
  intros <-. destruct rv as [|[e|]]; split; intros; discriminate.
Qed.

(** What a call of [select1] that hands a frame back or goes round again
    has received. *)
Lemma select1_ok g s1 g' frame :
  select1 g s1 = Return g' (Ok frame) ->
  receivedFrame (Selected s1) = Some frame /\
  (8 <= length frame)%nat /\ firstFrameSent g' = true /\
  (firstFrameSent g = false -> hasSpsPps frame = true \/ 5 < frameReadCount g').
Proof.
  assert (F : forall rv, frameCase g rv = Return g' (Ok frame) ->
              rv = RecvValue (Some frame) /\
              (8 <= length frame)%nat /\ firstFrameSent g' = true /\
              (firstFrameSent g = false ->
               hasSpsPps frame = true \/ 5 < frameReadCount g')).
  { intros [|fr]; cbn [frameCase]; [discriminate|].
    intros E. apply processFrame_ok in E. destruct E as (-> & E). auto. }
  assert (Er : forall rv, errCase g rv <> Return g' (Ok frame)).
  { intros [|[e|]]; discriminate. }
  destruct s1 as [rv|rv|s2]; cbn [select1].
  - intros E. apply F in E. destruct E as (-> & E). auto.
  - intros E. exfalso. exact (Er _ E).
  - destruct s2 as [rv|rv|isClosed s3]; cbn [select2].
    + intros E. apply F in E. destruct E as (-> & E). auto.
    + intros E. exfalso. exact (Er _ E).
    + destruct isClosed; [discriminate|].
      destruct s3 as [rv|rv|]; cbn [select3].
      * intros E. apply F in E. destruct E as (-> & E). auto.
      * intros E. exfalso. exact (Er _ E).
      * discriminate.
Qed.

Lemma select1_retry g s1 g' :
  select1 g s1 = Retry g' -> firstFrameSent g' = firstFrameSent g.
Proof.
  assert (F : forall rv, frameCase g rv = Retry g' ->
              firstFrameSent g' = firstFrameSent g).
  { intros [|fr]; cbn [frameCase]; [discriminate|]. apply processFrame_retry. }
  assert (Er : forall rv, errCase g rv <> Retry g').
  { intros [|[e|]]; discriminate. }
  destruct s1 as [rv|rv|s2]; cbn [select1]; [apply F | intros E; destruct (Er _ E) |].
  destruct s2 as [rv|rv|isClosed s3]; cbn [select2];
    [apply F | intros E; destruct (Er _ E) |].
  destruct isClosed; [discriminate|].
  destruct s3 as [rv|rv|]; cbn [select3];
    [apply F | intros E; destruct (Er _ E) | discriminate].
Qed.

(** X12.  A frame returned by [ReadFrame] was received from the frame
    channel in one of its attempts, has at least 8 bytes, and leaves
    [firstFrameSent] set; if no frame had been handed out before, the
    frame holds an SPS or a PPS header, or more than five frames had been
    read. *)
Theorem ReadFrame_hands_out_received_frames
  (g : Globals) (attempts : list Attempt) (g' : Globals) (frame : list byte) :
  ReadFrame g attempts = (g', Ok frame) ->
  In (Some frame) (map receivedFrame attempts) /\
  (8 <= length frame)%nat /\
  firstFrameSent g' = true /\
  (firstFrameSent g = false -> hasSpsPps frame = true \/ 5 < frameReadCount g').
Proof.
  revert g. induction attempts as [|a attempts IH]; intros g; cbn [ReadFrame];
    [discriminate|].
  destruct a as [|s1]; [discriminate|].
  destruct (select1 g s1) as [g1 res|g1] eqn:S.
  - intros E; inversion E; subst.
    apply select1_ok in S. destruct S as (R & S).
    split; [left; exact R | exact S].
  - intros E. apply IH in E. destruct E as (Hin & L & Sent & Gate).
    split; [right; exact Hin|]. split; [exact L|]. split; [exact Sent|].
    intros Hg. apply Gate. rewrite (select1_retry _ _ _ S). exact Hg.
Qed.

Lemma ReadFrame_hands_out_received_frames_witness :
  let P := [x00; x00; x00; x01; x41; x9a; x22; x33] in
  let K := [x00; x00; x00; x01; x67; x42; x00; x1f; x00; x00; x00; x01; x65; x88] in
  let g := MkGlobals 0 false in
  let attempts :=
    [Selected (S1Frame (RecvValue (Some P)));
     Selected (S1Timeout (S2Frame (RecvValue (Some [x00; x01]))));
     Selected (S1Frame (RecvValue (Some K)))] in
  ReadFrame g attempts = (MkGlobals 3 true, Ok K) /\
  In (Some K) (map receivedFrame attempts) /\
  (8 <= length K)%nat.
Proof.
  intros P K g attempts.
  assert (E : ReadFrame g attempts = (MkGlobals 3 true, Ok K)) by reflexivity.
  destruct (ReadFrame_hands_out_received_frames g attempts _ K E) as (H1 & H2 & _).
  exact (conj E (conj H1 H2)).
Defined.

Lemma gate_drops n : forall c frames,
  0 <= c -> c + Z.of_nat n <= 5 -> length frames = n ->
  Forall (fun f => (8 <= length f)%nat /\ hasSpsPps f = false) frames ->
  forall rest,
  ReadFrame (MkGlobals c false) (framesReceived frames ++ rest) =
  ReadFrame (MkGlobals (c + Z.of_nat n) false) rest.
Proof.
  induction n as [|n IH]; intros c frames Hc Hn Hl HF rest.
  - destruct frames; [|discriminate]. cbn. rewrite Z.add_0_r. reflexivity.
  - destruct frames as [|f frames]; [discriminate|].
    inversion HF as [|? ? (L & HS) HF']; subst.
    cbn [framesReceived map app ReadFrame select1 frameCase].
    unfold processFrame. cbn [firstFrameSent frameReadCount negb andb].
    assert ((length f =? 0)%nat = false) as -> by (apply Nat.eqb_neq; lia).
    assert ((8 <=? length f)%nat = true) as -> by (apply Nat.leb_le; lia).
    rewrite HS. cbn [negb andb].
    assert (incr c = c + 1) as ->.
    { unfold incr. assert ((c + 1 <? 2 ^ 63) = true) as -> by (apply Z.ltb_lt; lia).
      reflexivity. }
    assert ((c + 1 <=? 5) = true) as -> by (apply Z.leb_le; lia).
    fold (framesReceived frames).
    rewrite (IH (c + 1) frames ltac:(lia) ltac:(lia) ltac:(simpl in Hl; lia) HF' rest).
    f_equal. f_equal. lia.
Qed.

(** X13.  In a new process (read count 0, no frame handed out yet), when
    the frames received all have 8 bytes or more and none holds an SPS or
    PPS header, [ReadFrame] drops the first five of them and returns the
    sixth, with the read count at 6. *)
Theorem first_five_frames_without_parameter_sets_are_dropped
  (frames : list (list byte)) (sixth : list byte) :
  length frames = 5%nat ->
  Forall (fun f => (8 <= length f)%nat /\ hasSpsPps f = false) (frames ++ [sixth]) ->
  ReadFrame (MkGlobals 0 false) (framesReceived (frames ++ [sixth])) =
  (MkGlobals 6 true, Ok sixth).
Proof.
  intros Hl HF. apply Forall_app in HF. destruct HF as (HF & H6).
  inversion H6 as [|? ? (L & HS) _]; subst.
  unfold framesReceived. rewrite map_app. fold (framesReceived frames).
  rewrite (gate_drops 5 0 frames ltac:(lia) ltac:(lia) Hl HF).
  cbn [map ReadFrame select1 frameCase Z.add Z.of_nat Pos.of_succ_nat Pos.succ].
  unfold processFrame. cbn [firstFrameSent frameReadCount negb andb].
  assert ((length sixth =? 0)%nat = false) as -> by (apply Nat.eqb_neq; lia).
  assert ((8 <=? length sixth)%nat = true) as -> by (apply Nat.leb_le; lia).
  assert ((length sixth <? 8)%nat = false) as -> by (apply Nat.ltb_ge; lia).
  rewrite HS. reflexivity.
Qed.

Lemma first_five_frames_without_parameter_sets_are_dropped_witness :
  let P := [x00; x00; x00; x01; x41; x9a; x22; x33] in
  length [P; P; P; P; P] = 5%nat /\
  ReadFrame (MkGlobals 0 false) (framesReceived ([P; P; P; P; P] ++ [P])) =
  (MkGlobals 6 true, Ok P).
Proof.
  intros P.
  assert (HF : Forall (fun f => (8 <= length f)%nat /\ hasSpsPps f = false)
                 ([P; P; P; P; P] ++ [P])).
  { repeat constructor. }
  exact (conj eq_refl
           (first_five_frames_without_parameter_sets_are_dropped
              [P; P; P; P; P] P eq_refl HF)).
Defined.

End ReaderProperties.

(** ** The streaming loop *)

Section StreamingProperties.
Import Reader Capture Streaming.

Lemma quot_second_positive (f : Z) :
  f <> 0 -> (Z.quot Second f <=? 0) = negb ((1 <=? f) && (f <=? 1000000000)).
Proof.
  intros Hf. unfold Second.
  destruct (Z.lt_ge_cases f 0) as [Neg | Pos].
  - assert (Z.quot 1000000000 f <= 0).
    { rewrite <- (Z.opp_involutive f), Z.quot_opp_r by lia.
      assert (0 <= Z.quot 1000000000 (- f)) by (apply Z.quot_pos; lia). lia. }
    assert ((Z.quot 1000000000 f <=? 0) = true) as -> by (apply Z.leb_le; lia).
    assert ((1 <=? f) = false) as -> by (apply Z.leb_gt; lia). reflexivity.
  - assert (1 <= f) by lia.
    assert ((1 <=? f) = true) as -> by (apply Z.leb_le; lia). cbn [andb].
    rewrite Z.quot_div_nonneg by lia.
    destruct (Z.le_gt_cases f 1000000000) as [Le | Gt].
    + assert (1 <= 1000000000 / f) by (apply Z.div_le_lower_bound; lia).
      assert ((f <=? 1000000000) = true) as -> by (apply Z.leb_le; lia).
      apply Z.leb_gt. lia.
    + assert (1000000000 / f = 0) as -> by (apply Z.div_small; lia).
      assert ((f <=? 1000000000) = false) as -> by (apply Z.leb_gt; lia).
      reflexivity.
Qed.

(** X14.  The frame rate used is the source's, or the configured one when
    the source reports 0 or less.  When the source starts without error,
    [NewVideoCapturer] panics with a division by zero when that rate is 0
    and makes a capturer otherwise; [StartStreaming] panics with a
    division by zero when the rate is 0, panics in [time.NewTicker] when
    it is negative or above 1000000000, and enters its loop in all other
    cases. *)
Theorem publisher_needs_frame_rate_between_1_and_1e9
  (vc : VideoCapturer) (configFPS sourceFPS start : Z) (ts : list Tick) :
  let actualFPS := if sourceFPS <=? 0 then configFPS else sourceFPS in
  NewVideoCapturer configFPS None sourceFPS =
    (if actualFPS =? 0 then CreatedPanic
     else CreatedOk (MkCapturer (Z.quot Second actualFPS))) /\
  StartStreaming vc sourceFPS configFPS start ts =
    (if actualFPS =? 0 then PanicDivideByZero
     else if (1 <=? actualFPS) && (actualFPS <=? 1000000000)
          then ticks (MkLoop vc 0 0 start) ts
          else PanicTicker).
Proof.
  cbv zeta. split; [reflexivity|].
  unfold StartStreaming.
  set (f := if sourceFPS <=? 0 then configFPS else sourceFPS).
  destruct (f =? 0) eqn:E; [reflexivity|].
  apply Z.eqb_neq in E. rewrite (quot_second_positive f E).
  destruct ((1 <=? f) && (f <=? 1000000000)); reflexivity.
Qed.

Lemma incr_small n : n + 1 < 2 ^ 63 -> incr n = n + 1.
Proof.
  intros H. unfold incr.
  assert ((n + 1 <? 2 ^ 63) = true) as -> by (apply Z.ltb_lt; exact H).
  reflexivity.
Qed.

Lemma tick_stop st t why :
  tick st t = inr why ->
  loopFrameCount st = 0 /\ isFatalError (stopError why) = true.
Proof.
  unfold tick.
  destruct (CaptureFrame (capturer st) (read t) (sourceFPS t)) as [vc [sample|errStr]].
  - destruct (length (Data sample) =? 0)%nat; [discriminate|].
    destruct (writeFails t); discriminate.
  - destruct (isFatalError errStr) eqn:F; cbn [andb].
    + destruct (loopFrameCount st =? 0) eqn:Z0; cbn [andb].
      * apply Z.eqb_eq in Z0.
        destruct (60 <=? incr (errorCount st)).
        -- intros E; inversion E; subst. split; [exact Z0 | exact F].
        -- destruct (maxFrameWait <? clock t - lastFrameTime st); [|discriminate].
           intros E; inversion E; subst. split; [exact Z0 | exact F].
      * discriminate.
    + destruct ((loopFrameCount st =? 0)
                && (maxFrameWait <? clock t - lastFrameTime st)); discriminate.
Qed.

Lemma tick_frameCount st t st' :
  tick st t = inl st' ->
  loopFrameCount st' = loopFrameCount st \/
  loopFrameCount st' = incr (loopFrameCount st).
Proof.
  unfold tick.
  destruct (CaptureFrame (capturer st) (read t) (sourceFPS t)) as [vc [sample|errStr]].
  - destruct (length (Data sample) =? 0)%nat;
      [intros E; inversion E; subst; left; reflexivity|].
    destruct (writeFails t); intros E; inversion E; subst; auto.
  - destruct (isFatalError errStr && (loopFrameCount st =? 0)
              && (60 <=? incr (errorCount st))); [discriminate|].
    destruct ((loopFrameCount st =? 0)
              && (maxFrameWait <? clock t - lastFrameTime st)).
    + destruct (isFatalError errStr); [discriminate|].
      intros E; inversion E; subst; left; reflexivity.
    + intros E; inversion E; subst; left; reflexivity.
Qed.

(** X15.  The loop of [StartStreaming] returns only from a state in which
    no frame has been written yet, and only with an error that its own
    test classifies as fatal: once the frame count is above 0, nothing the
    source gives makes the loop return (as long as the frame count stays
    an [int]). *)
Theorem streaming_loop_stops_only_before_the_first_frame
  (st : Loop) (ts : list Tick) (why : Stop) :
  0 <= loopFrameCount st ->
  loopFrameCount st + Z.of_nat (length ts) < 2 ^ 63 ->
  ticks st ts = Returned why ->
  loopFrameCount st = 0 /\ isFatalError (stopError why) = true.
Proof.
  revert st. induction ts as [|t ts IH]; intros st H0 Hb; cbn [ticks];
    [discriminate|].
  destruct (tick st t) as [st'|why'] eqn:T.
  - intros E. cbn [length] in Hb.
    pose proof (tick_frameCount _ _ _ T) as C.
    assert (C' : loopFrameCount st <= loopFrameCount st' <= loopFrameCount st + 1).
    { destruct C as [-> | ->]; [lia|]. rewrite incr_small by lia. lia. }
    destruct (IH st' ltac:(lia) ltac:(lia) E) as (Z' & F).
    split; [lia | exact F].
  - intros E; inversion E; subst. apply (tick_stop _ _ _ T).
Qed.

Lemma streaming_loop_stops_only_before_the_first_frame_witness :
  let st := MkLoop (MkCapturer 66666666) 0 59 0 in
  let ts := [MkTick 1000 1000
               (ReadErr "frame channel closed - FFmpeg may have failed or exited")
               15 false] in
  ticks st ts =
    Returned (NoFramesAfterAttempts
      "failed to read frame from source: frame channel closed - FFmpeg may have failed or exited"
      60) /\
  loopFrameCount st = 0.
Proof.
  intros st ts.
  assert (E : ticks st ts =
    Returned (NoFramesAfterAttempts
      "failed to read frame from source: frame channel closed - FFmpeg may have failed or exited"
      60)) by (vm_compute; reflexivity).
  exact (conj E
           (proj1 (streaming_loop_stops_only_before_the_first_frame st ts _
                     ltac:(cbn; lia) ltac:(cbn; lia) E))).
Defined.

Lemma errCase_messages g rv g' msg :
  errCase g rv = Return g' (Err msg) ->
  rv = RecvValue (Some msg) \/
  ((msg = "error channel closed - FFmpeg may have failed or exited"%string
    /\ isFatalError (captureError msg) = true) \/
   (msg = "unexpected nil error from error channel"%string
    /\ isFatalError (captureError msg) = false)).
Proof.
  destruct rv as [|[e|]]; cbn [errCase]; intros E; inversion E; subst.
  - right. left. split; [reflexivity | vm_compute; reflexivity].
  - left. reflexivity.
  - right. right. split; [reflexivity | vm_compute; reflexivity].
Qed.

Lemma frameCase_messages g rv g' msg :
  frameCase g rv = Return g' (Err msg) ->
  (msg = "frame channel closed - FFmpeg may have failed or exited"%string \/
   msg = "frame channel closed"%string) /\
  isFatalError (captureError msg) = true.
Proof.
  destruct rv as [|fr]; cbn [frameCase].
  - intros E; inversion E; subst. split; [left; reflexivity | vm_compute; reflexivity].
  - unfold processFrame. destruct fr as [f|].
    + destruct (length f =? 0)%nat; [discriminate|].
      destruct (if negb (firstFrameSent
                           {| frameReadCount := incr (frameReadCount g);
                              firstFrameSent := firstFrameSent g |})
                   && (8 <=? length f)%nat
                then if negb (hasSpsPps f)
                        && (frameReadCount
                              {| frameReadCount := incr (frameReadCount g);
                                 firstFrameSent := firstFrameSent g |} <=? 5)
                     then None
                     else Some {| frameReadCount :=
                                    frameReadCount
                                      {| frameReadCount := incr (frameReadCount g);
                                         firstFrameSent := firstFrameSent g |};
                                  firstFrameSent := true |}
                else Some {| frameReadCount := incr (frameReadCount g);
                             firstFrameSent := firstFrameSent g |});
        [|discriminate].
      destruct (length f <? 8)%nat; discriminate.
    + intros E; inversion E; subst.
      split; [right; reflexivity | vm_compute; reflexivity].
Qed.

(** X16.  An error returned by [ReadFrame] is a message taken from the
    error channel or one of six fixed messages.  Wrapped by
    [CaptureFrame], the three channel-closed messages are fatal for
    [StartStreaming]; the messages RTSP source is closed, no frame
    available and unexpected nil error are not, so the streaming loop goes
    on after them. *)
Theorem reader_errors_and_their_fatality
  (g : Globals) (attempts : list Attempt) (g' : Globals) (msg : string) :
  ReadFrame g attempts = (g', Err msg) ->
  In (Some msg) (map receivedError attempts) \/
  ((msg = "frame channel closed - FFmpeg may have failed or exited"%string \/
    msg = "error channel closed - FFmpeg may have failed or exited"%string \/
    msg = "frame channel closed"%string) /\
   isFatalError (captureError msg) = true) \/
  ((msg = "RTSP source is closed"%string \/
    msg = "no frame available - FFmpeg may still be initializing or stream may be unavailable"%string \/
    msg = "unexpected nil error from error channel"%string) /\
   isFatalError (captureError msg) = false).
Proof.
  revert g. induction attempts as [|a attempts IH]; intros g; cbn [ReadFrame];
    [discriminate|].
  assert (Fr : forall rv, frameCase g rv = Return g' (Err msg) ->
          (msg = "frame channel closed - FFmpeg may have failed or exited"%string \/
           msg = "error channel closed - FFmpeg may have failed or exited"%string \/
           msg = "frame channel closed"%string) /\
          isFatalError (captureError msg) = true).
  { intros rv E. apply frameCase_messages in E. destruct E as ([-> | ->] & F); auto. }
  destruct a as [|s1].
  { intros E; inversion E; subst. right. right.
    split; [left; reflexivity | vm_compute; reflexivity]. }
  destruct (select1 g s1) as [g1 res|g1] eqn:S.
  2:{ intros E. destruct (IH _ E) as [H | H]; [left; right; exact H | right; exact H]. }
  intros E; inversion E; subst. clear E.
  destruct s1 as [rv|rv|s2]; cbn [select1] in S.
  - right. left. apply (Fr _ S).
  - apply errCase_messages in S. destruct S as [-> | [(-> & F) | (-> & F)]].
    + left. left. reflexivity.
    + right. left. auto.
    + right. right. auto.
  - destruct s2 as [rv|rv|isClosed s3]; cbn [select2] in S.
    + right. left. apply (Fr _ S).
    + apply errCase_messages in S. destruct S as [-> | [(-> & F) | (-> & F)]].
      * left. left. reflexivity.
      * right. left. auto.
      * right. right. auto.
    + destruct isClosed.
      { inversion S; subst. right. right.
        split; [left; reflexivity | vm_compute; reflexivity]. }
      destruct s3 as [rv|rv|]; cbn [select3] in S.
      * right. left. apply (Fr _ S).
      * apply errCase_messages in S. destruct S as [-> | [(-> & F) | (-> & F)]].
        -- left. left. reflexivity.
        -- right. left. auto.
        -- right. right. auto.
      * inversion S; subst. right. right.
        split; [right; left; reflexivity | vm_compute; reflexivity].
Qed.

Lemma reader_errors_and_their_fatality_witness :
  let g := MkGlobals 0 false in
  let attempts := [Selected (S1Timeout (S2Default false S3Default))] in
  let msg := "no frame available - FFmpeg may still be initializing or stream may be unavailable"%string in
  ReadFrame g attempts = (g, Err msg) /\
  (In (Some msg) (map receivedError attempts) \/
   ((msg = "frame channel closed - FFmpeg may have failed or exited"%string \/
     msg = "error channel closed - FFmpeg may have failed or exited"%string \/
     msg = "frame channel closed"%string) /\
    isFatalError (captureError msg) = true) \/
   ((msg = "RTSP source is closed"%string \/
     msg = "no frame available - FFmpeg may still be initializing or stream may be unavailable"%string \/
     msg = "unexpected nil error from error channel"%string) /\
    isFatalError (captureError msg) = false)).
Proof.
  intros g attempts msg.
  exact (conj eq_refl (reader_errors_and_their_fatality g attempts g msg eq_refl)).
Defined.

End StreamingProperties.

(** ** The transcoder *)

Section TranscoderProperties.
Import GoStrings Transcoder.

(** X17.  [detectBestEncoder] returns the parameter list that belongs to
    the encoder it names.  It names libx264 or an encoder that the ffmpeg
    on the path lists, on darwin, linux or windows only; h264_vaapi is
    named only on linux when a render device exists and the test encode
    succeeds. *)
Theorem detectBestEncoder_choice (h : Host) :
  snd (detectBestEncoder h) = paramsOf (fst (detectBestEncoder h)) /\
  (fst (detectBestEncoder h) = "libx264"%string \/
   (lookPath h "ffmpeg" = true /\
    hasEncoder h (fst (detectBestEncoder h)) = true /\
    In (GOOS h) ["darwin"; "linux"; "windows"]%string)) /\
  (fst (detectBestEncoder h) <> "h264_vaapi"%string \/
   (GOOS h = "linux"%string /\ existsb (stat h)
      ["/dev/dri/renderD128"; "/dev/dri/renderD129"; "/dev/dri/renderD130"]%string
      = true /\ vaapiTest h = true)).
Proof.
  unfold detectBestEncoder.
  destruct (lookPath h "ffmpeg") eqn:LP; cbn [negb];
    [|split; [reflexivity|]; split; [left; reflexivity | left; discriminate]].
  destruct (String.eqb (GOOS h) "darwin") eqn:D.
  { apply String.eqb_eq in D.
    destruct (hasEncoder h "h264_videotoolbox") eqn:E; cbn [fst snd].
    - split; [reflexivity|]. split; [|left; discriminate].
      right. rewrite D. cbn. repeat split; auto 10.
    - split; [reflexivity|]. split; [left; reflexivity | left; discriminate]. }
  destruct (String.eqb (GOOS h) "linux") eqn:L.
  { apply String.eqb_eq in L.
    destruct (hasEncoder h "h264_vaapi") eqn:E1; cbn [andb].
    - destruct (hasVAAPIDevice h) eqn:V.
      + cbn [fst snd]. split; [reflexivity|]. split.
        * right. rewrite L. cbn. repeat split; auto 10.
        * right. split; [exact L|]. unfold hasVAAPIDevice in V. cbv zeta in V.
          destruct (existsb (stat h) _); cbn [negb] in V; [|discriminate].
          destruct (vaapiTest h); cbn [negb] in V; [auto | discriminate].
      + destruct (hasEncoder h "h264_nvenc") eqn:E2; cbn [fst snd].
        * split; [reflexivity|]. split; [|left; discriminate].
          right. rewrite L. cbn. repeat split; auto 10.
        * split; [reflexivity|]. split; [left; reflexivity | left; discriminate].
    - destruct (hasEncoder h "h264_nvenc") eqn:E2; cbn [fst snd].
      * split; [reflexivity|]. split; [|left; discriminate].
        right. rewrite L. cbn. repeat split; auto 10.
      * split; [reflexivity|]. split; [left; reflexivity | left; discriminate]. }
  destruct (String.eqb (GOOS h) "windows") eqn:W.
  { apply String.eqb_eq in W.
    destruct (hasEncoder h "h264_nvenc") eqn:E1; cbn [fst snd].
    { split; [reflexivity|]. split; [|left; discriminate].
      right. rewrite W. cbn. repeat split; auto 10. }
    destruct (hasEncoder h "h264_amf") eqn:E2; cbn [fst snd].
    { split; [reflexivity|]. split; [|left; discriminate].
      right. rewrite W. cbn. repeat split; auto 10. }
    destruct (hasEncoder h "h264_qsv") eqn:E3; cbn [fst snd].
    { split; [reflexivity|]. split; [|left; discriminate].
      right. rewrite W. cbn. repeat split; auto 10. }
    split; [reflexivity|]. split; [left; reflexivity | left; discriminate]. }
  split; [reflexivity|]. split; [left; reflexivity | left; discriminate].
Qed.

Lemma Atoi_range s v : Atoi s = Some v -> - 2 ^ 63 <= v < 2 ^ 63.
Proof.
  unfold Atoi.
  destruct (match s with
            | String "-" s' => (true, s')
            | String "+" s' => (false, s')
            | _ => (false, s)
            end) as [neg digits].
  destruct digits as [|c d]; [discriminate|].
  destruct (parseDigits (String c d) 0) as [n|]; [|discriminate].
  cbv zeta.
  destruct ((- 2 ^ 63 <=? (if neg then - n else n))
            && ((if neg then - n else n) <? 2 ^ 63)) eqn:R; [|discriminate].
  intros E; inversion E; subst.
  apply andb_true_iff in R. destruct R as (R1 & R2).
  apply Z.leb_le in R1. apply Z.ltb_lt in R2. lia.
Qed.

Lemma scanParts_result parts : forall prev frameRate,
  scanParts prev parts frameRate = frameRate \/
  0 < scanParts prev parts frameRate < 2 ^ 63.
Proof.
  induction parts as [|part rest IH]; intros prev frameRate; cbn [scanParts];
    [left; reflexivity|].
  destruct prev as [p|]; [|apply IH].
  destruct (String.eqb part "fps" || String.eqb part "tbr"); [|apply IH].
  destruct (Atoi (TrimSuffix p ",")) as [fps|] eqn:A; [|apply IH].
  destruct (0 <? fps) eqn:P; [|apply IH].
  right. apply Z.ltb_lt in P. apply Atoi_range in A. lia.
Qed.

Lemma frameRateFromLine_result frameRate line :
  frameRateFromLine frameRate line = frameRate \/
  0 < frameRateFromLine frameRate line < 2 ^ 63.
Proof.
  unfold frameRateFromLine.
  destruct (0 <? String.length line)%nat; [|left; reflexivity].
  destruct (Contains line " fps" || Contains line " tbr"); [|left; reflexivity].
  apply scanParts_result.
Qed.

(** X18.  The frame-rate parse of the stderr goroutine of [Start] never
    makes the frame rate zero or negative: starting from a positive rate,
    the rate after any lines of output is positive (and an [int]). *)
Theorem stderr_keeps_the_frame_rate_positive (lines : list string) (frameRate : Z) :
  0 < frameRate < 2 ^ 63 ->
  0 < fold_left frameRateFromLine lines frameRate < 2 ^ 63.
Proof.
  revert frameRate. induction lines as [|line lines IH]; intros frameRate H;
    cbn [fold_left]; [exact H|].
  apply IH. destruct (frameRateFromLine_result frameRate line) as [-> | R];
    [exact H | exact R].
Qed.

Lemma stderr_keeps_the_frame_rate_positive_witness :
  let info := "  Stream #0:0: Video: hevc (Main), yuv420p(tv), 1920x1080, 25 fps, 25 tbr, 90k tbn"%string in
  let rate := "Input stream rate: 15 tbr"%string in
  frameRateFromLine 30 info = 30 /\
  fold_left frameRateFromLine [info; rate] 30 = 15 /\
  0 < fold_left frameRateFromLine [info; rate] 30 < 2 ^ 63.
Proof.
  intros info rate.
  exact (conj eq_refl
          (conj eq_refl
             (stderr_keeps_the_frame_rate_positive [info; rate] 30
                ltac:(split; reflexivity)))).
Defined.

Lemma stderrLines_first_critical mapToLower lines : forall acc,
  fold_left (Video.stderrLine mapToLower) lines acc =
  match acc with
  | Some e => Some e
  | None =>
      match find (Video.isCriticalLine mapToLower) lines with
      | Some line => Some (String.append "FFmpeg critical error: " line)
      | None => None
      end
  end.
Proof.
  induction lines as [|line lines IH]; intros acc; cbn [fold_left find].
  - destruct acc; reflexivity.
  - rewrite IH. unfold Video.stderrLine.
    destruct (Video.isCriticalLine mapToLower line); destruct acc; reflexivity.
Qed.

Lemma fatal_critical line :
  Streaming.isFatalError
    (Capture.captureError (String.append "FFmpeg critical error: " line)) = true.
Proof.
  assert (H : Video.Contains
                (Capture.captureError (String.append "FFmpeg critical error: " line))
                "FFmpeg critical error" = true).
  { apply Contains_app.
    exists "failed to read frame from source: "%string, (String.append ": " line).
    reflexivity. }
  unfold Streaming.isFatalError. rewrite H.
  destruct (Video.Contains _ "FFmpeg process exited"); reflexivity.
Qed.

Lemma fatal_exit err :
  Streaming.isFatalError
    (Capture.captureError
       (String.append "FFmpeg process exited with error: " err)) = true.
Proof.
  assert (H : Video.Contains
                (Capture.captureError
                   (String.append "FFmpeg process exited with error: " err))
                "FFmpeg process exited" = true).
  { apply Contains_app.
    exists "failed to read frame from source: "%string,
           (String.append " with error: " err).
    reflexivity. }
  unfold Streaming.isFatalError. rewrite H. reflexivity.
Qed.

(** X19.  When the transcoder exits, the exit goroutine of [Start] builds
    one error: the first critical line of the output read so far if there
    is one, else the message built from the result of [cmd.Wait];
    [StartStreaming] classifies that error, as wrapped by [CaptureFrame],
    as fatal.  The error is queued on the error channel exactly when the
    source is not closed and the channel is open and has room; in every
    other state the channel is left as it is and the error is dropped.
    The closed flag is not touched and stdout, if there is one, is closed.
    In particular, with the source open and the channel still empty, the
    channel then holds exactly that error. *)
Theorem transcoder_exit_error_is_fatal_and_queued_if_room
  (mapToLower : string -> string)
  (r : Video.RTSPVideoSource) (lines : list string) (waitErr : option string) :
  let storedError :=
    match find (Video.isCriticalLine mapToLower) lines with
    | Some line => String.append "FFmpeg critical error: " line
    | None => exitError None waitErr
    end in
  let r' :=
    monitorExit r (fold_left (Video.stderrLine mapToLower) lines None) waitErr in
  Streaming.isFatalError (Capture.captureError storedError) = true /\
  Video.errChan r' =
    (if Video.closed r || Video.chanClosed (Video.errChan r)
        || negb (length (Video.chanQueue (Video.errChan r))
                   <? Video.chanCap (Video.errChan r))%nat
     then Video.errChan r
     else Video.MkChan (Video.chanCap (Video.errChan r))
            (Video.chanQueue (Video.errChan r) ++ [storedError]) false) /\
  Video.closed r' = Video.closed r /\
  Video.stdout r' =
    match Video.stdout r with
    | Some _ => Some Video.PipeClosed
    | None => None
    end /\
  (Video.closed r = false -> Video.errChan r = Video.makeChan 1 ->
   Video.chanQueue (Video.errChan r') = [storedError]).
Proof.
  cbv zeta.
  rewrite (stderrLines_first_critical mapToLower lines None).
  set (storedError :=
         match find (Video.isCriticalLine mapToLower) lines with
         | Some line => String.append "FFmpeg critical error: " line
         | None => exitError None waitErr
         end).
  assert (E : exitError
                match find (Video.isCriticalLine mapToLower) lines with
                | Some line => Some (String.append "FFmpeg critical error: " line)
                | None => None
                end waitErr = storedError).
  { subst storedError.
    destruct (find (Video.isCriticalLine mapToLower) lines); destruct waitErr;
      reflexivity. }
  assert (F : Streaming.isFatalError (Capture.captureError storedError) = true).
  { subst storedError.
    destruct (find (Video.isCriticalLine mapToLower) lines) as [line|];
      [apply fatal_critical|].
    destruct waitErr as [err|]; cbn [exitError];
      [apply fatal_exit | vm_compute; reflexivity]. }
  assert (M : Video.errChan
                (monitorExit r
                   match find (Video.isCriticalLine mapToLower) lines with
                   | Some line =>
                       Some (String.append "FFmpeg critical error: " line)
                   | None => None
                   end waitErr) =
              (if Video.closed r || Video.chanClosed (Video.errChan r)
                  || negb (length (Video.chanQueue (Video.errChan r))
                             <? Video.chanCap (Video.errChan r))%nat
               then Video.errChan r
               else Video.MkChan (Video.chanCap (Video.errChan r))
                      (Video.chanQueue (Video.errChan r) ++ [storedError])
                      false)).
  { unfold monitorExit. cbv zeta. rewrite E. unfold Video.trySend.
    destruct r as [u cm o fc ec cl au sp sf cf fr].
    cbn [Video.closed Video.errChan Video.stdout].
    destruct cl; cbn [orb];
      [destruct o; reflexivity|].
    destruct ec as [cap q c]. cbn [Video.chanClosed Video.chanQueue Video.chanCap].
    destruct c; cbn [orb]; [destruct o; reflexivity|].
    destruct (length q <? cap)%nat; cbn [negb];
      destruct o; reflexivity. }
  split; [exact F|]. split; [exact M|].
  split; [|split].
  - unfold monitorExit. cbv zeta. unfold Video.trySend.
    destruct r as [u cm o fc ec cl au sp sf cf fr].
    cbn [Video.closed Video.errChan Video.stdout].
    destruct cl; [destruct o; reflexivity|].
    destruct (Video.chanClosed ec); [destruct o; reflexivity|].
    destruct (length (Video.chanQueue ec) <? Video.chanCap ec)%nat;
      destruct o; reflexivity.
  - unfold monitorExit. cbv zeta. unfold Video.trySend.
    destruct r as [u cm o fc ec cl au sp sf cf fr].
    cbn [Video.closed Video.errChan Video.stdout].
    destruct cl; [destruct o; reflexivity|].
    destruct (Video.chanClosed ec); [destruct o; reflexivity|].
    destruct (length (Video.chanQueue ec) <? Video.chanCap ec)%nat;
      destruct o; reflexivity.
  - intros Hc He. rewrite M, Hc, He. reflexivity.
Qed.

(** A run of the two goroutines on a source that was started: the exit
    error reaches an empty error channel, and is dropped when [readFrames]
    has already queued its own error. *)
Lemma transcoder_exit_error_is_fatal_and_queued_if_room_witness :
  let started :=
    Video.set_stdout
      (Video.set_cmd (Video.NewRTSPVideoSource "rtsp://camera/stream" 15)
                     (Some {| Video.Process := Some Video.ProcRunning |}))
      (Some Video.PipeOpen) in
  let eof := "FFmpeg stdout closed (EOF) - process may have exited"%string in
  let lines := ["Input #0, rtsp"; "rtsp://camera/stream: Connection refused";
                "Conversion failed!"]%string in
  Video.errChan
    (monitorExit started
       (fold_left (Video.stderrLine Video.lowerASCII) lines None)
       (Some "exit status 1"%string))
    = Video.MkChan 1
        ["FFmpeg critical error: rtsp://camera/stream: Connection refused"%string]
        false /\
  Video.errChan
    (monitorExit (set_errChan started (Video.MkChan 1 [eof] false))
       (fold_left (Video.stderrLine Video.lowerASCII) lines None)
       (Some "exit status 1"%string))
    = Video.MkChan 1 [eof] false.
Proof.
  intros started eof lines.
  split.
  - exact (proj1 (proj2 (transcoder_exit_error_is_fatal_and_queued_if_room
                           Video.lowerASCII started lines
                           (Some "exit status 1"%string)))).
  - exact (proj1 (proj2 (transcoder_exit_error_is_fatal_and_queued_if_room
                           Video.lowerASCII
                           (set_errChan started (Video.MkChan 1 [eof] false))
                           lines (Some "exit status 1"%string)))).
Defined.

End TranscoderProperties.

(** ** The mock source *)

Section MockSource.
Import Capture.

Lemma wrap64_small z : - 2 ^ 63 <= z < 2 ^ 63 -> wrap64 z = z.
Proof.
  intros H. unfold wrap64. rewrite Z.mod_small by lia. lia.
Qed.

Lemma paint_all (r g b : byte) (k : nat) : forall (done : list byte) (fuel : nat),
  (k <= fuel)%nat ->
  paint (done ++ repeat x00 (3 * k)) (length done) fuel r g b =
  Some (done ++ concat (repeat [r; g; b] k)).
Proof.
  induction k as [|k IH]; intros done fuel Hf.
  - cbn [Nat.mul repeat concat]. rewrite !app_nil_r.
    destruct fuel as [|fuel]; [reflexivity|].
    cbn [paint].
    assert ((length done <? length done)%nat = false) as ->
      by (apply Nat.ltb_irrefl).
    reflexivity.
  - destruct fuel as [|fuel]; [lia|].
    replace (3 * S k)%nat with (S (S (S (3 * k)))) by lia.
    cbn [repeat paint].
    rewrite length_app. cbn [length].
    assert ((length done <? length done + S (S (S (length (repeat x00 (3 * k))))))%nat
            = true) as -> by (apply Nat.ltb_lt; lia).
    assert ((length done + 2 <? length done + S (S (S (length (repeat x00 (3 * k))))))%nat
            = true) as -> by (apply Nat.ltb_lt; lia).
    rewrite (insert_app_r_alt done _ (length done)) by lia.
    rewrite Nat.sub_diag. cbn [insert list_insert].
    rewrite (insert_app_r_alt done _ (length done + 1)) by lia.
    replace (length done + 1 - length done)%nat with 1%nat by lia.
    cbn [insert list_insert].
    rewrite (insert_app_r_alt done _ (length done + 2)) by lia.
    replace (length done + 2 - length done)%nat with 2%nat by lia.
    cbn [insert list_insert].
    replace (done ++ r :: g :: b :: repeat x00 (3 * k))
      with ((done ++ [r; g; b]) ++ repeat x00 (3 * k))
      by (rewrite <- app_assoc; reflexivity).
    replace (length done + 3)%nat with (length (done ++ [r; g; b]))
      by (rewrite length_app; reflexivity).
    rewrite (IH (done ++ [r; g; b]) fuel ltac:(lia)).
    cbn [repeat concat]. rewrite <- app_assoc. reflexivity.
Qed.

(** X20.  The mock source's [ReadFrame] returns width*height pixels of one
    colour and adds 1 to the frame count: red (ff 00 00) when the new
    count divided by 30 is even, green (00 ff 00) otherwise. *)
Theorem mock_frame_is_one_colour (m : MockVideoSource) :
  0 <= width m * height m ->
  width m * height m * 3 < 2 ^ 63 ->
  - 2 ^ 63 <= frameCount m < 2 ^ 63 - 1 ->
  Mock_ReadFrame m =
  Some (MkMock (width m) (height m) (fps m) (frameCount m + 1),
        concat (repeat
                  (if Z.rem (Z.quot (frameCount m + 1) 30) 2 =? 0
                   then [xff; x00; x00] else [x00; xff; x00])
                  (Z.to_nat (width m * height m)))).
Proof.
  intros H0 H1 Hc. unfold Mock_ReadFrame.
  rewrite (wrap64_small (width m * height m)) by lia.
  rewrite (wrap64_small (width m * height m * 3)) by lia.
  rewrite (wrap64_small (frameCount m + 1)) by lia.
  assert ((width m * height m * 3 <? 0) = false) as -> by (apply Z.ltb_ge; lia).
  cbv zeta. cbn [frameCount].
  assert (E : Z.to_nat (width m * height m * 3)
              = (3 * Z.to_nat (width m * height m))%nat) by lia.
  rewrite E, repeat_length.
  pose proof (fun r g b =>
                paint_all r g b (Z.to_nat (width m * height m)) []
                  (3 * Z.to_nat (width m * height m)) ltac:(lia)) as P.
  cbn [app length] in P.
  destruct (Z.rem (Z.quot (frameCount m + 1) 30) 2 =? 0); rewrite P; reflexivity.
Qed.

Lemma mock_frame_is_one_colour_witness :
  let m := MkMock 2 1 30 29 in
  0 <= width m * height m /\
  Mock_ReadFrame m = Some (MkMock 2 1 30 30, [x00; xff; x00; x00; xff; x00]).
Proof.
  intros m.
  assert (H0 : 0 <= width m * height m) by (cbn; lia).
  exact (conj H0
           (mock_frame_is_one_colour m H0 ltac:(cbn; lia) ltac:(cbn; lia))).
Defined.

End MockSource.

(** ** Configuration *)

Section StringLemmas.
Import GoStrings Config.

Lemma rev_app_append s1 : forall s2,
  String.rev_app s1 s2 = String.append (String.rev s1) s2.
Proof.
  unfold String.rev. induction s1 as [|a s1 IH]; intros s2; cbn [String.rev_app].
  - reflexivity.
  - rewrite (IH (String a s2)), (IH (String a EmptyString)).
    rewrite append_assoc. reflexivity.
Qed.

Lemma rev_cons a s :
  String.rev (String a s) = String.append (String.rev s) (String a EmptyString).
Proof. unfold String.rev at 1. cbn [String.rev_app]. apply rev_app_append. Qed.

Lemma append_nil_r s : String.append s EmptyString = s.
Proof. induction s as [|a s IH]; [reflexivity|]. rewrite append_cons, IH. reflexivity. Qed.

Lemma rev_append a : forall b,
  String.rev (String.append a b) = String.append (String.rev b) (String.rev a).
Proof.
  induction a as [|c a IH]; intros b.
  - rewrite append_nil. cbn. rewrite append_nil_r. reflexivity.
  - rewrite append_cons, !rev_cons, IH, append_assoc. reflexivity.
Qed.

Lemma string_rev_involutive s : String.rev (String.rev s) = s.
Proof.
  induction s as [|a s IH]; [reflexivity|].
  rewrite rev_cons, rev_append, IH. reflexivity.
Qed.

Lemma string_rev_nil_inv s : String.rev s = EmptyString -> s = EmptyString.
Proof.
  intros H. rewrite <- (string_rev_involutive s), H. reflexivity.
Qed.

Lemma trimLeft_suffix f s : forall skip,
  exists pre, s = String.append pre (trimLeft f s skip).
Proof.
  induction s as [|c s IH]; intros skip; cbn [trimLeft].
  - exists EmptyString. reflexivity.
  - destruct skip as [|k].
    + destruct (f (String c s)) as [|k] eqn:F.
      * exists EmptyString. reflexivity.
      * destruct (IH k) as (pre & E). exists (String c pre).
        rewrite append_cons, <- E. reflexivity.
    + destruct (IH k) as (pre & E). exists (String c pre).
      rewrite append_cons, <- E. reflexivity.
Qed.

Lemma trimLeft_done f s : forall skip,
  trimLeft f s skip = EmptyString \/ f (trimLeft f s skip) = 0%nat.
Proof.
  induction s as [|c s IH]; intros skip; cbn [trimLeft].
  - left. reflexivity.
  - destruct skip as [|k]; [|apply IH].
    destruct (f (String c s)) as [|k] eqn:F; [right; exact F | apply IH].
Qed.

Lemma spaceLen_prefix x y :
  spaceLen x <> 0%nat -> spaceLen (String.append x y) = spaceLen x.
Proof.
  destruct x as [|c0 [|c1 [|c2 x]]]; rewrite ?append_cons, ?append_nil;
    cbn [spaceLen]; try congruence.
  - destruct (isAsciiSpace c0); [destruct y as [|? [|? ?]]; reflexivity | congruence].
  - destruct (isAsciiSpace c0); [reflexivity|].
    destruct (isSpaceRune2 c0 c1); [reflexivity|]. congruence.
Qed.

(** What [TrimSpace] leaves: nothing, or a string without white space at
    either end. *)
Lemma TrimSpace_trimmed s :
  TrimSpace s = EmptyString \/
  (startsWithSpace (TrimSpace s) = false /\ endsWithSpace (TrimSpace s) = false).
Proof.
  unfold TrimSpace, startsWithSpace, endsWithSpace.
  set (t := trimLeft spaceLen s 0).
  set (u := trimLeft spaceLenRev (String.rev t) 0).
  destruct (trimLeft_done spaceLenRev (String.rev t) 0) as [E | E]; fold u in E.
  { left. rewrite E. reflexivity. }
  destruct (String.eqb (String.rev u) EmptyString) eqn:N.
  { left. apply String.eqb_eq in N. exact N. }
  right. apply String.eqb_neq in N. split.
  - destruct (trimLeft_suffix spaceLenRev (String.rev t) 0) as (pre & P); fold u in P.
    assert (T : t = String.append (String.rev u) (String.rev pre)).
    { rewrite <- (string_rev_involutive t), P, rev_append. reflexivity. }
    destruct (trimLeft_done spaceLen s 0) as [Z | Z]; fold t in Z.
    + rewrite Z in T. destruct (String.rev u); [congruence | discriminate].
    + destruct (spaceLen (String.rev u)) as [|k] eqn:S; [reflexivity|].
      rewrite T, spaceLen_prefix in Z by congruence. congruence.
  - rewrite string_rev_involutive, E. reflexivity.
Qed.

End StringLemmas.

Section ConfigProperties.
Import GoStrings Config.

Variable explode : string -> list string.

Lemma parse_fold parts : forall acc,
  fold_left
    (fun result part =>
       let trimmed := TrimSpace part in
       if negb (String.eqb trimmed EmptyString)
       then result ++ [trimmed] else result)
    parts acc =
  acc ++ List.filter (fun t => negb (String.eqb t EmptyString)) (map TrimSpace parts).
Proof.
  induction parts as [|p parts IH]; intros acc; cbn [fold_left map List.filter].
  - rewrite app_nil_r. reflexivity.
  - cbv zeta. rewrite IH.
    destruct (negb (String.eqb (TrimSpace p) EmptyString)); [|reflexivity].
    rewrite <- app_assoc. reflexivity.
Qed.

(** X21.  Every entry returned by [parseStringSlice] is not empty, has no
    white space at either end, and is the trimmed form of a piece of the
    split value; the empty value gives no entries. *)
Theorem parseStringSlice_entries_are_trimmed (value separator : string) :
  Forall (fun entry =>
            entry <> EmptyString /\
            startsWithSpace entry = false /\ endsWithSpace entry = false /\
            In entry (map TrimSpace (Split explode value separator)))
         (parseStringSlice explode value separator) /\
  parseStringSlice explode EmptyString separator = [].
Proof.
  split; [|reflexivity].
  unfold parseStringSlice. destruct (String.eqb value EmptyString); [constructor|].
  cbv zeta. rewrite parse_fold. cbn [app].
  apply Forall_forall. intros entry Hin.
  apply filter_In in Hin. destruct Hin as (Hin & Hne).
  apply negb_true_iff, String.eqb_neq in Hne.
  split; [exact Hne|].
  apply in_map_iff in Hin. destruct Hin as (part & <- & Hpart).
  destruct (TrimSpace_trimmed part) as [E | (S1 & S2)]; [congruence|].
  split; [exact S1|]. split; [exact S2|].
  apply in_map_iff. exists part. auto.
Qed.

Lemma genSplit_commafree x : forall rest cur,
  Video.Contains x "," = false ->
  genSplit (String.append x rest) "," 0 cur = genSplit rest "," 0 (String.append cur x).
Proof.
  induction x as [|c x IH]; intros rest cur H.
  - rewrite append_nil, append_nil_r. reflexivity.
  - cbn [Video.Contains Video.HasPrefix] in H.
    apply orb_false_iff in H. destruct H as (H1 & H2).
    rewrite andb_true_r in H1.
    rewrite append_cons. cbn [genSplit Video.HasPrefix].
    rewrite H1. cbn [andb].
    rewrite (IH rest _ H2), append_assoc. reflexivity.
Qed.

Lemma genSplit_Join xs : forall x cur,
  Forall (fun y => Video.Contains y "," = false) (x :: xs) ->
  genSplit (Join (x :: xs) ",") "," 0 cur = String.append cur x :: xs.
Proof.
  induction xs as [|y xs IH]; intros x cur H; inversion H as [|? ? Hx Hxs]; subst.
  - cbn [Join]. rewrite <- (append_nil_r x) at 1.
    rewrite (genSplit_commafree x EmptyString cur Hx). reflexivity.
  - change (Join (x :: y :: xs) ",")
      with (String.append x (String.append "," (Join (y :: xs) ","))).
    rewrite (genSplit_commafree x _ cur Hx).
    change (String.append "," (Join (y :: xs) ","))
      with (String "," (Join (y :: xs) ",")).
    cbn [genSplit Video.HasPrefix String.length Nat.sub].
    rewrite Ascii.eqb_refl. cbn [andb].
    rewrite (IH y EmptyString Hxs), append_nil. reflexivity.
Qed.

Lemma Join_nonempty x xs sep : x <> EmptyString -> Join (x :: xs) sep <> EmptyString.
Proof.
  intros Hx. destruct xs as [|y xs]; cbn [Join]; [exact Hx|].
  destruct x as [|c x]; [congruence|]. rewrite append_cons. discriminate.
Qed.

Lemma filter_map_plain xs :
  Forall plainEntry xs ->
  List.filter (fun t => negb (String.eqb t EmptyString)) (map TrimSpace xs) = xs.
Proof.
  induction 1 as [|x xs (Hne & Ht & _) _ IH]; cbn [map List.filter]; [reflexivity|].
  rewrite Ht. apply String.eqb_neq in Hne. rewrite Hne. cbn [negb].
  rewrite IH. reflexivity.
Qed.

Lemma parseStringSlice_Join xs :
  Forall plainEntry xs -> parseStringSlice explode (Join xs ",") "," = xs.
Proof.
  intros H. destruct xs as [|x xs]; [reflexivity|].
  unfold parseStringSlice.
  assert (Hx : x <> EmptyString) by (inversion H as [|? ? (Hx & _) _]; exact Hx).
  pose proof (Join_nonempty x xs "," Hx) as N. apply String.eqb_neq in N.
  rewrite N. cbv zeta. rewrite parse_fold. cbn [app Split].
  rewrite (genSplit_Join xs x EmptyString).
  - rewrite append_nil. apply filter_map_plain, H.
  - eapply Forall_impl; [|exact H]. intros y (_ & _ & Hy). exact Hy.
Qed.

(** X22.  Lists of entries without commas, without white space at the ends
    and not empty, written comma-separated into ALLOWED_ORIGINS and
    ICE_SERVER_URLS, are read back by [LoadConfig] as they were written,
    and [CheckOrigin] accepts every origin so configured. *)
Theorem configured_lists_are_read_back (env : gmap string string) (origins urls : list string) :
  origins <> [] -> urls <> [] ->
  Forall plainEntry origins -> Forall plainEntry urls ->
  env !! "ALLOWED_ORIGINS"%string = Some (Join origins ",") ->
  env !! "ICE_SERVER_URLS"%string = Some (Join urls ",") ->
  AllowedOrigins (CORS (LoadConfig explode env)) = origins /\
  ICEServerURLs (WebRTC (LoadConfig explode env)) = urls /\
  Forall (fun origin =>
            Origin.CheckOrigin (AllowedOrigins (CORS (LoadConfig explode env))) origin
            = true) origins.
Proof.
  intros No Nu Ho Hu Eo Eu.
  assert (G : forall key def xs, xs <> [] -> Forall plainEntry xs ->
              env !! key = Some (Join xs ",") -> getEnv env key def = Join xs ",").
  { intros key def xs Nx Hx E. unfold getEnv, Getenv, default. rewrite E.
    cbn [from_option id]. cbv zeta.
    destruct xs as [|x xs]; [congruence|].
    assert (Hne : x <> EmptyString) by (inversion Hx as [|? ? (Hne & _) _]; exact Hne).
    pose proof (Join_nonempty x xs "," Hne) as N. apply String.eqb_neq in N.
    rewrite N. reflexivity. }
  assert (A : AllowedOrigins (CORS (LoadConfig explode env)) = origins).
  { cbn [LoadConfig CORS AllowedOrigins].
    rewrite (G _ _ origins No Ho Eo). apply parseStringSlice_Join, Ho. }
  split; [exact A|]. split.
  - cbn [LoadConfig WebRTC ICEServerURLs].
    rewrite (G _ _ urls Nu Hu Eu). apply parseStringSlice_Join, Hu.
  - rewrite A. apply Forall_forall. intros origin Hin.
    unfold Origin.CheckOrigin.
    destruct (String.eqb origin EmptyString); [reflexivity|].
    assert (existsb (fun a => String.eqb origin a) origins = true) as ->; [|reflexivity].
    apply existsb_exists. exists origin. split; [exact Hin | apply String.eqb_refl].
Qed.

End ConfigProperties.

Section ConfigRoundTrip.
Import GoStrings Config.

Lemma configured_lists_are_read_back_witness :
  AllowedOrigins (CORS (LoadConfig (fun _ => [])
    (<["ALLOWED_ORIGINS"%string := "https://viewer.example,https://admin.example"%string]>
       (<["ICE_SERVER_URLS"%string := "stun:stun.example:3478"%string]> ∅)))) =
    ["https://viewer.example"; "https://admin.example"]%string /\
  ICEServerURLs (WebRTC (LoadConfig (fun _ => [])
    (<["ALLOWED_ORIGINS"%string := "https://viewer.example,https://admin.example"%string]>
       (<["ICE_SERVER_URLS"%string := "stun:stun.example:3478"%string]> ∅)))) =
    ["stun:stun.example:3478"]%string.
Proof.
  assert (Ho : Forall plainEntry
                 ["https://viewer.example"; "https://admin.example"]%string).
  { repeat constructor; discriminate. }
  assert (Hu : Forall plainEntry ["stun:stun.example:3478"]%string).
  { repeat constructor; discriminate. }
  destruct (configured_lists_are_read_back (fun _ => [])
              (<["ALLOWED_ORIGINS"%string := "https://viewer.example,https://admin.example"%string]>
                 (<["ICE_SERVER_URLS"%string := "stun:stun.example:3478"%string]> ∅))
              ["https://viewer.example"; "https://admin.example"]%string
              ["stun:stun.example:3478"]%string
              ltac:(discriminate) ltac:(discriminate) Ho Hu eq_refl eq_refl)
    as (A & B & _).
  exact (conj A B).
Defined.

End ConfigRoundTrip.

Section Decimal.
Import GoStrings Config.

Lemma parseDigits_numeral u : forall acc,
  parseDigits (NilEmpty.string_of_uint u) acc = Some (decimalValue u acc).
Proof.
  induction u as [|u IH|u IH|u IH|u IH|u IH|u IH|u IH|u IH|u IH|u IH]; intros acc;
    cbn [NilEmpty.string_of_uint parseDigits decimalValue]; [reflexivity|..];
    match goal with
    | |- context [digitOf ?c] =>
        let v := eval vm_compute in (digitOf c) in
        change (digitOf c) with v
    end; apply IH.
Qed.

Lemma of_uint_acc_value u : forall acc,
  Z.pos (Pos.of_uint_acc u acc) = decimalValue u (Z.pos acc).
Proof.
  induction u as [|u IH|u IH|u IH|u IH|u IH|u IH|u IH|u IH|u IH|u IH]; intros acc;
    cbn [Pos.of_uint_acc decimalValue]; [reflexivity|..];
    rewrite IH; f_equal; lia.
Qed.

Lemma of_uint_value u : Z.of_N (Pos.of_uint u) = decimalValue u 0.
Proof.
  induction u as [|u IH|u IH|u IH|u IH|u IH|u IH|u IH|u IH|u IH|u IH];
    cbn [Pos.of_uint decimalValue Z.of_N]; [reflexivity|exact IH|..];
    rewrite of_uint_acc_value; reflexivity.
Qed.

Lemma to_uint_value p : decimalValue (Pos.to_uint p) 0 = Z.pos p.
Proof. rewrite <- of_uint_value, Unsigned.of_to. reflexivity. Qed.

(** A numeral that is not empty is spelled with a digit first. *)
Lemma numeral_head u :
  u <> Decimal.Nil ->
  exists c rest,
    NilEmpty.string_of_uint u = String c rest /\
    Ascii.eqb c "-" = false /\ Ascii.eqb c "+" = false.
Proof.
  destruct u; [congruence|..]; intros _; cbn [NilEmpty.string_of_uint];
    eexists _, _; repeat split; reflexivity.
Qed.

Lemma Atoi_unsigned c rest :
  Ascii.eqb c "-" = false -> Ascii.eqb c "+" = false ->
  Atoi (String c rest) =
  match parseDigits (String c rest) 0 with
  | Some n => if (- 2 ^ 63 <=? n) && (n <? 2 ^ 63) then Some n else None
  | None => None
  end.
Proof.
  intros Hm Hp. unfold Atoi.
  assert (E : match String c rest with
              | String "-" s' => (true, s')
              | String "+" s' => (false, s')
              | _ => (false, String c rest)
              end = (false, String c rest)).
  { destruct c as [[] [] [] [] [] [] [] []]; try reflexivity; discriminate. }
  rewrite E. reflexivity.
Qed.

Lemma NilZero_nonnil u :
  u <> Decimal.Nil -> NilZero.string_of_uint u = NilEmpty.string_of_uint u.
Proof. destruct u; [congruence|..]; reflexivity. Qed.

Lemma Atoi_Itoa n : - 2 ^ 63 <= n < 2 ^ 63 -> Atoi (Itoa n) = Some n.
Proof.
  intros R. unfold Itoa. destruct n as [|p|p]; [reflexivity| |].
  - cbn [Z.to_int NilZero.string_of_int].
    pose proof (Unsigned.to_uint_nonnil p) as NN.
    rewrite (NilZero_nonnil _ NN).
    destruct (numeral_head (Pos.to_uint p) NN) as (c & rest & E & Hm & Hp).
    rewrite E, (Atoi_unsigned c rest Hm Hp), <- E, parseDigits_numeral, to_uint_value.
    assert (((- 2 ^ 63 <=? Z.pos p) && (Z.pos p <? 2 ^ 63)) = true) as ->
      by (apply andb_true_iff; split; [apply Z.leb_le | apply Z.ltb_lt]; lia).
    reflexivity.
  - cbn [Z.to_int NilZero.string_of_int].
    pose proof (Unsigned.to_uint_nonnil p) as NN.
    rewrite (NilZero_nonnil _ NN).
    destruct (numeral_head (Pos.to_uint p) NN) as (c & rest & E & Hm & Hp).
    unfold Atoi. rewrite E, <- E, parseDigits_numeral, to_uint_value.
    cbv zeta.
    assert (((- 2 ^ 63 <=? - Z.pos p) && (- Z.pos p <? 2 ^ 63)) = true) as ->
      by (apply andb_true_iff; split; [apply Z.leb_le | apply Z.ltb_lt]; lia).
    reflexivity.
Qed.

Lemma Itoa_nonempty n : Itoa n <> EmptyString.
Proof.
  unfold Itoa. destruct n as [|p|p]; [discriminate| |discriminate].
  cbn [Z.to_int NilZero.string_of_int].
  pose proof (Unsigned.to_uint_nonnil p) as NN.
  rewrite (NilZero_nonnil _ NN).
  destruct (numeral_head (Pos.to_uint p) NN) as (c & rest & E & _).
  rewrite E. discriminate.
Qed.

(** X23.  [getEnvAsInt] reads back every [int] written in decimal, and
    gives the default for a variable that is unset, empty, or not a
    decimal [int]: text with white space, a hexadecimal prefix, a
    fraction, an underscore, a value of 2^63, or a lone sign. *)
Theorem getEnvAsInt_reads_decimal_or_default
  (env : gmap string string) (key : string) (defaultValue n : Z) :
  - 2 ^ 63 <= n < 2 ^ 63 ->
  getEnvAsInt (<[key := Itoa n]> env) key defaultValue = n /\
  getEnvAsInt (delete key env) key defaultValue = defaultValue /\
  getEnvAsInt (<[key := EmptyString]> env) key defaultValue = defaultValue /\
  Forall (fun text =>
            getEnvAsInt (<[key := text]> env) key defaultValue = defaultValue)
         [" 8080"; "8080 "; "0x50"; "80.0"; "8_080"; "9223372036854775808"; "+"]%string.
Proof.
  intros R. unfold getEnvAsInt, Getenv.
  rewrite lookup_insert_eq, lookup_delete_eq, lookup_insert_eq. cbn [default from_option id].
  split.
  - pose proof (Itoa_nonempty n) as N. apply String.eqb_neq in N.
    unfold default. cbn [from_option id]. rewrite N, (Atoi_Itoa n R). reflexivity.
  - split; [reflexivity|]. split; [reflexivity|].
    repeat constructor; rewrite lookup_insert_eq; reflexivity.
Qed.

Lemma getEnvAsInt_reads_decimal_or_default_witness :
  getEnvAsInt (<["VIDEO_FPS"%string := "15"%string]> ∅) "VIDEO_FPS" 30 = 15 /\
  getEnvAsInt (<["VIDEO_FPS"%string := "fifteen"%string]> ∅) "VIDEO_FPS" 30 = 30.
Proof.
  split.
  - exact (proj1 (getEnvAsInt_reads_decimal_or_default ∅ "VIDEO_FPS" 30 15
                    ltac:(split; [apply Z.leb_le | apply Z.ltb_lt]; reflexivity))).
  - reflexivity.
Defined.

End Decimal.

(** ** ICE servers and origins *)

Section IceProperties.
Import Ice Origin.

Lemma fold_left_snoc {A B} (f : B -> A) (l : list B) : forall init,
  fold_left (fun acc x => acc ++ [f x]) l init = init ++ map f l.
Proof.
  induction l as [|x l IH]; intros init; cbn [fold_left map].
  - rewrite app_nil_r. reflexivity.
  - rewrite IH, <- app_assoc. reflexivity.
Qed.

(** X24.  [GetWebRTCConfiguration] returns one server per configured URL,
    in order, followed by the three default STUN servers when at most one
    URL is configured; the configuration always has at least two servers. *)
Theorem ice_servers_of_the_configuration (cfg : Config.WebRTCConfig) :
  GetWebRTCConfiguration cfg =
    map (iceServerOf cfg) (Config.ICEServerURLs cfg) ++
    (if (length (Config.ICEServerURLs cfg) <=? 1)%nat
     then map (fun stunURL => MkICEServer [stunURL] EmptyString None)
              DefaultSTUNServers
     else []) /\
  (2 <= length (GetWebRTCConfiguration cfg))%nat.
Proof.
  assert (E : GetWebRTCConfiguration cfg =
    map (iceServerOf cfg) (Config.ICEServerURLs cfg) ++
    (if (length (Config.ICEServerURLs cfg) <=? 1)%nat
     then map (fun stunURL => MkICEServer [stunURL] EmptyString None)
              DefaultSTUNServers
     else [])).
  { unfold GetWebRTCConfiguration. cbv zeta.
    rewrite (fold_left_snoc (iceServerOf cfg) (Config.ICEServerURLs cfg) []).
    cbn [app]. rewrite length_map.
    destruct (length (Config.ICEServerURLs cfg) <=? 1)%nat.
    - rewrite (fold_left_snoc (fun stunURL => MkICEServer [stunURL] EmptyString None)).
      reflexivity.
    - rewrite app_nil_r. reflexivity. }
  split; [exact E|]. rewrite E, length_app, length_map.
  destruct (length (Config.ICEServerURLs cfg) <=? 1)%nat eqn:L.
  - cbn. lia.
  - apply Nat.leb_gt in L. cbn. lia.
Qed.

End IceProperties.

Section OriginProperties.
Import Ice Origin.
Import Video.

(** X25.  [CheckOrigin] accepts exactly: a request without an origin, an
    origin of the allowed list, and any origin that begins with http:// or
    https:// and contains localhost or 127.0.0.1 anywhere.  In particular
    an origin such as http://localhost.attacker.example is accepted
    whatever the allowed list is. *)
Theorem origin_check_accepts (allowedOrigins : list string) (origin : string) :
  (CheckOrigin allowedOrigins origin = true <->
   origin = EmptyString \/ In origin allowedOrigins \/
   ((Contains origin "localhost" = true \/ Contains origin "127.0.0.1" = true) /\
    (HasPrefix origin "http://" = true \/ HasPrefix origin "https://" = true))) /\
  (forall host rest : string,
     CheckOrigin allowedOrigins
       (String.append "http://" (String.append host (String.append "localhost" rest)))
     = true).
Proof.
  assert (Iff : forall o,
    CheckOrigin allowedOrigins o = true <->
    o = EmptyString \/ In o allowedOrigins \/
    ((Contains o "localhost" = true \/ Contains o "127.0.0.1" = true) /\
     (HasPrefix o "http://" = true \/ HasPrefix o "https://" = true))).
  { intros o. unfold CheckOrigin.
    destruct (String.eqb o EmptyString) eqn:E0.
    { apply String.eqb_eq in E0. split; auto. }
    apply String.eqb_neq in E0. cbn [negb].
    destruct (existsb (fun allowedOrigin => String.eqb o allowedOrigin) allowedOrigins)
      eqn:Ex.
    { apply existsb_exists in Ex. destruct Ex as (a & Hin & Ha).
      apply String.eqb_eq in Ha. subst a. split; auto. }
    assert (Nin : ~ In o allowedOrigins).
    { intros Hin. assert (existsb (fun a => String.eqb o a) allowedOrigins = true).
      { apply existsb_exists. exists o. split; [exact Hin | apply String.eqb_refl]. }
      congruence. }
    destruct ((Contains o "localhost" || Contains o "127.0.0.1")
              && (HasPrefix o "http://" || HasPrefix o "https://")) eqn:C.
    - split; [|reflexivity]. intros _. right. right.
      apply andb_true_iff in C. destruct C as (C1 & C2).
      apply orb_true_iff in C1, C2. auto.
    - split; [discriminate|]. intros [H | [H | (C1 & C2)]]; [congruence | tauto |].
      apply orb_true_iff in C1, C2. rewrite C1, C2 in C. discriminate. }
  split; [apply Iff|]. intros host rest. apply Iff. right. right. split.
  - left. apply Contains_app.
    exists (String.append "http://" host), rest.
    rewrite <- !append_assoc. reflexivity.
  - left. apply HasPrefix_app. eexists. reflexivity.
Qed.

End OriginProperties.

(** ** The broker's table *)

Section ClientIds.
Import Json Signaling.

Lemma to_uint_nat_nonnil n : Nat.to_uint n <> Decimal.Nil.
Proof.
  intros H. pose proof (DecimalNat.Unsigned.of_to n) as E. rewrite H in E.
  cbn in E. subst n. discriminate H.
Qed.

Lemma clientIDOf_inj n m : clientIDOf n = clientIDOf m -> n = m.
Proof.
  unfold clientIDOf. intros H.
  apply (inj (String.append "client-")) in H.
  apply DecimalNat.Unsigned.to_uint_inj.
  pose proof (NilZero.usu _ (to_uint_nat_nonnil n)) as En.
  pose proof (NilZero.usu _ (to_uint_nat_nonnil m)) as Em.
  rewrite H in En. congruence.
Qed.

(** X26.  The id that [HandleWebSocket] gives a new client depends only on
    the number of clients in the table: two tables give the same id
    exactly when they have the same size (so an id is reused after a
    client leaves).  The client's send channel has 256 slots. *)
Theorem client_id_is_the_table_size (clients1 clients2 : gmap ptr Client) :
  (clientID (HandleWebSocket clients1) = clientID (HandleWebSocket clients2) <->
   size clients1 = size clients2) /\
  send (HandleWebSocket clients1) = Video.makeChan 256.
Proof.
  split; [|reflexivity]. cbn [HandleWebSocket clientID]. split.
  - intros H. apply clientIDOf_inj in H. lia.
  - intros ->. reflexivity.
Qed.

End ClientIds.

Section RunLoop.
Import Json Signaling Publisher.


(** The notification loop closes the send channel of exactly the clients
    it removes from the table. *)
Lemma Run_register_closes_what_it_removes
  (clients : gmap ptr Client) (p : ptr) (client : Client) (q : ptr) (cl : Client) :
  q <> p -> clients !! q = Some cl ->
  Run_register_closed clients p client !! q =
  match Run_register clients p client !! q with
  | Some _ => None
  | None => Some (closeSend cl)
  end.
Proof.
  intros Hq E. unfold Run_register_closed, Run_register.
  destruct (0 <? size clients)%nat eqn:S.
  - rewrite closedExcept_lookup, broadcastExcept_lookup,
      lookup_insert_ne, E by congruence.
    destruct (decide (q = p)); [congruence|].
    destruct (trySend (send cl) (viewerConnected (clientID client))); reflexivity.
  - apply Nat.ltb_ge in S. assert (size clients = 0%nat) as Z by lia.
    apply map_size_empty_iff in Z. subst clients.
    rewrite lookup_empty in E. discriminate.
Qed.

End RunLoop.

Section ViewerTableProperties.
Import ViewerTable.

Lemma removeViewer_accounted t clientID : accounted t -> accounted (removeViewer t clientID).
Proof.
  intros (L & Inj & B). unfold removeViewer.
  destruct (viewers t !! clientID) as [q|] eqn:E; [|exact (conj L (conj Inj B))].
  unfold closePC.
  split; [|split]; cbn [viewers live made].
  - intros pc. rewrite elem_of_difference, elem_of_singleton, L. split.
    + intros ((id & H) & N). exists id.
      rewrite lookup_delete_ne; [exact H|]. intros <-. congruence.
    + intros (id & H).
      destruct (decide (clientID = id)) as [<-|Hne];
        [rewrite lookup_delete_eq in H; discriminate|].
      rewrite lookup_delete_ne in H by exact Hne.
      split; [eauto|]. intros ->. apply Hne. exact (Inj _ _ _ E H).
  - intros id1 id2 pc H1 H2.
    destruct (decide (clientID = id1)) as [<-|N1];
      [rewrite lookup_delete_eq in H1; discriminate|].
    destruct (decide (clientID = id2)) as [<-|N2];
      [rewrite lookup_delete_eq in H2; discriminate|].
    rewrite lookup_delete_ne in H1, H2 by assumption. eauto.
  - intros pc H. apply elem_of_difference in H. apply B, H.
Qed.

Lemma closeAll_accounted t : accounted t -> accounted (closeAll t).
Proof.
  intros (L & Inj & B). unfold closeAll. split; [|split]; cbn [viewers live made].
  - intros pc. rewrite elem_of_difference, elem_of_map_img, L. split.
    + intros (H & N). contradiction.
    + intros (id & H). rewrite lookup_empty in H. discriminate.
  - intros id1 id2 pc H. rewrite lookup_empty in H. discriminate.
  - intros pc H. apply elem_of_difference in H. apply B, H.
Qed.

Lemma acts_accounted l : forall t, accounted t -> accounted (acts t l).
Proof.
  induction l as [|a l IH]; intros t H; [exact H|].
  apply IH. destruct a; [apply removeViewer_accounted | apply closeAll_accounted]; exact H.
Qed.

Lemma act_pending t a clientID pc : pending t clientID pc -> pending (act t a) clientID pc.
Proof.
  intros (L & F & Inj & B & N). destruct a as [id'|]; cbn [act].
  - unfold removeViewer.
    destruct (viewers t !! id') as [q|] eqn:E;
      [|exact (conj L (conj F (conj Inj (conj B N))))].
    unfold closePC.
    assert (Hq : q <> pc) by (intros ->; exact (F _ E)).
    split; [|split; [|split; [|split]]]; cbn [viewers live made].
    + intros x. rewrite elem_of_difference, elem_of_singleton, L. split.
      * intros ([-> | (id & H)] & Nx); [left; reflexivity|].
        right. exists id. rewrite lookup_delete_ne; [exact H|].
        intros <-. congruence.
      * intros [-> | (id & H)].
        -- split; [left; reflexivity | congruence].
        -- destruct (decide (id' = id)) as [<-|Hne];
             [rewrite lookup_delete_eq in H; discriminate|].
           rewrite lookup_delete_ne in H by exact Hne.
           split; [right; eauto|]. intros ->. apply Hne. exact (Inj _ _ _ E H).
    + intros id H.
      destruct (decide (id' = id)) as [<-|Hne];
        [rewrite lookup_delete_eq in H; discriminate|].
      rewrite lookup_delete_ne in H by exact Hne. exact (F _ H).
    + intros id1 id2 x H1 H2.
      destruct (decide (id' = id1)) as [<-|N1];
        [rewrite lookup_delete_eq in H1; discriminate|].
      destruct (decide (id' = id2)) as [<-|N2];
        [rewrite lookup_delete_eq in H2; discriminate|].
      rewrite lookup_delete_ne in H1, H2 by assumption. eauto.
    + intros x H. apply elem_of_difference in H. apply B, H.
    + destruct (decide (id' = clientID)) as [<-|Hne];
        [apply lookup_delete_eq|].
      rewrite lookup_delete_ne by exact Hne. exact N.
  - unfold closeAll.
    split; [|split; [|split; [|split]]]; cbn [viewers live made].
    + intros x. rewrite elem_of_difference, elem_of_map_img, L. split.
      * intros ([-> | H] & Nx); [left; reflexivity | contradiction].
      * intros [-> | (id & H)]; [|rewrite lookup_empty in H; discriminate].
        split; [left; reflexivity|]. intros (id & H). exact (F _ H).
    + intros id H. rewrite lookup_empty in H. discriminate.
    + intros id1 id2 x H. rewrite lookup_empty in H. discriminate.
    + intros x H. apply elem_of_difference in H. apply B, H.
    + apply lookup_empty.
Qed.

Lemma acts_pending l clientID pc : forall t,
  pending t clientID pc -> pending (acts t l) clientID pc.
Proof.
  induction l as [|a l IH]; intros t H; [exact H|].
  apply IH, act_pending, H.
Qed.

Lemma acts_absent l clientID : forall t,
  viewers t !! clientID = None -> viewers (acts t l) !! clientID = None.
Proof.
  induction l as [|a l IH]; intros t H; [exact H|].
  apply IH. destruct a as [id'|]; cbn [act].
  - unfold removeViewer. destruct (viewers t !! id'); [|exact H].
    cbn [viewers closePC].
    destruct (decide (id' = clientID)) as [<-|Hne]; [apply lookup_delete_eq|].
    rewrite lookup_delete_ne by exact Hne. exact H.
  - apply lookup_empty.
Qed.

Lemma removeViewer_absent t clientID :
  viewers (removeViewer t clientID) !! clientID = None.
Proof.
  unfold removeViewer. destruct (viewers t !! clientID) eqn:E; [|exact E].
  cbn [viewers closePC]. apply lookup_delete_eq.
Qed.

Lemma store_accounted t clientID pc :
  pending t clientID pc ->
  accounted (MkTable (<[clientID := pc]> (viewers t)) (live t) (made t)).
Proof.
  intros (L & F & Inj & B & N). split; [|split]; cbn [viewers live made].
  - intros q. rewrite L. split.
    + intros [-> | (id & H)].
      * exists clientID. apply lookup_insert_eq.
      * exists id. rewrite lookup_insert_ne; [exact H|]. intros <-. congruence.
    + intros (id & H).
      destruct (decide (clientID = id)) as [<-|Hne].
      * rewrite lookup_insert_eq in H. injection H as <-. left. reflexivity.
      * rewrite lookup_insert_ne in H by exact Hne. right. eauto.
  - intros id1 id2 q H1 H2.
    destruct (decide (clientID = id1)) as [<-|N1];
      destruct (decide (clientID = id2)) as [<-|N2]; [reflexivity|..].
    + rewrite lookup_insert_eq in H1. injection H1 as <-.
      rewrite lookup_insert_ne in H2 by exact N2. destruct (F _ H2).
    + rewrite lookup_insert_eq in H2. injection H2 as <-.
      rewrite lookup_insert_ne in H1 by exact N1. destruct (F _ H1).
    + rewrite lookup_insert_ne in H1, H2 by assumption. eauto.
  - exact B.
Qed.

Lemma createViewerConnection_cases t clientID how :
  accounted t -> viewers t !! clientID = None ->
  match createViewerConnection t how with
  | (t', None) => accounted t'
  | (t', Some pc) => pending t' clientID pc
  end.
Proof.
  intros (L & Inj & B) N. destruct how; cbn [createViewerConnection].
  - exact (conj L (conj Inj B)).
  - unfold closePC. split; [|split]; cbn [viewers live made].
    + intros pc.
      rewrite <- L, elem_of_difference, elem_of_union, elem_of_singleton.
      split.
      * intros ([-> | H] & N'); [congruence | exact H].
      * intros H. split; [right; exact H|]. intros ->. apply B in H. lia.
    + exact Inj.
    + intros pc H. apply elem_of_difference in H. destruct H as (H & N').
      apply elem_of_union in H. destruct H as [H | H].
      * apply elem_of_singleton in H. subst pc. lia.
      * apply B in H. lia.
  - split; [|split; [|split; [|split]]]; cbn [viewers live made].
    + intros q. rewrite elem_of_union, elem_of_singleton, L. reflexivity.
    + intros id H. assert (made t ∈ live t) by (apply L; eauto).
      apply B in H0. lia.
    + exact Inj.
    + intros q. rewrite elem_of_union, elem_of_singleton.
      intros [-> | H]; [lia | apply B in H; lia].
    + exact N.
Qed.

Lemma viewerConnected_accounted t clientID how offerSent g :
  accounted t -> accounted (viewerConnected t clientID how offerSent g).
Proof.
  intros H. unfold viewerConnected. cbv zeta.
  pose proof (removeViewer_accounted t clientID H) as H1.
  pose proof (removeViewer_absent t clientID) as N1.
  pose proof (acts_accounted (afterCleanup g) _ H1) as H2.
  pose proof (acts_absent (afterCleanup g) clientID _ N1) as N2.
  pose proof (createViewerConnection_cases _ clientID how H2 N2) as C.
  destruct (createViewerConnection
              (acts (removeViewer t clientID) (afterCleanup g)) how)
    as [t3 [pc|]]; [|exact C].
  pose proof (acts_pending (afterCreate g) clientID pc _ C) as P.
  pose proof (store_accounted _ clientID pc P) as S.
  pose proof (acts_accounted (afterStore g) _ S) as H4.
  match goal with |- accounted (if ?b then _ else _) => destruct b end;
    [exact H4|].
  apply removeViewer_accounted, acts_accounted, H4.
Qed.

(** X28.  Under any interleaving of the [viewer_connected] messages with
    the connection-state handlers and [Close], at the level of the
    critical sections of [viewersMu]: whenever [readMessages] is between
    two messages the table holds exactly the peer connections that are
    open, each under one id; a connection that is replaced, refused or
    removed is closed and none is left open outside the table.  The
    handlers work by id: when a viewer joins twice under one id and the
    handler of the replaced connection runs afterwards, it closes and
    removes the new connection, and the viewer is left with none. *)
Theorem viewer_table_holds_exactly_the_open_connections :
  (forall evs : list Event, accounted (run NewTable evs)) /\
  run NewTable
      [ViewerConnected "client-2" ConnectionMade true noGaps;
       ViewerConnected "client-2" ConnectionMade true noGaps;
       Elsewhere (Removes "client-2")]
    = MkTable ∅ ∅ 2%nat /\
  viewers
    (run NewTable
       [ViewerConnected "client-2" ConnectionMade true noGaps;
        ViewerConnected "client-2" ConnectionMade true noGaps])
    = {["client-2"%string := 1%nat]}.
Proof.
  split.
  - assert (G : forall evs t, accounted t -> accounted (run t evs)).
    { induction evs as [|ev evs IH]; intros t H; [exact H|].
      apply IH. destruct ev as [clientID how offerSent g | a]; cbn [step].
      - apply viewerConnected_accounted, H.
      - destruct a; [apply removeViewer_accounted | apply closeAll_accounted]; exact H. }
    intros evs. apply G. split; [|split]; cbn [NewTable viewers live made].
    + intros pc. split.
      * intros H. apply elem_of_empty in H. destruct H.
      * intros (id & H). rewrite lookup_empty in H. discriminate.
    + intros id1 id2 pc H. rewrite lookup_empty in H. discriminate.
    + intros pc H. apply elem_of_empty in H. destruct H.
  - split; vm_compute; reflexivity.
Qed.

End ViewerTableProperties.

(** ** The publisher's signalling loop *)

Section PublisherPanics.
Import Json Signaling Publisher.

Lemma msgType_is (msg : gmap string json) (t : string) :
  t <> EmptyString ->
  String.eqb (default EmptyString (asString (msg !! "type"%string))) t = true <->
  asString (msg !! "type"%string) = Some t.
Proof.
  intros Ht. destruct (asString (msg !! "type"%string)) as [s|]; cbn [default from_option id].
  - unfold default. cbn [from_option id]. rewrite String.eqb_eq.
    split; [intros ->; reflexivity | intros E; inversion E; reflexivity].
  - unfold default. cbn [from_option id]. split; [|discriminate].
    intros E. apply String.eqb_eq in E. congruence.
Qed.

(** X29.  Handling one message in [readMessages] panics on a type
    assertion exactly when the message is routed to a known viewer and is
    an answer whose answer field is not an object, or a candidate whose
    candidate field is not an object or has no string under candidate. *)
Theorem readMessages_panics_iff (stack : Stack) (p : Publisher) (message : Inbound) :
  readMessages_message stack p message = TypeAssertionPanic <->
  exists msg clientID pc,
    message = JsonObject msg /\
    routeID msg = Some clientID /\
    viewers p !! clientID = Some pc /\
    ((asString (msg !! "type"%string) = Some "answer"%string /\
      asObject (msg !! "answer"%string) = None) \/
     (asString (msg !! "type"%string) = Some "candidate"%string /\
      (asObject (msg !! "candidate"%string) = None \/
       exists candidateMap,
         asObject (msg !! "candidate"%string) = Some candidateMap /\
         asString (candidateMap !! "candidate"%string) = None))).
Proof.
  unfold readMessages_message.
  destruct message as [| |msg];
    try (split; [discriminate | intros (m & ? & ? & E & _); discriminate]).
  destruct (String.eqb (default EmptyString (asString (msg !! "type"%string)))
              "viewer_connected") eqn:Ev.
  { apply (msgType_is msg "viewer_connected" ltac:(discriminate)) in Ev. split.
    - destruct (asString (msg !! "clientId"%string)) as [id|]; [|discriminate].
      destruct (createViewerConnection_ok stack id); [|discriminate].
      destruct (sendOffer_ok stack id); discriminate.
    - intros (m & id & pc & E & _ & _ & [(T & _) | (T & _)]);
        inversion E; subst; congruence. }
  destruct (String.eqb (default EmptyString (asString (msg !! "type"%string)))
              "answer") eqn:Ea.
  { apply (msgType_is msg "answer" ltac:(discriminate)) in Ea. split.
    - destruct (routeID msg) as [id|] eqn:R; [|discriminate].
      destruct (viewers p !! id) as [pc|] eqn:V; [|discriminate].
      destruct (asObject (msg !! "answer"%string)) as [answerSDP|] eqn:A.
      + destruct (asString (answerSDP !! "sdp"%string)); [|discriminate].
        destruct (SetRemoteDescription stack pc s); discriminate.
      + intros _. exists msg, id, pc. auto 10.
    - intros (m & id & pc & E & R & V & [(T & A) | (T & _)]);
        inversion E; subst; [|congruence].
      rewrite R, V, A. reflexivity. }
  destruct (String.eqb (default EmptyString (asString (msg !! "type"%string)))
              "candidate") eqn:Ec.
  { apply (msgType_is msg "candidate" ltac:(discriminate)) in Ec. split.
    - destruct (routeID msg) as [id|] eqn:R; [|discriminate].
      destruct (viewers p !! id) as [pc|] eqn:V; [|discriminate].
      destruct (asObject (msg !! "candidate"%string)) as [candidateMap|] eqn:A.
      + destruct (asString (candidateMap !! "candidate"%string)) as [c|] eqn:S.
        * destruct (AddICECandidate pc _); discriminate.
        * intros _. exists msg, id, pc.
          split; [reflexivity|]. split; [exact R|]. split; [exact V|].
          right. split; [exact Ec|]. right. exists candidateMap. auto.
      + intros _. exists msg, id, pc. auto 10.
    - intros (m & id & pc & E & R & V & [(T & _) | (T & [A | (cm & A & S)])]);
        inversion E; subst; [congruence | |].
      + rewrite R, V, A. reflexivity.
      + rewrite R, V, A, S. reflexivity. }
  split; [discriminate|].
  intros (m & id & pc & E & _ & _ & [(T & _) | (T & _)]); injection E as <-.
  - apply (proj2 (msgType_is msg "answer" ltac:(discriminate))) in T. congruence.
  - apply (proj2 (msgType_is msg "candidate" ltac:(discriminate))) in T. congruence.
Qed.

End PublisherPanics.
